(** * Smart Parking Allocation: the core engine, embedded and verified

    Shallow embedding of [src/lib/parking-system/parking-system.ts] and of the
    type declarations it imports ([RequestState], [VALID_TRANSITIONS],
    [ParkingSlot], [ParkingArea], [Zone], [Vehicle], [ParkingRequest],
    [AllocationOperation]).

    Modelling conventions.
    - The JS [Map] of zones is a list in insertion order (the order
      [zones.values()] iterates in); [Map.get] returns the first entry with
      the key, [Map.set] replaces in place or appends.
    - The JS [Map] of requests and of vehicles is a [gmap] keyed by the id
      string; the façade mutates request objects in place, which is an
      insert at the same key.
    - Zones own their areas and areas own their slots (no object is shared
      between two containers), so a reference to a slot object is its position
      in the tree, and a write through a reference is a positional update.
    - [Date.now()] and [Math.random()] are inputs of the operation that calls
      them.
    - [number] is [Z] for counts, timestamps and the penalty, which the
      program only adds, subtracts and compares, and which stay far below
      2^53.  The one division of the program (zone utilization) and the
      multiplication that follows it are carried out as the doubles do:
      each result is rounded to 53 significant bits, to nearest, ties to
      even ([Double.round]); the value of a double is a rational. *)

From Stdlib Require Import ZArith QArith Qround Qpower Lia Lqa.
From Stdlib Require SpecFloat.
From stdpp Require Import base option list strings gmap fin_maps pretty.

Local Open Scope Z_scope.

(** ** Types *)

Inductive RequestState : Type :=
  | REQUESTED | ALLOCATED | OCCUPIED | RELEASED | CANCELLED.

#[global] Instance RequestState_eq_dec : EqDecision RequestState.
Proof. solve_decision. Defined.

Definition VALID_TRANSITIONS (s : RequestState) : list RequestState :=
  match s with
  | REQUESTED => [ALLOCATED; CANCELLED]
  | ALLOCATED => [OCCUPIED; CANCELLED]
  | OCCUPIED => [RELEASED]
  | RELEASED => []
  | CANCELLED => []
  end.

(** The text a state prints as inside a template string. *)
Definition stateName (s : RequestState) : string :=
  match s with
  | REQUESTED => "REQUESTED"
  | ALLOCATED => "ALLOCATED"
  | OCCUPIED => "OCCUPIED"
  | RELEASED => "RELEASED"
  | CANCELLED => "CANCELLED"
  end.

Record ParkingSlot : Type := mkSlot {
  slot_id : string;
  slot_zoneId : string;
  slot_areaId : string;
  isAvailable : bool }.

Record ParkingArea : Type := mkArea {
  area_id : string;
  area_name : string;
  area_zoneId : string;
  slots : list ParkingSlot }.

Record Zone : Type := mkZone {
  zone_id : string;
  zone_name : string;
  areas : list ParkingArea;
  adjacentZones : list string }.

Record Vehicle : Type := mkVehicle {
  vehicle_id : string;
  licensePlate : string;
  preferredZoneId : string }.

Record ParkingRequest : Type := mkRequest {
  req_id : string;
  vehicleId : string;
  requestedZoneId : string;
  allocatedSlotId : option string;
  allocatedZoneId : option string;
  state : RequestState;
  requestTime : Z;
  allocationTime : option Z;
  occupiedTime : option Z;
  releaseTime : option Z;
  isCrossZone : bool;
  crossZonePenalty : Z }.

Record AllocationOperation : Type := mkOperation {
  op_id : string;
  op_requestId : string;
  op_slotId : string;
  previousSlotState : bool;
  previousRequestState : RequestState;
  op_timestamp : Z }.

Record ParkingSystemState : Type := mkPersisted {
  st_zones : list Zone;
  st_vehicles : list Vehicle;
  st_requests : list ParkingRequest;
  st_operationHistory : list AllocationOperation }.

(** The private fields of [class ParkingSystem].  [operationHistory] is the
    doubly linked list in head-to-tail order ([toArray]); its [size] counter
    is the length of that list.  [pendingRequests] holds references to request
    objects, kept here as their keys.  [penalty] is the field
    [crossZonePenalty] of the class (the name is taken by the request's
    field). *)
Record ParkingSystem : Type := mkSystem {
  zones : list Zone;
  vehicles : gmap string Vehicle;
  requests : gmap string ParkingRequest;
  operationHistory : list AllocationOperation;
  pendingRequests : list string;
  penalty : Z }.

(** What the façade's mutating operations return:
    [{ success, message, request? }]. *)
Record OpResult : Type := mkResult {
  success : bool;
  message : string;
  request : option ParkingRequest }.

Record RollbackResult : Type := mkRollbackResult {
  rb_success : bool;
  rb_message : string;
  rolledBack : Z }.

(** ** Field updates *)

Definition setAvailable (b : bool) (s : ParkingSlot) : ParkingSlot :=
  mkSlot (slot_id s) (slot_zoneId s) (slot_areaId s) b.

Definition withSlots (ss : list ParkingSlot) (a : ParkingArea) : ParkingArea :=
  mkArea (area_id a) (area_name a) (area_zoneId a) ss.

Definition withAreas (l : list ParkingArea) (z : Zone) : Zone :=
  mkZone (zone_id z) (zone_name z) l (adjacentZones z).

Definition withZones (zs : list Zone) (S : ParkingSystem) : ParkingSystem :=
  mkSystem zs (vehicles S) (requests S) (operationHistory S)
           (pendingRequests S) (penalty S).

Definition withRequests (m : gmap string ParkingRequest) (S : ParkingSystem)
  : ParkingSystem :=
  mkSystem (zones S) (vehicles S) m (operationHistory S)
           (pendingRequests S) (penalty S).

Definition withHistory (h : list AllocationOperation) (S : ParkingSystem)
  : ParkingSystem :=
  mkSystem (zones S) (vehicles S) (requests S) h
           (pendingRequests S) (penalty S).

(** ** OperationLinkedList *)

Definition history_push (o : AllocationOperation)
    (h : list AllocationOperation) : list AllocationOperation :=
  h ++ [o].

(** [pop]: the tail's record and the list without it, [None] when empty. *)
Definition history_pop (h : list AllocationOperation)
  : option (AllocationOperation * list AllocationOperation) :=
  match last h with
  | None => None
  | Some o => Some (o, take (length h - 1)%nat h)
  end.

(** ** Topology store *)

Definition zoneHasId (zid : string) (z : Zone) : bool :=
  bool_decide (zone_id z = zid).

(** [this.zones.get(zoneId)] *)
Definition getZone (zid : string) (S : ParkingSystem) : option Zone :=
  List.find (zoneHasId zid) (zones S).

(** [this.zones.set(zone.id, zone)] *)
Fixpoint zones_set (z : Zone) (zs : list Zone) : list Zone :=
  match zs with
  | [] => [z]
  | z' :: rest =>
      if zoneHasId (zone_id z) z' then z :: rest else z' :: zones_set z rest
  end.

Definition addZone (z : Zone) (S : ParkingSystem) : ParkingSystem :=
  withZones (zones_set z (zones S)) S.

Definition addVehicle (v : Vehicle) (S : ParkingSystem) : ParkingSystem :=
  mkSystem (zones S) (<[vehicle_id v := v]> (vehicles S)) (requests S)
           (operationHistory S) (pendingRequests S) (penalty S).

Definition slotHasId (sid : string) (s : ParkingSlot) : bool :=
  bool_decide (slot_id s = sid).

Record SlotInfo : Type := mkSlotInfo {
  info_slot : ParkingSlot;
  info_zone : Zone;
  info_area : ParkingArea }.

Fixpoint findSlot_areas (sid : string) (z : Zone) (l : list ParkingArea)
  : option SlotInfo :=
  match l with
  | [] => None
  | a :: rest =>
      match List.find (slotHasId sid) (slots a) with
      | Some s => Some (mkSlotInfo s z a)
      | None => findSlot_areas sid z rest
      end
  end.

Fixpoint findSlot_zones (sid : string) (zs : list Zone) : option SlotInfo :=
  match zs with
  | [] => None
  | z :: rest =>
      match findSlot_areas sid z (areas z) with
      | Some i => Some i
      | None => findSlot_zones sid rest
      end
  end.

Definition findSlot (sid : string) (S : ParkingSystem) : option SlotInfo :=
  findSlot_zones sid (zones S).

(** [slotInfo.slot.isAvailable = b] for [slotInfo = findSlot(sid)]: the write
    lands on the slot [findSlot] returned, the first one with that id. *)
Fixpoint assign_slots (sid : string) (b : bool) (ss : list ParkingSlot)
  : list ParkingSlot :=
  match ss with
  | [] => []
  | s :: rest =>
      if slotHasId sid s then setAvailable b s :: rest
      else s :: assign_slots sid b rest
  end.

Fixpoint assign_areas (sid : string) (b : bool) (l : list ParkingArea)
  : list ParkingArea :=
  match l with
  | [] => []
  | a :: rest =>
      match List.find (slotHasId sid) (slots a) with
      | Some _ => withSlots (assign_slots sid b (slots a)) a :: rest
      | None => a :: assign_areas sid b rest
      end
  end.

Fixpoint assign_zones (sid : string) (b : bool) (zs : list Zone) : list Zone :=
  match zs with
  | [] => []
  | z :: rest =>
      match findSlot_areas sid z (areas z) with
      | Some _ => withAreas (assign_areas sid b (areas z)) z :: rest
      | None => z :: assign_zones sid b rest
      end
  end.

(** [const slotInfo = this.findSlot(sid);
     if (slotInfo) slotInfo.slot.isAvailable = b] *)
Definition setFoundSlot (sid : string) (b : bool) (S : ParkingSystem)
  : ParkingSystem :=
  withZones (assign_zones sid b (zones S)) S.

(** The two nested loops of [getAvailableSlotsInZone]. *)
Definition availableSlotsOf (z : Zone) : list ParkingSlot :=
  flat_map (fun a => List.filter isAvailable (slots a)) (areas z).

Definition getAvailableSlotsInZone (zid : string) (S : ParkingSystem)
  : list ParkingSlot :=
  match getZone zid S with
  | None => []
  | Some z => availableSlotsOf z
  end.

Definition getTotalSlotsInZone (zid : string) (S : ParkingSystem) : Z :=
  match getZone zid S with
  | None => 0
  | Some z =>
      fold_left (fun total a => total + Z.of_nat (length (slots a))) (areas z) 0
  end.

(** [selectedSlot.isAvailable = false] for [selectedSlot =
    getAvailableSlotsInZone(zid)[0]]: the write lands on the first available
    slot, in declared order, of the zone stored under [zid]. *)
Fixpoint claim_slots (ss : list ParkingSlot) : list ParkingSlot :=
  match ss with
  | [] => []
  | s :: rest =>
      if isAvailable s then setAvailable false s :: rest
      else s :: claim_slots rest
  end.

Fixpoint claim_areas (l : list ParkingArea) : list ParkingArea :=
  match l with
  | [] => []
  | a :: rest =>
      match List.filter isAvailable (slots a) with
      | _ :: _ => withSlots (claim_slots (slots a)) a :: rest
      | [] => a :: claim_areas rest
      end
  end.

Fixpoint claim_zones (zid : string) (zs : list Zone) : list Zone :=
  match zs with
  | [] => []
  | z :: rest =>
      if zoneHasId zid z then withAreas (claim_areas (areas z)) z :: rest
      else z :: claim_zones zid rest
  end.

(** ** State machine *)

Definition canTransition (currentState newState : RequestState) : bool :=
  bool_decide (newState ∈ VALID_TRANSITIONS currentState).

(** ** Façade operations *)

Definition failure (msg : string) : OpResult := mkResult false msg None.

(** The readings of [Date.now()] and [Math.random()] taken by one call of
    [createRequest]: the two inside the id, then [requestTime]. *)
Record CreateEnv : Type := mkCreateEnv {
  ce_idTime : Z;
  ce_idRandom : string;
  ce_requestTime : Z }.

(** The readings taken by one successful [allocateSlot]: the two inside the
    operation id, the operation's [timestamp], then [allocationTime]. *)
Record AllocEnv : Type := mkAllocEnv {
  ae_idTime : Z;
  ae_idRandom : string;
  ae_timestamp : Z;
  ae_allocationTime : Z }.

Definition createRequest (e : CreateEnv) (vid zid : string) (S : ParkingSystem)
  : ParkingRequest * ParkingSystem :=
  let id := "REQ-" +:+ pretty (ce_idTime e) +:+ "-" +:+ ce_idRandom e in
  let request :=
    mkRequest id vid zid None None REQUESTED (ce_requestTime e)
              None None None false 0 in
  (request,
   mkSystem (zones S) (vehicles S) (<[id := request]> (requests S))
            (operationHistory S) (pendingRequests S ++ [id]) (penalty S)).

(** The [for (const adjacentZoneId of requestedZone.adjacentZones)] loop:
    the zone it breaks on together with that zone's available slots, or
    [None] when it runs to the end. *)
Fixpoint firstAdjacentWithSlots (S : ParkingSystem) (adj : list string)
  : option (string * list ParkingSlot) :=
  match adj with
  | [] => None
  | adjacentZoneId :: rest =>
      match getAvailableSlotsInZone adjacentZoneId S with
      | [] => firstAdjacentWithSlots S rest
      | s :: l => Some (adjacentZoneId, s :: l)
      end
  end.

(** Lines 213-228 of [allocateSlot]: the zone the candidates come from, the
    final value of [availableSlots] and of [isCrossZone]. *)
Definition selectSlots (zid : string) (S : ParkingSystem)
  : string * list ParkingSlot * bool :=
  match getAvailableSlotsInZone zid S with
  | s :: l => (zid, s :: l, false)
  | [] =>
      match getZone zid S with
      | Some requestedZone =>
          match firstAdjacentWithSlots S (adjacentZones requestedZone) with
          | Some (a, l) => (a, l, true)
          | None => (zid, [], false)
          end
      | None => (zid, [], false)
      end
  end.

Definition allocatedRequest (e : AllocEnv) (P : Z) (isCross : bool)
    (selectedSlot : ParkingSlot) (q : ParkingRequest) : ParkingRequest :=
  mkRequest (req_id q) (vehicleId q) (requestedZoneId q)
            (Some (slot_id selectedSlot)) (Some (slot_zoneId selectedSlot))
            ALLOCATED (requestTime q) (Some (ae_allocationTime e))
            (occupiedTime q) (releaseTime q)
            isCross (if isCross then P else 0).

Definition allocationRecord (e : AllocEnv) (selectedSlot : ParkingSlot)
    (q : ParkingRequest) : AllocationOperation :=
  mkOperation ("OP-" +:+ pretty (ae_idTime e) +:+ "-" +:+ ae_idRandom e)
              (req_id q) (slot_id selectedSlot) (isAvailable selectedSlot)
              (state q) (ae_timestamp e).

Definition allocateSlot (e : AllocEnv) (requestId : string) (S : ParkingSystem)
  : OpResult * ParkingSystem :=
  match requests S !! requestId with
  | None => (failure "Request not found", S)
  | Some q =>
      if negb (canTransition (state q) ALLOCATED) then
        (failure ("Invalid state transition from " +:+ stateName (state q)
                  +:+ " to ALLOCATED"), S)
      else
        match selectSlots (requestedZoneId q) S with
        | (_, [], _) =>
            (failure
               "No available slots in requested zone or adjacent zones", S)
        | (zsel, selectedSlot :: _, isCross) =>
            let q' := allocatedRequest e (penalty S) isCross selectedSlot q in
            (mkResult true
               (if isCross
                then "Allocated to slot " +:+ slot_id selectedSlot
                     +:+ " in adjacent zone (penalty: " +:+ pretty (penalty S)
                     +:+ ")"
                else "Allocated to slot " +:+ slot_id selectedSlot)
               (Some q'),
             mkSystem (claim_zones zsel (zones S)) (vehicles S)
                      (<[requestId := q']> (requests S))
                      (history_push (allocationRecord e selectedSlot q)
                                    (operationHistory S))
                      (pendingRequests S) (penalty S))
        end
  end.

Definition occupiedRequest (now : Z) (q : ParkingRequest) : ParkingRequest :=
  mkRequest (req_id q) (vehicleId q) (requestedZoneId q)
            (allocatedSlotId q) (allocatedZoneId q)
            OCCUPIED (requestTime q) (allocationTime q)
            (Some now) (releaseTime q)
            (isCrossZone q) (crossZonePenalty q).

Definition occupySlot (now : Z) (requestId : string) (S : ParkingSystem)
  : OpResult * ParkingSystem :=
  match requests S !! requestId with
  | None => (failure "Request not found", S)
  | Some q =>
      if negb (canTransition (state q) OCCUPIED) then
        (failure ("Invalid state transition from " +:+ stateName (state q)
                  +:+ " to OCCUPIED"), S)
      else
        let q' := occupiedRequest now q in
        (mkResult true "Slot is now occupied" (Some q'),
         withRequests (<[requestId := q']> (requests S)) S)
  end.

(** [if (request.allocatedSlotId) { ... slotInfo.slot.isAvailable = true }]:
    [null] and the empty string are both falsy. *)
Definition freeAllocatedSlot (q : ParkingRequest) (S : ParkingSystem)
  : ParkingSystem :=
  match allocatedSlotId q with
  | None => S
  | Some sid => if bool_decide (sid = "") then S else setFoundSlot sid true S
  end.

Definition releasedRequest (now : Z) (q : ParkingRequest) : ParkingRequest :=
  mkRequest (req_id q) (vehicleId q) (requestedZoneId q)
            (allocatedSlotId q) (allocatedZoneId q)
            RELEASED (requestTime q) (allocationTime q)
            (occupiedTime q) (Some now)
            (isCrossZone q) (crossZonePenalty q).

Definition releaseSlot (now : Z) (requestId : string) (S : ParkingSystem)
  : OpResult * ParkingSystem :=
  match requests S !! requestId with
  | None => (failure "Request not found", S)
  | Some q =>
      if negb (canTransition (state q) RELEASED) then
        (failure ("Invalid state transition from " +:+ stateName (state q)
                  +:+ " to RELEASED"), S)
      else
        let S1 := freeAllocatedSlot q S in
        let q' := releasedRequest now q in
        (mkResult true "Slot released successfully" (Some q'),
         withRequests (<[requestId := q']> (requests S1)) S1)
  end.

Definition cancelledRequest (q : ParkingRequest) : ParkingRequest :=
  mkRequest (req_id q) (vehicleId q) (requestedZoneId q)
            (allocatedSlotId q) (allocatedZoneId q)
            CANCELLED (requestTime q) (allocationTime q)
            (occupiedTime q) (releaseTime q)
            (isCrossZone q) (crossZonePenalty q).

Definition cancelRequest (requestId : string) (S : ParkingSystem)
  : OpResult * ParkingSystem :=
  match requests S !! requestId with
  | None => (failure "Request not found", S)
  | Some q =>
      if negb (canTransition (state q) CANCELLED) then
        (failure ("Invalid state transition from " +:+ stateName (state q)
                  +:+ " to CANCELLED"), S)
      else
        let S1 := freeAllocatedSlot q S in
        let q' := cancelledRequest q in
        (mkResult true "Request cancelled successfully" (Some q'),
         withRequests (<[requestId := q']> (requests S1)) S1)
  end.

(** ** Rollback manager *)

(** The request after [request.state = operation.previousRequestState] and,
    when that state is [REQUESTED], the five field resets. *)
Definition restoredRequest (o : AllocationOperation) (q : ParkingRequest)
  : ParkingRequest :=
  match previousRequestState o with
  | REQUESTED =>
      mkRequest (req_id q) (vehicleId q) (requestedZoneId q)
                None None REQUESTED (requestTime q) None
                (occupiedTime q) (releaseTime q) false 0
  | st =>
      mkRequest (req_id q) (vehicleId q) (requestedZoneId q)
                (allocatedSlotId q) (allocatedZoneId q)
                st (requestTime q) (allocationTime q)
                (occupiedTime q) (releaseTime q)
                (isCrossZone q) (crossZonePenalty q)
  end.

(** The body of the rollback loop after the pop. *)
Definition undo (o : AllocationOperation) (S : ParkingSystem) : ParkingSystem :=
  let S1 := setFoundSlot (op_slotId o) (previousSlotState o) S in
  match requests S1 !! op_requestId o with
  | Some q =>
      withRequests (<[op_requestId o := restoredRequest o q]> (requests S1)) S1
  | None => S1
  end.

(** [for (let i = 0; i < k && this.operationHistory.size > 0; i++)].  Every
    iteration pops one record, so the loop runs at most [size] times; [fuel]
    is that bound ([rollback_loop_run] shows the loop never stops for lack
    of it). *)
Fixpoint rollback_loop (fuel : nat) (i k rolledBack : Z) (S : ParkingSystem)
  : Z * ParkingSystem :=
  match fuel with
  | O => (rolledBack, S)
  | Datatypes.S fuel' =>
      if bool_decide (i < k)%Z
         && bool_decide (0 < length (operationHistory S))%nat then
        match history_pop (operationHistory S) with
        | None => (rolledBack, S)
        | Some (o, h) =>
            rollback_loop fuel' (i + 1) k (rolledBack + 1)
                          (undo o (withHistory h S))
        end
      else (rolledBack, S)
  end.

Definition rollback (k : Z) (S : ParkingSystem)
  : RollbackResult * ParkingSystem :=
  let '(n, S') := rollback_loop (length (operationHistory S)) 0 k 0 S in
  (mkRollbackResult true ("Rolled back " +:+ pretty n +:+ " operation(s)") n,
   S').

(** The state after the [m] most recent records were popped and undone,
    newest first. *)
Fixpoint undoLast (m : nat) (S : ParkingSystem) : ParkingSystem :=
  match m with
  | O => S
  | Datatypes.S m' =>
      match history_pop (operationHistory S) with
      | Some (o, h) => undoLast m' (undo o (withHistory h S))
      | None => S
      end
  end.

(** ** Construction *)

Definition emptySystem : ParkingSystem :=
  mkSystem [] ∅ ∅ [] [] 10.

Definition loadState (st : ParkingSystemState) (S : ParkingSystem)
  : ParkingSystem :=
  mkSystem
    (fold_left (fun zs z => zones_set z zs) (st_zones st) (zones S))
    (fold_left (fun m v => <[vehicle_id v := v]> m) (st_vehicles st)
               (vehicles S))
    (fold_left (fun m q => <[req_id q := q]> m) (st_requests st) (requests S))
    (fold_left (fun h o => history_push o h) (st_operationHistory st)
               (operationHistory S))
    (pendingRequests S) (penalty S).

(** [new ParkingSystem(initialState?)] *)
Definition newParkingSystem (initialState : option ParkingSystemState)
  : ParkingSystem :=
  match initialState with
  | Some st => loadState st emptySystem
  | None => emptySystem
  end.

(** ** Double-precision arithmetic

    A finite double is a rational; an arithmetic operation returns the exact
    result rounded to the nearest number with a 53-bit significand, a tie
    going to the even significand.  The exponent range plays no role in this
    program: the operands are slot counts and the constant 100, and the
    results lie between 2^-53 and 100. *)

Module Double.

(** [floor (log2 x)] for a positive [x]. *)
Definition ilog2 (x : Q) : Z :=
  let e := Z.log2 (Qnum x) - Z.log2 (Zpos (Qden x)) in
  if Qle_bool (2 ^ e) x then e else e - 1.

(** The integer nearest to [m], the even one of the two when [m] is half-way
    between them. *)
Definition roundHalfEven (m : Q) : Z :=
  let f := Qfloor m in
  match (m - inject_Z f ?= 1 # 2)%Q with
  | Lt => f
  | Gt => f + 1
  | Eq => if Z.even f then f else f + 1
  end.

(** For [2^e <= x < 2^(e+1)] the doubles around [x] are the multiples of
    [2^(e-52)]. *)
Definition roundPositive (x : Q) : Q :=
  let ulp := (2 ^ (ilog2 x - 52))%Q in
  (inject_Z (roundHalfEven (x / ulp)) * ulp)%Q.

Definition round (x : Q) : Q :=
  match Qnum x with
  | Z0 => 0%Q
  | Zpos _ => roundPositive x
  | Zneg _ => (- roundPositive (- x))%Q
  end.

(** [x / y] and [x * y] on doubles.  The program divides only by a positive
    count. *)
Definition div (x y : Q) : Q := round (x / y).

Definition mul (x y : Q) : Q := round (x * y).

(** The same expression, [((total - available) / total) * 100], evaluated by
    the standard library's definition of IEEE 754 binary64 arithmetic (53
    bits of precision, exponents below 1024), and its value as a rational: a
    reference to measure [round] against. *)
Definition valueOf (f : SpecFloat.spec_float) : option Q :=
  match f with
  | SpecFloat.S754_zero _ => Some 0%Q
  | SpecFloat.S754_finite s m e =>
      Some ((if s then -1 else 1) * inject_Z (Zpos m) * 2 ^ e)%Q
  | _ => None
  end.

Definition binary64 (n : Z) : SpecFloat.spec_float :=
  SpecFloat.binary_normalize 53 1024 n 0 false.

Definition binary64Percentage (total available : Z) : option Q :=
  valueOf
    (SpecFloat.SFmul 53 1024
       (SpecFloat.SFdiv 53 1024 (binary64 (total - available))
                                (binary64 total))
       (binary64 100)).

Definition percentage (total available : Z) : Q :=
  mul (div (inject_Z (total - available)) (inject_Z total)) 100.

(** [percentage] and [binary64Percentage] agree for every total from 1 to
    [n] and every number of available slots from 0 to the total. *)
Definition agreesUpTo (n : nat) : bool :=
  forallb
    (fun t =>
       forallb
         (fun a =>
            match binary64Percentage (Z.of_nat (Datatypes.S t)) (Z.of_nat a) with
            | Some v =>
                Qeq_bool v (percentage (Z.of_nat (Datatypes.S t)) (Z.of_nat a))
            | None => false
            end)
         (seq 0 (Datatypes.S (Datatypes.S t))))
    (seq 0 n).

End Double.

(** ** Analytics: zone utilization *)

(** [totalSlots > 0 ? ((totalSlots - availableSlots) / totalSlots) * 100 : 0] *)
Definition utilizationOf (S : ParkingSystem) (z : Zone) : Q :=
  let totalSlots := getTotalSlotsInZone (zone_id z) S in
  let availableSlots :=
    Z.of_nat (length (getAvailableSlotsInZone (zone_id z) S)) in
  if bool_decide (0 < totalSlots)%Z
  then Double.mul
         (Double.div (inject_Z (totalSlots - availableSlots))
                     (inject_Z totalSlots))
         100
  else 0%Q.

(** [zoneUtilization[zone.id] = ...] on the plain object [{}].  The map holds
    the object's own properties.  An assignment creates or overwrites the own
    property with that key, except for the key "__proto__": that one reaches
    the setter inherited from [Object.prototype], which ignores a number, so
    no property is created. *)
Definition recordSet (key : string) (value : Q) (m : gmap string Q)
  : gmap string Q :=
  if decide (key = "__proto__") then m else <[key := value]> m.

(** The [zoneUtilization] record that [getAnalytics] fills zone by zone. *)
Definition zoneUtilization (S : ParkingSystem) : gmap string Q :=
  fold_left (fun m z => recordSet (zone_id z) (utilizationOf S z) m)
            (zones S) ∅.

(** ** The slot tree seen as a flat sequence *)

(** Slots of a zone in declared iteration order: areas in zone order, slots
    in area order. *)
Definition slotsOf (z : Zone) : list ParkingSlot := flat_map slots (areas z).

Definition allSlots (zs : list Zone) : list ParkingSlot := flat_map slotsOf zs.

Definition slotIds (zs : list Zone) : list string := map slot_id (allSlots zs).

(** ** Sequences of façade operations *)

Inductive FacadeOp : Type :=
  | CreateRequest (e : CreateEnv) (vid zid : string)
  | Allocate (e : AllocEnv) (requestId : string)
  | Occupy (now : Z) (requestId : string)
  | Release (now : Z) (requestId : string)
  | Cancel (requestId : string)
  | Rollback (k : Z).

Definition step (o : FacadeOp) (S : ParkingSystem) : ParkingSystem :=
  match o with
  | CreateRequest e vid zid => snd (createRequest e vid zid S)
  | Allocate e rid => snd (allocateSlot e rid S)
  | Occupy now rid => snd (occupySlot now rid S)
  | Release now rid => snd (releaseSlot now rid S)
  | Cancel rid => snd (cancelRequest rid S)
  | Rollback k => snd (rollback k S)
  end.

Definition run (ops : list FacadeOp) (S : ParkingSystem) : ParkingSystem :=
  fold_left (fun T o => step o T) ops S.

(** A system whose topology the host has loaded with [addZone] and
    [addVehicle], before any request. *)
Definition loadTopology (zs : list Zone) (vs : list Vehicle) : ParkingSystem :=
  fold_left (fun T v => addVehicle v T) vs
    (fold_left (fun T z => addZone z T) zs (newParkingSystem None)).

(** ** The allocation invariant *)

(** A request holds a slot while it is ALLOCATED or OCCUPIED. *)
Definition holding (q : ParkingRequest) : Prop :=
  state q = ALLOCATED \/ state q = OCCUPIED.

(** Availability of the slot [findSlot] returns for an id. *)
Definition slotStatus (zs : list Zone) (sid : string) : option bool :=
  isAvailable <$> List.find (slotHasId sid) (allSlots zs).

(** The request named by the most recent log record on a slot. *)
Definition lastOpOn (sid : string) (h : list AllocationOperation)
  : option string :=
  op_requestId
    <$> List.find (fun o => bool_decide (op_slotId o = sid)) (rev h).

Record Inv (S : ParkingSystem) : Prop := mkInv {
  inv_slot_ids : NoDup (slotIds (zones S));
  inv_keys : forall k q, requests S !! k = Some q -> req_id q = k;
  inv_requested :
    forall k q, requests S !! k = Some q -> state q = REQUESTED ->
                allocatedSlotId q = None;
  inv_holding :
    forall k q, requests S !! k = Some q -> holding q ->
      exists sid zid,
        allocatedSlotId q = Some sid
        /\ allocatedZoneId q = Some zid
        /\ slotStatus (zones S) sid = Some false
        /\ lastOpOn sid (operationHistory S) = Some k;
  inv_log :
    Forall (fun o => previousRequestState o = REQUESTED) (operationHistory S) }.

(** ** Rolling back and re-running allocations *)

(** A batch of allocations, each with its clock and random readings; [None]
    as soon as one of them fails. *)
Fixpoint allocateAll (reqs : list (AllocEnv * string)) (S : ParkingSystem)
  : option ParkingSystem :=
  match reqs with
  | [] => Some S
  | (e, rid) :: rest =>
      let '(r, S') := allocateSlot e rid S in
      if success r then allocateAll rest S' else None
  end.

(** What rollback leaves of a request whose record's saved state is
    REQUESTED. *)
Definition clearedRequest (q : ParkingRequest) : ParkingRequest :=
  mkRequest (req_id q) (vehicleId q) (requestedZoneId q)
            None None REQUESTED (requestTime q) None
            (occupiedTime q) (releaseTime q) false 0.

Definition clearSet (X : gset string) (m : gmap string ParkingRequest)
  : gmap string ParkingRequest :=
  map_imap
    (fun k q => Some (if decide (k ∈ X) then clearedRequest q else q)) m.

(** The system [S] with the requests named in [X] cleared. *)
Definition rolledBackTo (X : gset string) (S : ParkingSystem) : ParkingSystem :=
  withRequests (clearSet X (requests S)) S.

(** The clock and random readings stored in a state, blanked out:
    [allocationTime] of requests, [id] and [timestamp] of log records. *)
Definition eraseAllocationTime (q : ParkingRequest) : ParkingRequest :=
  mkRequest (req_id q) (vehicleId q) (requestedZoneId q)
            (allocatedSlotId q) (allocatedZoneId q) (state q) (requestTime q)
            None (occupiedTime q) (releaseTime q)
            (isCrossZone q) (crossZonePenalty q).

Definition eraseStamp (o : AllocationOperation) : AllocationOperation :=
  mkOperation "" (op_requestId o) (op_slotId o) (previousSlotState o)
              (previousRequestState o) 0.

Definition eraseReadings (S : ParkingSystem) : ParkingSystem :=
  mkSystem (zones S) (vehicles S) (eraseAllocationTime <$> requests S)
           (eraseStamp <$> operationHistory S) (pendingRequests S) (penalty S).

(** ** The scenarios of the test-suite *)

Module Scenario.

Definition slot (id zid aid : string) (free : bool) : ParkingSlot :=
  mkSlot id zid aid free.

Definition zoneA : Zone :=
  mkZone "zone-a" "zone-a"
         [mkArea "area-a1" "area-a1" "zone-a"
                 [slot "slot-a1-1" "zone-a" "area-a1" true;
                  slot "slot-a1-2" "zone-a" "area-a1" true]] [].

Definition zoneA_full : Zone :=
  mkZone "zone-a" "zone-a"
         [mkArea "area-a1" "area-a1" "zone-a"
                 [slot "slot-a1-1" "zone-a" "area-a1" false;
                  slot "slot-a1-2" "zone-a" "area-a1" false]] ["zone-b"].

Definition zoneB : Zone :=
  mkZone "zone-b" "zone-b"
         [mkArea "area-b1" "area-b1" "zone-b"
                 [slot "slot-b1-1" "zone-b" "area-b1" true]] ["zone-a"].

Definition v1 : Vehicle := mkVehicle "v1" "V1-PLATE" "zone-a".

Definition ce1 : CreateEnv := mkCreateEnv 1000 "abcdefghi" 1000.
Definition ae1 : AllocEnv := mkAllocEnv 1001 "jklmnopqr" 1001 1002.
Definition r1 : string := "REQ-1000-abcdefghi".

Definition sameZone : ParkingSystem :=
  snd (createRequest ce1 "v1" "zone-a"
         (addVehicle v1 (addZone zoneA (newParkingSystem None)))).

Definition crossZone : ParkingSystem :=
  snd (createRequest ce1 "v1" "zone-a"
         (addVehicle v1 (addZone zoneB (addZone zoneA_full
                                          (newParkingSystem None))))).

Definition ce2 : CreateEnv := mkCreateEnv 1100 "stuvwxyz0" 1100.
Definition ae2 : AllocEnv := mkAllocEnv 1101 "123456789" 1101 1102.
Definition r2 : string := "REQ-1100-stuvwxyz0".

(** Readings of a later re-run. *)
Definition ae1' : AllocEnv := mkAllocEnv 5001 "aaaaaaaaa" 5001 5002.
Definition ae2' : AllocEnv := mkAllocEnv 5101 "bbbbbbbbb" 5101 5102.

(** Two pending requests for [zone-a], which has two free slots. *)
Definition twoRequests : ParkingSystem :=
  snd (createRequest ce2 "v1" "zone-a" sameZone).

(** Both requests allocated. *)
Definition twoAllocated : ParkingSystem :=
  snd (allocateSlot ae2 r2 (snd (allocateSlot ae1 r1 twoRequests))).

(** Both requests allocated, then the first one cancelled: its slot, the
    first of the zone, is free again while the second allocation stands. *)
Definition firstCancelled : ParkingSystem :=
  run [CreateRequest ce1 "v1" "zone-a"; CreateRequest ce2 "v1" "zone-a";
       Allocate ae1 r1; Allocate ae2 r2; Cancel r1]
      (loadTopology [zoneA] [v1]).

(** A zone whose two slots carry the same id. *)
Definition zoneDup : Zone :=
  mkZone "zone-a" "zone-a"
         [mkArea "area-a1" "area-a1" "zone-a"
                 [slot "slot-a1-1" "zone-a" "area-a1" true;
                  slot "slot-a1-1" "zone-a" "area-a1" true]] [].



(** A zone whose id is the name of the prototype accessor. *)
Definition zoneProto : Zone :=
  mkZone "__proto__" "zone-p"
         [mkArea "area-p1" "area-p1" "__proto__"
                 [slot "slot-p1-1" "__proto__" "area-p1" false]] [].

Definition protoNamed : ParkingSystem :=
  addZone zoneProto (addZone zoneA (newParkingSystem None)).

End Scenario.

(** * The rest of the engine and its callers *)

(** ** Read queries of the façade

    [Array.from(map.values())] lists a JS [Map] in insertion order.  The
    request and vehicle maps are [gmap]s, which do not record that order, so
    the two listings below are in key order; every statement made about them
    is invariant under permutation. *)

Definition getAllZones (S : ParkingSystem) : list Zone := zones S.

Definition getVehicle (vid : string) (S : ParkingSystem) : option Vehicle :=
  vehicles S !! vid.

Definition getAllVehicles (S : ParkingSystem) : list Vehicle :=
  (map_to_list (vehicles S)).*2.

Definition getRequest (rid : string) (S : ParkingSystem)
  : option ParkingRequest :=
  requests S !! rid.

Definition getAllRequests (S : ParkingSystem) : list ParkingRequest :=
  (map_to_list (requests S)).*2.

Definition getOperationHistory (S : ParkingSystem)
  : list AllocationOperation :=
  operationHistory S.

(** ** RequestQueue

    The queue is an array used first-in first-out: [enqueue] is [push],
    [dequeue] is [shift].  The engine keeps request references in it; the
    element type is left open. *)

Section RequestQueue.

Context {A : Type}.

Definition enqueue (x : A) (items : list A) : list A := items ++ [x].

(** [shift]: the first element, or [undefined] on an empty array, and the
    array without it. *)
Definition dequeue (items : list A) : option A * list A :=
  match items with
  | [] => (None, [])
  | x :: rest => (Some x, rest)
  end.

Definition peek (items : list A) : option A := items !! 0%nat.

Definition isEmpty (items : list A) : bool :=
  bool_decide (length items = 0%nat).

Definition getAll (items : list A) : list A := items.

Definition queue_size (items : list A) : nat := length items.

(** [n] calls of [dequeue] in a row: what they returned, and what is left. *)
Fixpoint dequeueMany (n : nat) (items : list A) : list (option A) * list A :=
  match n with
  | O => ([], items)
  | Datatypes.S n' =>
      let '(x, rest) := dequeue items in
      let '(xs, rest') := dequeueMany n' rest in
      (x :: xs, rest')
  end.

End RequestQueue.

(** The id [createRequest] gives the request it creates. *)
Definition requestIdOf (e : CreateEnv) : string :=
  "REQ-" +:+ pretty (ce_idTime e) +:+ "-" +:+ ce_idRandom e.

(** The ids of the requests a sequence of façade operations creates, in
    order. *)
Definition createdIds (ops : list FacadeOp) : list string :=
  flat_map (fun o => match o with
                     | CreateRequest e _ _ => [requestIdOf e]
                     | _ => []
                     end) ops.

(** ** The topology with availability blanked out *)

Definition blankSlot (s : ParkingSlot) : ParkingSlot := setAvailable false s.

Definition blankArea (a : ParkingArea) : ParkingArea :=
  withSlots (map blankSlot (slots a)) a.

Definition blankZone (z : Zone) : Zone :=
  withAreas (map blankArea (areas z)) z.

Definition layout (S : ParkingSystem) : list Zone := map blankZone (zones S).

(** ** The request form: create, then allocate at once

    [handleCreateRequest] of the request form, without its toasts: nothing
    happens unless a vehicle and a zone are selected (the empty string is
    falsy); otherwise the request is created and allocation is attempted on
    the id just returned. *)
Definition handleCreateRequest (ce : CreateEnv) (ae : AllocEnv)
    (selectedVehicle selectedZone : string) (S : ParkingSystem)
  : option (ParkingRequest * OpResult) * ParkingSystem :=
  if bool_decide (selectedVehicle = "") || bool_decide (selectedZone = "")
  then (None, S)
  else
    let '(request, S1) := createRequest ce selectedVehicle selectedZone S in
    let '(result, S2) := allocateSlot ae (req_id request) S1 in
    (Some (request, result), S2).

(** ** The request list: the actions offered for a state *)

Inductive Action : Type := ActAllocate | ActOccupy | ActRelease | ActCancel.

#[global] Instance Action_eq_dec : EqDecision Action.
Proof. solve_decision. Defined.

Definition getAvailableActions (st : RequestState) : list Action :=
  match st with
  | REQUESTED => [ActAllocate; ActCancel]
  | ALLOCATED => [ActOccupy; ActCancel]
  | OCCUPIED => [ActRelease]
  | _ => []
  end.

(** [handleAction]: the façade call behind each button.  [ae] and [now] are
    the readings the call may take. *)
Definition handleAction (ae : AllocEnv) (now : Z) (requestId : string)
    (action : Action) (S : ParkingSystem) : OpResult * ParkingSystem :=
  match action with
  | ActAllocate => allocateSlot ae requestId S
  | ActOccupy => occupySlot now requestId S
  | ActRelease => releaseSlot now requestId S
  | ActCancel => cancelRequest requestId S
  end.

(** ** Further scenarios *)

Module Scenario2.

(** A zone whose only slot has the empty string for id. *)
Definition zoneBlank : Zone :=
  mkZone "zone-a" "zone-a"
         [mkArea "area-a1" "area-a1" "zone-a"
                 [mkSlot "" "zone-a" "area-a1" true]] [].

(** A request for that zone, allocated. *)
Definition blankAllocated : ParkingSystem :=
  run [CreateRequest Scenario.ce1 "v1" "zone-a";
       Allocate Scenario.ae1 Scenario.r1]
      (loadTopology [zoneBlank] [Scenario.v1]).

(** A zone with a single slot. *)
Definition zoneOne : Zone :=
  mkZone "zone-a" "zone-a"
         [mkArea "area-a1" "area-a1" "zone-a"
                 [mkSlot "slot-a1-1" "zone-a" "area-a1" true]] [].

(** Two requests for it; the first holds the slot and is parked, the second
    waits. *)
Definition oneParkedOneWaiting : ParkingSystem :=
  run [CreateRequest Scenario.ce1 "v1" "zone-a";
       CreateRequest Scenario.ce2 "v1" "zone-a";
       Allocate Scenario.ae1 Scenario.r1; Occupy 1500 Scenario.r1]
      (loadTopology [zoneOne] [Scenario.v1]).

End Scenario2.

(** The fields of a request that say who asked for what, and when. *)
Definition sameIdentity (q q' : ParkingRequest) : Prop :=
  req_id q' = req_id q /\ vehicleId q' = vehicleId q
  /\ requestedZoneId q' = requestedZoneId q /\ requestTime q' = requestTime q.

(** ** Well-formed log records *)

(** A record that saved a free slot of the topology and a REQUESTED request
    of the registry. *)
Definition recordOk (S : ParkingSystem) (o : AllocationOperation) : Prop :=
  previousSlotState o = true
  /\ previousRequestState o = REQUESTED
  /\ op_slotId o ∈ slotIds (zones S)
  /\ is_Some (requests S !! op_requestId o).

Definition keysOk (S : ParkingSystem) : Prop :=
  forall k q, requests S !! k = Some q -> req_id q = k.

Definition LogOk (S : ParkingSystem) : Prop :=
  keysOk S /\ Forall (recordOk S) (operationHistory S).

(** ** Export *)

Definition exportState (S : ParkingSystem) : ParkingSystemState :=
  mkPersisted (getAllZones S) (getAllVehicles S) (getAllRequests S)
              (getOperationHistory S).

(** ** Analytics: the request counters of [getAnalytics] *)

Definition inState (st : RequestState) (q : ParkingRequest) : bool :=
  bool_decide (state q = st).

Definition totalRequests (S : ParkingSystem) : Z :=
  Z.of_nat (length (getAllRequests S)).

Definition completedRequests (S : ParkingSystem) : Z :=
  Z.of_nat (length (List.filter (inState RELEASED) (getAllRequests S))).

Definition cancelledRequests (S : ParkingSystem) : Z :=
  Z.of_nat (length (List.filter (inState CANCELLED) (getAllRequests S))).

Definition crossZoneAllocations (S : ParkingSystem) : Z :=
  Z.of_nat (length (List.filter isCrossZone (getAllRequests S))).

(** ** The statistics cards

    They are computed from the arrays of zones and requests that the
    provider's [refresh] copies out of the system. *)

Definition statsTotalSlots (zs : list Zone) : Z :=
  fold_left
    (fun sum z =>
       sum + fold_left (fun aSum a => aSum + Z.of_nat (length (slots a)))
                       (areas z) 0)
    zs 0.

Definition statsAvailableSlots (zs : list Zone) : Z :=
  fold_left
    (fun sum z =>
       sum + fold_left
               (fun aSum a =>
                  aSum + Z.of_nat (length (List.filter isAvailable (slots a))))
               (areas z) 0)
    zs 0.

Definition isActive (q : ParkingRequest) : bool :=
  inState ALLOCATED q || inState OCCUPIED q.

Definition statsActiveRequests (rs : list ParkingRequest) : Z :=
  Z.of_nat (length (List.filter isActive rs)).

(** ** The rollback panel

    The panel lists the log newest first and flags the entries whose index
    is below the slider's value; the slider ranges over 1 .. log size. *)

Fixpoint flagFrom (idx : nat) (rollbackCount : Z)
    (l : list AllocationOperation) : list (AllocationOperation * bool) :=
  match l with
  | [] => []
  | o :: rest =>
      (o, bool_decide (Z.of_nat idx < rollbackCount))
        :: flagFrom (Datatypes.S idx) rollbackCount rest
  end.

(** [[...operationHistory].reverse().map((op, idx) => idx < rollbackCount)] *)
Definition willUndo (h : list AllocationOperation) (rollbackCount : Z)
  : list (AllocationOperation * bool) :=
  flagFrom 0 rollbackCount (rev h).

(** ** OperationLinkedList, with its pointers

    The engine above keeps the operation log as the sequence [toArray]
    returns.  Here is the class as it is written: nodes in a heap, linked both
    ways, with [head], [tail] and [size] fields ([ll_] and [node_] prefix the
    field names).  A reference is a heap address; [new OperationNode] takes
    an address that is not in use.  A node that [pop] unlinks stays in the
    heap, unreachable from the list. *)

Module LinkedList.

Record OperationNode : Type := mkNode {
  node_data : AllocationOperation;
  node_next : option nat;
  node_prev : option nat }.

Record OperationLinkedList : Type := mkList {
  ll_nodes : gmap nat OperationNode;
  ll_head : option nat;
  ll_tail : option nat;
  ll_size : Z }.

Definition setNext (nx : option nat) (n : OperationNode) : OperationNode :=
  mkNode (node_data n) nx (node_prev n).

(** [new OperationLinkedList()] *)
Definition empty : OperationLinkedList := mkList ∅ None None 0.

Definition push (operation : AllocationOperation) (L : OperationLinkedList)
  : OperationLinkedList :=
  let a := fresh (dom (ll_nodes L)) in
  match ll_tail L with
  | None =>
      mkList (<[a := mkNode operation None None]> (ll_nodes L))
             (Some a) (Some a) (ll_size L + 1)
  | Some t =>
      mkList (alter (setNext (Some a)) t
                    (<[a := mkNode operation None (Some t)]> (ll_nodes L)))
             (ll_head L) (Some a) (ll_size L + 1)
  end.

(** [pop]: the record returned ([None] for [null]) and the list afterwards.
    A tail reference always points at a node; the branch for a missing node
    is there only to make the function total. *)
Definition pop (L : OperationLinkedList)
  : option AllocationOperation * OperationLinkedList :=
  match ll_tail L with
  | None => (None, L)
  | Some t =>
      match ll_nodes L !! t with
      | None => (None, L)
      | Some n =>
          (Some (node_data n),
           match node_prev n with
           | Some p =>
               mkList (alter (setNext None) p (ll_nodes L))
                      (ll_head L) (Some p) (ll_size L - 1)
           | None => mkList (ll_nodes L) None None (ll_size L - 1)
           end)
      end
  end.

(** The [while (current)] loop of [toArray].  It follows [next] pointers and
    would not terminate on a cyclic chain; [fuel] bounds the number of nodes
    visited and [None] stands for running out of it. *)
Fixpoint toArray_loop (fuel : nat) (nodes : gmap nat OperationNode)
    (current : option nat) (result : list AllocationOperation)
  : option (list AllocationOperation) :=
  match current with
  | None => Some result
  | Some c =>
      match fuel with
      | O => None
      | Datatypes.S fuel' =>
          match nodes !! c with
          | None => None
          | Some n =>
              toArray_loop fuel' nodes (node_next n) (result ++ [node_data n])
          end
      end
  end.

(** A walk from [head] visits each node at most once unless the chain is
    cyclic, so the number of nodes in the heap is fuel enough. *)
Definition toArray (L : OperationLinkedList)
  : option (list AllocationOperation) :=
  toArray_loop (size (ll_nodes L)) (ll_nodes L) (ll_head L) [].

(** [chain nodes prev cur locs ops]: starting at [cur], with [prev] the node
    before, the heap holds the nodes at addresses [locs], carrying [ops] in
    order, each linked to its neighbours, the last with no successor. *)
Fixpoint chain (nodes : gmap nat OperationNode) (prev cur : option nat)
    (locs : list nat) (ops : list AllocationOperation) : Prop :=
  match locs, ops with
  | [], [] => cur = None
  | a :: locs', o :: ops' =>
      cur = Some a
      /\ exists nx, nodes !! a = Some (mkNode o nx prev)
                    /\ chain nodes (Some a) nx locs' ops'
  | _, _ => False
  end.

(** The list [L] represents the sequence [ops]. *)
Definition repr (L : OperationLinkedList) (ops : list AllocationOperation)
  : Prop :=
  exists locs,
    NoDup locs
    /\ chain (ll_nodes L) None (ll_head L) locs ops
    /\ ll_tail L = last locs
    /\ ll_size L = Z.of_nat (length ops).

(** One use of the list, and a run of uses from the empty list; beside it the
    same run on the sequence. *)
Inductive ListOp : Type :=
  | Push (operation : AllocationOperation)
  | Pop.

Definition stepList (L : OperationLinkedList) (c : ListOp)
  : OperationLinkedList :=
  match c with
  | Push o => push o L
  | Pop => (pop L).2
  end.

Definition stepSeq (h : list AllocationOperation) (c : ListOp)
  : list AllocationOperation :=
  match c with
  | Push o => history_push o h
  | Pop => match history_pop h with
           | Some (_, h') => h'
           | None => h
           end
  end.

Definition runList (cs : list ListOp) : OperationLinkedList :=
  foldl stepList empty cs.

Definition runSeq (cs : list ListOp) : list AllocationOperation :=
  foldl stepSeq [] cs.

Definition op1 : AllocationOperation :=
  mkOperation "OP-1" "REQ-1" "A1-S1" true REQUESTED 1.

Definition op2 : AllocationOperation :=
  mkOperation "OP-2" "REQ-2" "A1-S2" true REQUESTED 2.

End LinkedList.
(** * Properties *)

Example scenario_same_zone :
  let '(r, T) := allocateSlot Scenario.ae1 Scenario.r1 Scenario.sameZone in
  success r = true
  /\ (allocatedSlotId <$> request r) = Some (Some "slot-a1-1")
  /\ (allocatedZoneId <$> request r) = Some (Some "zone-a")
  /\ (isAvailable ∘ info_slot <$> findSlot "slot-a1-1" T) = Some false.
Proof. vm_compute. done. Qed.

Example scenario_cross_zone :
  let '(r, T) := allocateSlot Scenario.ae1 Scenario.r1 Scenario.crossZone in
  success r = true
  /\ (allocatedZoneId <$> request r) = Some (Some "zone-b")
  /\ (isCrossZone <$> request r) = Some true
  /\ (crossZonePenalty <$> request r) = Some 10%Z.
Proof. vm_compute. done. Qed.

Example scenario_rollback :
  let S1 := snd (allocateSlot Scenario.ae1 Scenario.r1 Scenario.sameZone) in
  let '(r, S2) := rollback 1 S1 in
  rolledBack r = 1%Z /\ rb_message r = "Rolled back 1 operation(s)"
  /\ (isAvailable ∘ info_slot <$> findSlot "slot-a1-1" S2) = Some true
  /\ (state <$> requests S2 !! Scenario.r1) = Some REQUESTED
  /\ (allocatedSlotId <$> requests S2 !! Scenario.r1) = Some None
  /\ operationHistory S2 = [].
Proof. vm_compute. done. Qed.

(** ** Lemmas on the flat view of the slot tree *)

Section FlatView.

Implicit Types (s : ParkingSlot) (a : ParkingArea) (z : Zone).
Implicit Types (ss : list ParkingSlot) (l : list ParkingArea) (zs : list Zone).
Implicit Types (sid zid : string) (b : bool).

Lemma availableSlotsOf_flat z :
  availableSlotsOf z = List.filter isAvailable (slotsOf z).
Proof.
  unfold availableSlotsOf, slotsOf.
  induction (areas z) as [|a l IH]; simpl; [done|].
  by rewrite List.filter_app, IH.
Qed.

Lemma find_app_slots sid ss1 ss2 :
  List.find (slotHasId sid) (ss1 ++ ss2)
  = match List.find (slotHasId sid) ss1 with
    | Some s => Some s
    | None => List.find (slotHasId sid) ss2
    end.
Proof.
  induction ss1 as [|s ss1 IH]; simpl; [done|].
  by destruct (slotHasId sid s).
Qed.

Lemma find_slot_None sid ss :
  List.find (slotHasId sid) ss = None <-> sid ∉ map slot_id ss.
Proof.
  induction ss as [|s ss IH]; simpl.
  - split; [intros _; apply not_elem_of_nil | done].
  - unfold slotHasId at 1. rewrite not_elem_of_cons.
    case_bool_decide; split; try done; try tauto.
    + intros [? _]. congruence.
    + intros ?. split; [congruence | tauto].
Qed.

Lemma find_slot_Some sid ss s :
  List.find (slotHasId sid) ss = Some s -> s ∈ ss /\ slot_id s = sid.
Proof.
  intros H. apply List.find_some in H as [Hin Hid].
  split; [by apply list_elem_of_In|].
  unfold slotHasId in Hid. by apply bool_decide_eq_true in Hid.
Qed.

Lemma find_slot_NoDup ss s :
  NoDup (map slot_id ss) -> s ∈ ss ->
  List.find (slotHasId (slot_id s)) ss = Some s.
Proof.
  induction ss as [|s0 ss IH]; simpl; intros Hnd Hin.
  - by apply elem_of_nil in Hin.
  - apply NoDup_cons in Hnd as [Hnotin Hnd].
    unfold slotHasId at 1. case_bool_decide as Heq.
    + apply elem_of_cons in Hin as [->|Hin]; [done|].
      exfalso. apply Hnotin. rewrite Heq. by apply list_elem_of_fmap_2.
    + apply elem_of_cons in Hin as [->|Hin]; [done|]. by apply IH.
Qed.

Lemma findSlot_areas_flat sid z l :
  info_slot <$> findSlot_areas sid z l
  = List.find (slotHasId sid) (flat_map slots l).
Proof.
  induction l as [|a l IH]; simpl; [done|].
  rewrite find_app_slots.
  by destruct (List.find (slotHasId sid) (slots a)).
Qed.

Lemma findSlot_zones_flat sid zs :
  info_slot <$> findSlot_zones sid zs = List.find (slotHasId sid) (allSlots zs).
Proof.
  induction zs as [|z zs IH]; simpl; [done|].
  rewrite find_app_slots. unfold slotsOf at 1.
  rewrite <- findSlot_areas_flat with (z := z).
  by destruct (findSlot_areas sid z (areas z)).
Qed.

(** *** Writes through [findSlot] *)

Lemma assign_slots_absent sid b ss :
  List.find (slotHasId sid) ss = None -> assign_slots sid b ss = ss.
Proof.
  induction ss as [|s ss IH]; simpl; [done|].
  destruct (slotHasId sid s); [done|]. intros H. by rewrite IH.
Qed.

Lemma assign_slots_app sid b ss1 ss2 :
  assign_slots sid b (ss1 ++ ss2)
  = match List.find (slotHasId sid) ss1 with
    | Some _ => assign_slots sid b ss1 ++ ss2
    | None => ss1 ++ assign_slots sid b ss2
    end.
Proof.
  induction ss1 as [|s ss1 IH]; simpl; [done|].
  destruct (slotHasId sid s); [done|].
  rewrite IH. by destruct (List.find (slotHasId sid) ss1).
Qed.

Lemma assign_areas_flat sid b l :
  flat_map slots (assign_areas sid b l) = assign_slots sid b (flat_map slots l).
Proof.
  induction l as [|a l IH]; simpl; [done|].
  rewrite assign_slots_app.
  destruct (List.find (slotHasId sid) (slots a)); simpl; [done|].
  by rewrite IH.
Qed.

Lemma assign_zones_flat sid b zs :
  allSlots (assign_zones sid b zs) = assign_slots sid b (allSlots zs).
Proof.
  induction zs as [|z zs IH]; simpl; [done|].
  rewrite assign_slots_app.
  pose proof (findSlot_areas_flat sid z (areas z)) as Hf.
  fold (slotsOf z) in Hf. rewrite <- Hf.
  destruct (findSlot_areas sid z (areas z)); simpl.
  - unfold slotsOf at 1. simpl. by rewrite assign_areas_flat.
  - by rewrite <- IH.
Qed.

(** A write through a slot id changes the first slot with that id, and only
    its availability. *)
Lemma assign_slots_split sid b ss :
  sid ∈ map slot_id ss ->
  exists pre s post,
    ss = pre ++ s :: post
    /\ slot_id s = sid
    /\ (sid ∉ map slot_id pre)
    /\ assign_slots sid b ss
       = pre ++ mkSlot (slot_id s) (slot_zoneId s) (slot_areaId s) b :: post.
Proof.
  induction ss as [|x ss IH]; simpl; intros Hin.
  - by apply elem_of_nil in Hin.
  - unfold slotHasId at 1. case_bool_decide as Hx.
    + exists [], x, ss. repeat split; try done. apply not_elem_of_nil.
    + apply elem_of_cons in Hin as [Hin|Hin]; [congruence|].
      destruct (IH Hin) as (pre & s & post & -> & Hs & Hpre & Has).
      exists (x :: pre), s, post. repeat split; try done.
      * simpl. apply not_elem_of_cons. split; [congruence|done].
      * simpl. by rewrite Has.
Qed.

Lemma assign_slots_ids sid b ss :
  map slot_id (assign_slots sid b ss) = map slot_id ss.
Proof.
  induction ss as [|s ss IH]; simpl; [done|].
  destruct (slotHasId sid s); simpl; [done|]. by rewrite IH.
Qed.

Lemma assign_zones_ids sid b zs :
  slotIds (assign_zones sid b zs) = slotIds zs.
Proof. unfold slotIds. by rewrite assign_zones_flat, assign_slots_ids. Qed.

Lemma find_assign_slots sid' sid b ss :
  List.find (slotHasId sid') (assign_slots sid b ss)
  = if decide (sid' = sid)
    then setAvailable b <$> List.find (slotHasId sid) ss
    else List.find (slotHasId sid') ss.
Proof.
  induction ss as [|s ss IH]; simpl; [by case_decide|].
  unfold slotHasId at 2. case_bool_decide as Hs; simpl.
  - unfold slotHasId at 1. simpl. case_decide as Hd.
    + subst sid'. rewrite bool_decide_eq_true_2 by done.
      unfold slotHasId. by rewrite bool_decide_eq_true_2.
    + rewrite bool_decide_eq_false_2 by congruence.
      unfold slotHasId at 2. by rewrite bool_decide_eq_false_2 by congruence.
  - rewrite IH. case_decide as Hd.
    + subst sid'. unfold slotHasId at 1 3.
      by rewrite !bool_decide_eq_false_2 by done.
    + done.
Qed.

End FlatView.

Section Writes.

Implicit Types (s : ParkingSlot) (a : ParkingArea) (z : Zone).
Implicit Types (ss : list ParkingSlot) (l : list ParkingArea) (zs : list Zone).
Implicit Types (sid zid : string) (b : bool).

Lemma findSlot_areas_None sid z l :
  findSlot_areas sid z l = None
  <-> List.find (slotHasId sid) (flat_map slots l) = None.
Proof.
  rewrite <- (findSlot_areas_flat sid z l).
  by destruct (findSlot_areas sid z l).
Qed.

Lemma setAvailable_same s : setAvailable (isAvailable s) s = s.
Proof. by destruct s. Qed.

Lemma withSlots_same a : withSlots (slots a) a = a.
Proof. by destruct a. Qed.

Lemma withAreas_same z : withAreas (areas z) z = z.
Proof. by destruct z. Qed.

(** Writing the value a slot already has changes nothing. *)
Lemma assign_slots_same sid b ss :
  (forall s, List.find (slotHasId sid) ss = Some s -> isAvailable s = b) ->
  assign_slots sid b ss = ss.
Proof.
  induction ss as [|s ss IH]; simpl; [done|].
  destruct (slotHasId sid s); intros H.
  - rewrite <- (H s eq_refl). by rewrite setAvailable_same.
  - by rewrite IH.
Qed.

Lemma assign_areas_same sid b l :
  (forall s, List.find (slotHasId sid) (flat_map slots l) = Some s ->
             isAvailable s = b) ->
  assign_areas sid b l = l.
Proof.
  induction l as [|a l IH]; simpl; [done|].
  rewrite find_app_slots.
  destruct (List.find (slotHasId sid) (slots a)) eqn:E; intros H.
  - rewrite assign_slots_same, withSlots_same; [done|].
    intros s' Hs'. apply H. congruence.
  - by rewrite IH.
Qed.

Lemma assign_zones_same sid b zs :
  (forall s, List.find (slotHasId sid) (allSlots zs) = Some s ->
             isAvailable s = b) ->
  assign_zones sid b zs = zs.
Proof.
  induction zs as [|z zs IH]; simpl; [done|].
  rewrite find_app_slots. intros H.
  destruct (findSlot_areas sid z (areas z)) eqn:E.
  - rewrite assign_areas_same, withAreas_same; [done|].
    intros s' Hs. apply H. fold (slotsOf z) in Hs. by rewrite Hs.
  - apply findSlot_areas_None in E. fold (slotsOf z) in E.
    rewrite E in H. by rewrite IH.
Qed.

(** The last write wins. *)
Lemma assign_slots_twice sid b b' ss :
  assign_slots sid b (assign_slots sid b' ss) = assign_slots sid b ss.
Proof.
  induction ss as [|s ss IH]; simpl; [done|].
  destruct (slotHasId sid s) eqn:E; simpl.
  - unfold slotHasId in *. simpl. by rewrite E.
  - by rewrite E, IH.
Qed.

Lemma assign_areas_twice sid b b' l :
  assign_areas sid b (assign_areas sid b' l) = assign_areas sid b l.
Proof.
  induction l as [|a l IH]; simpl; [done|].
  destruct (List.find (slotHasId sid) (slots a)) eqn:E; simpl.
  - rewrite find_assign_slots, decide_True, E by done. simpl.
    by rewrite assign_slots_twice.
  - by rewrite E, IH.
Qed.

Lemma assign_zones_twice sid b b' zs :
  assign_zones sid b (assign_zones sid b' zs) = assign_zones sid b zs.
Proof.
  induction zs as [|z zs IH]; simpl; [done|].
  destruct (findSlot_areas sid z (areas z)) eqn:E; simpl.
  - destruct (findSlot_areas sid _ (assign_areas sid b' (areas z))) eqn:E'.
    + unfold withAreas; simpl. by rewrite assign_areas_twice.
    + apply findSlot_areas_None in E'.
      rewrite assign_areas_flat, find_assign_slots, decide_True in E' by done.
      pose proof (findSlot_areas_flat sid z (areas z)) as Hf.
      rewrite E in Hf. simpl in Hf. by rewrite <- Hf in E'.
  - by rewrite E, IH.
Qed.

(** *** The write through the selected slot *)

Lemma filter_head_elem ss s rest :
  List.filter isAvailable ss = s :: rest -> s ∈ ss /\ isAvailable s = true.
Proof.
  intros H. assert (In s (List.filter isAvailable ss)) as Hin
    by (rewrite H; by left).
  apply List.filter_In in Hin as [Hin ?]. split; [|done].
  by apply list_elem_of_In.
Qed.

Lemma filter_first pre s post :
  Forall (fun x => isAvailable x = false) pre -> isAvailable s = true ->
  List.filter isAvailable (pre ++ s :: post)
  = s :: List.filter isAvailable post.
Proof.
  intros Hpre Hs. induction Hpre as [|x pre Hx _ IH]; simpl.
  - by rewrite Hs.
  - by rewrite Hx.
Qed.

Lemma filter_taken pre s post :
  Forall (fun x => isAvailable x = false) pre ->
  List.filter isAvailable (pre ++ setAvailable false s :: post)
  = List.filter isAvailable post.
Proof.
  intros Hpre. induction Hpre as [|x pre Hx _ IH]; simpl; [done|].
  by rewrite Hx.
Qed.

Lemma claim_slots_first pre s post :
  Forall (fun x => isAvailable x = false) pre -> isAvailable s = true ->
  claim_slots (pre ++ s :: post) = pre ++ setAvailable false s :: post.
Proof.
  intros Hpre Hs. induction Hpre as [|x pre Hx _ IH]; simpl.
  - by rewrite Hs.
  - by rewrite Hx, IH.
Qed.

Lemma claim_slots_app ss1 ss2 :
  claim_slots (ss1 ++ ss2)
  = match List.filter isAvailable ss1 with
    | _ :: _ => claim_slots ss1 ++ ss2
    | [] => ss1 ++ claim_slots ss2
    end.
Proof.
  induction ss1 as [|s ss1 IH]; simpl; [done|].
  destruct (isAvailable s); [done|].
  rewrite IH. by destruct (List.filter isAvailable ss1).
Qed.

Lemma claim_areas_flat l :
  flat_map slots (claim_areas l) = claim_slots (flat_map slots l).
Proof.
  induction l as [|a l IH]; simpl; [done|].
  rewrite claim_slots_app.
  destruct (List.filter isAvailable (slots a)); simpl; [|done].
  by rewrite IH.
Qed.

Lemma find_claim_zones zid' zid zs :
  List.find (zoneHasId zid') (claim_zones zid zs)
  = if decide (zid' = zid)
    then (fun z => withAreas (claim_areas (areas z)) z)
           <$> List.find (zoneHasId zid) zs
    else List.find (zoneHasId zid') zs.
Proof.
  induction zs as [|z zs IH]; simpl; [by case_decide|].
  unfold zoneHasId at 2. case_bool_decide as Hz; simpl.
  - unfold zoneHasId at 1. simpl. case_decide as Hd.
    + subst zid'. rewrite bool_decide_eq_true_2 by done.
      unfold zoneHasId. by rewrite bool_decide_eq_true_2.
    + rewrite bool_decide_eq_false_2 by congruence.
      unfold zoneHasId at 2. by rewrite bool_decide_eq_false_2 by congruence.
  - rewrite IH. case_decide as Hd.
    + subst zid'. unfold zoneHasId at 1 3.
      by rewrite !bool_decide_eq_false_2 by done.
    + done.
Qed.

(** With slot ids unique, the selected slot is the one [findSlot] returns
    for its id, so both writes land on the same object. *)
Lemma claim_slots_assign ss s rest :
  NoDup (map slot_id ss) ->
  List.filter isAvailable ss = s :: rest ->
  claim_slots ss = assign_slots (slot_id s) false ss.
Proof.
  induction ss as [|s0 ss IH]; simpl; [done|].
  intros Hnd Hf. apply NoDup_cons in Hnd as [Hnotin Hnd].
  destruct (isAvailable s0) eqn:E.
  - injection Hf as -> _. unfold slotHasId. by rewrite bool_decide_eq_true_2.
  - unfold slotHasId. rewrite bool_decide_eq_false_2.
    + by rewrite (IH Hnd Hf).
    + intros Heq. apply Hnotin. rewrite Heq.
      apply list_elem_of_fmap_2. by apply (filter_head_elem _ _ rest).
Qed.

Lemma claim_areas_assign l s rest :
  NoDup (map slot_id (flat_map slots l)) ->
  flat_map (fun a => List.filter isAvailable (slots a)) l = s :: rest ->
  claim_areas l = assign_areas (slot_id s) false l.
Proof.
  induction l as [|a l IH]; simpl; [done|].
  rewrite map_app. intros Hnd Hf.
  apply NoDup_app in Hnd as (Hnd1 & Hdisj & Hnd2).
  destruct (List.filter isAvailable (slots a)) as [|s0 r0] eqn:E.
  - simpl in Hf.
    assert (s ∈ flat_map slots l) as Hin.
    { assert (In s (flat_map (fun a => List.filter isAvailable (slots a)) l))
        as Hi by (rewrite Hf; by left).
      apply in_flat_map in Hi as (a' & Ha' & Hi).
      apply List.filter_In in Hi as [Hi _].
      apply list_elem_of_In, in_flat_map. eauto. }
    assert (List.find (slotHasId (slot_id s)) (slots a) = None) as ->.
    { apply find_slot_None. intros Hc. apply (Hdisj _ Hc).
      by apply list_elem_of_fmap_2. }
    by rewrite (IH Hnd2 Hf).
  - simpl in Hf. injection Hf as -> _.
    destruct (filter_head_elem _ _ _ E) as [Hin _].
    rewrite (find_slot_NoDup _ _ Hnd1 Hin).
    by rewrite (claim_slots_assign _ _ _ Hnd1 E).
Qed.

Lemma claim_zones_assign zid zs z s rest :
  NoDup (slotIds zs) ->
  List.find (zoneHasId zid) zs = Some z ->
  availableSlotsOf z = s :: rest ->
  claim_zones zid zs = assign_zones (slot_id s) false zs.
Proof.
  unfold slotIds.
  induction zs as [|z0 zs IH]; simpl; [done|].
  rewrite map_app. intros Hnd Hz Hs.
  apply NoDup_app in Hnd as (Hnd1 & Hdisj & Hnd2).
  destruct (zoneHasId zid z0) eqn:E.
  - injection Hz as ->.
    pose proof Hs as Hs'. rewrite availableSlotsOf_flat in Hs'.
    destruct (filter_head_elem _ _ _ Hs') as [Hin _].
    pose proof (findSlot_areas_flat (slot_id s) z (areas z)) as Hf.
    fold (slotsOf z) in Hf. rewrite (find_slot_NoDup _ _ Hnd1 Hin) in Hf.
    destruct (findSlot_areas (slot_id s) z (areas z)); [|done].
    by rewrite (claim_areas_assign _ _ _ Hnd1 Hs).
  - assert (s ∈ allSlots zs) as Hin.
    { apply List.find_some in Hz as [Hz _].
      rewrite availableSlotsOf_flat in Hs.
      destruct (filter_head_elem _ _ _ Hs) as [Hin _].
      apply list_elem_of_In, in_flat_map. exists z.
      split; [done | by apply list_elem_of_In]. }
    assert (findSlot_areas (slot_id s) z0 (areas z0) = None) as ->.
    { apply findSlot_areas_None, find_slot_None. intros Hc.
      apply (Hdisj _ Hc). by apply list_elem_of_fmap_2. }
    by rewrite (IH Hnd2 Hz Hs).
Qed.

End Writes.

(** ** Slot selection *)

Section Selection.

Implicit Types (S : ParkingSystem) (q : ParkingRequest) (s : ParkingSlot).

Lemma canTransition_to_ALLOCATED st :
  canTransition st ALLOCATED = true <-> st = REQUESTED.
Proof. destruct st; vm_compute; split; congruence. Qed.

Lemma firstAdjacent_sound S adj a l :
  firstAdjacentWithSlots S adj = Some (a, l) ->
  getAvailableSlotsInZone a S = l /\ l <> [].
Proof.
  induction adj as [|x adj IH]; simpl; [done|].
  destruct (getAvailableSlotsInZone x S) as [|s l'] eqn:E; [done|].
  intros [= <- <-]. by rewrite E.
Qed.

Lemma firstAdjacent_first S before a after s l :
  (forall x, x ∈ before -> getAvailableSlotsInZone x S = []) ->
  getAvailableSlotsInZone a S = s :: l ->
  firstAdjacentWithSlots S (before ++ a :: after) = Some (a, s :: l).
Proof.
  intros Hb Ha. induction before as [|x before IH]; simpl.
  - by rewrite Ha.
  - rewrite (Hb x) by (apply elem_of_cons; by left).
    apply IH. intros y Hy. apply Hb. apply elem_of_cons; by right.
Qed.

Lemma firstAdjacent_none S adj :
  (forall x, x ∈ adj -> getAvailableSlotsInZone x S = []) ->
  firstAdjacentWithSlots S adj = None.
Proof.
  induction adj as [|x adj IH]; simpl; [done|]. intros H.
  rewrite (H x) by (apply elem_of_cons; by left).
  apply IH. intros y Hy. apply H. apply elem_of_cons; by right.
Qed.

Lemma selectSlots_sound zid S zsel s l c :
  selectSlots zid S = (zsel, s :: l, c) ->
  getAvailableSlotsInZone zsel S = s :: l.
Proof.
  unfold selectSlots.
  destruct (getAvailableSlotsInZone zid S) as [|s0 l0] eqn:E.
  - destruct (getZone zid S) as [z|]; [|done].
    destruct (firstAdjacentWithSlots S (adjacentZones z)) as [[a l']|] eqn:F;
      [|done].
    intros [= <- -> <-]. by apply firstAdjacent_sound in F as [? _].
  - by intros [= <- <- <- <-].
Qed.

Lemma getZone_id zid S z : getZone zid S = Some z -> zone_id z = zid.
Proof.
  intros H. apply List.find_some in H as [_ H].
  unfold zoneHasId in H. by apply bool_decide_eq_true in H.
Qed.

End Selection.

(** ** Same-zone allocation *)

(** C1. A request in state REQUESTED whose requested zone has an available
    slot is allocated the first available slot of that zone in declared
    order (areas in zone order, slots in area order): the operation succeeds,
    the request records that slot's id, the requested zone, state ALLOCATED,
    no cross-zone flag and a penalty of 0, and the chosen slot becomes
    unavailable: the zone's slots are as before except that the chosen one
    now has [isAvailable = false], and the zone's available slots are those
    that came after it.  The allocated zone id is read off the chosen slot's zone
    back-reference, which is the requested zone as soon as that
    back-reference names the zone that owns the slot, as the data model has
    it. *)
Theorem C1_same_zone_first_available
    (e : AllocEnv) (rid : string) (S : ParkingSystem) (q : ParkingRequest)
    (z : Zone) (pre post : list ParkingSlot) (s : ParkingSlot) :
  requests S !! rid = Some q ->
  state q = REQUESTED ->
  getZone (requestedZoneId q) S = Some z ->
  slotsOf z = pre ++ s :: post ->
  Forall (fun x => isAvailable x = false) pre ->
  isAvailable s = true ->
  exists r S' q' z',
    allocateSlot e rid S = (r, S')
    /\ success r = true
    /\ request r = Some q'
    /\ requests S' !! rid = Some q'
    /\ allocatedSlotId q' = Some (slot_id s)
    /\ allocatedZoneId q' = Some (slot_zoneId s)
    /\ (slot_zoneId s = zone_id z ->
        allocatedZoneId q' = Some (requestedZoneId q))
    /\ state q' = ALLOCATED
    /\ isCrossZone q' = false
    /\ crossZonePenalty q' = 0
    /\ getZone (requestedZoneId q) S' = Some z'
    /\ slotsOf z'
       = pre ++ mkSlot (slot_id s) (slot_zoneId s) (slot_areaId s) false
             :: post
    /\ getAvailableSlotsInZone (requestedZoneId q) S'
       = List.filter isAvailable post.
Proof.
  intros Hq Hst Hz Hsl Hpre Hs.
  assert (getAvailableSlotsInZone (requestedZoneId q) S
          = s :: List.filter isAvailable post) as Hav.
  { unfold getAvailableSlotsInZone. rewrite Hz, availableSlotsOf_flat, Hsl.
    by apply filter_first. }
  unfold allocateSlot. rewrite Hq, Hst. simpl.
  unfold selectSlots. rewrite Hav.
  eexists _, _, _, _. split; [reflexivity|]. simpl.
  rewrite lookup_insert_eq.
  repeat (split; [try done|]).
  - simpl. intros ->. f_equal. by apply getZone_id in Hz.
  - unfold getZone in *. simpl. rewrite find_claim_zones, decide_True by done.
    rewrite Hz. reflexivity.
  - unfold slotsOf in *. simpl. rewrite claim_areas_flat, Hsl.
    by rewrite claim_slots_first.
  - unfold getAvailableSlotsInZone, getZone in *. simpl.
    rewrite find_claim_zones, decide_True, Hz by done. simpl.
    rewrite availableSlotsOf_flat. unfold slotsOf in *. simpl.
    rewrite claim_areas_flat, Hsl, claim_slots_first by done.
    by apply filter_taken.
Qed.

Lemma C1_same_zone_first_available_witness :
  exists r S' q' z',
    allocateSlot Scenario.ae1 Scenario.r1 Scenario.sameZone = (r, S')
    /\ success r = true
    /\ request r = Some q'
    /\ requests S' !! Scenario.r1 = Some q'
    /\ allocatedSlotId q' = Some "slot-a1-1"
    /\ allocatedZoneId q' = Some "zone-a"
    /\ ("zone-a" = "zone-a" -> allocatedZoneId q' = Some "zone-a")
    /\ state q' = ALLOCATED
    /\ isCrossZone q' = false
    /\ crossZonePenalty q' = 0
    /\ getZone "zone-a" S' = Some z'
    /\ slotsOf z'
       = [] ++ mkSlot "slot-a1-1" "zone-a" "area-a1" false
            :: [Scenario.slot "slot-a1-2" "zone-a" "area-a1" true]
    /\ getAvailableSlotsInZone "zone-a" S'
       = [Scenario.slot "slot-a1-2" "zone-a" "area-a1" true].
Proof.
  apply (C1_same_zone_first_available Scenario.ae1 Scenario.r1
           Scenario.sameZone
           (mkRequest Scenario.r1 "v1" "zone-a" None None REQUESTED 1000
                      None None None false 0)
           Scenario.zoneA []
           [Scenario.slot "slot-a1-2" "zone-a" "area-a1" true]
           (Scenario.slot "slot-a1-1" "zone-a" "area-a1" true)).
  - vm_compute. reflexivity.
  - reflexivity.
  - vm_compute. reflexivity.
  - reflexivity.
  - constructor.
  - reflexivity.
Defined.

(** ** The cross-zone penalty *)

Section Penalty.

Implicit Types (S : ParkingSystem).

Lemma penalty_new init : penalty (newParkingSystem init) = 10.
Proof. by destruct init. Qed.

Lemma penalty_undo o S : penalty (undo o S) = penalty S.
Proof. unfold undo. simpl. by destruct (requests S !! op_requestId o). Qed.

Lemma penalty_rollback_loop fuel i k n S :
  penalty (snd (rollback_loop fuel i k n S)) = penalty S.
Proof.
  revert i n S. induction fuel as [|fuel IH]; intros i n S; simpl; [done|].
  destruct (bool_decide (i < k) && _); [|done].
  destruct (history_pop (operationHistory S)) as [[o h]|]; [|done].
  by rewrite IH, penalty_undo.
Qed.

Lemma penalty_step o S : penalty (step o S) = penalty S.
Proof.
  destruct o as [e vid zid|e rid|now rid|now rid|rid|k]; simpl.
  - done.
  - unfold allocateSlot. destruct (requests S !! rid) as [q|]; [|done].
    destruct (negb _); [done|].
    by destruct (selectSlots _ S) as [[zsel [|s l]] c].
  - unfold occupySlot. destruct (requests S !! rid) as [q|]; [|done].
    by destruct (negb _).
  - unfold releaseSlot. destruct (requests S !! rid) as [q|]; [|done].
    destruct (negb _); [done|]. simpl. unfold freeAllocatedSlot.
    destruct (allocatedSlotId q) as [sid|]; [|done]. by case_bool_decide.
  - unfold cancelRequest. destruct (requests S !! rid) as [q|]; [|done].
    destruct (negb _); [done|]. simpl. unfold freeAllocatedSlot.
    destruct (allocatedSlotId q) as [sid|]; [|done]. by case_bool_decide.
  - unfold rollback.
    pose proof (penalty_rollback_loop (length (operationHistory S)) 0 k 0 S).
    by destruct (rollback_loop _ 0 k 0 S).
Qed.

Lemma penalty_run ops S : penalty (run ops S) = penalty S.
Proof.
  revert S. induction ops as [|o ops IH]; intros S; simpl; [done|].
  unfold run in IH. by rewrite IH, penalty_step.
Qed.

End Penalty.

(** ** Cross-zone fallback *)

(** C2, as the code has it.  A request in state REQUESTED whose requested
    zone has no available slot is served from the first zone of the requested
    zone's stored adjacency list that has an available slot, with that zone's
    first available slot in declared order; the request is flagged cross-zone
    and charged the system's penalty.  That penalty is 10 in every system the
    constructor builds, whatever state it is given, and no façade operation
    changes it: it cannot be configured. *)
Theorem C2_cross_zone_fallback
    (e : AllocEnv) (rid : string) (S : ParkingSystem) (q : ParkingRequest)
    (z za : Zone) (before after : list string) (a : string)
    (pre post : list ParkingSlot) (s : ParkingSlot) :
  requests S !! rid = Some q ->
  state q = REQUESTED ->
  getZone (requestedZoneId q) S = Some z ->
  availableSlotsOf z = [] ->
  adjacentZones z = before ++ a :: after ->
  (forall x, x ∈ before -> getAvailableSlotsInZone x S = []) ->
  getZone a S = Some za ->
  slotsOf za = pre ++ s :: post ->
  Forall (fun x => isAvailable x = false) pre ->
  isAvailable s = true ->
  (exists r S' q' za',
    allocateSlot e rid S = (r, S')
    /\ success r = true
    /\ requests S' !! rid = Some q'
    /\ allocatedSlotId q' = Some (slot_id s)
    /\ state q' = ALLOCATED
    /\ isCrossZone q' = true
    /\ crossZonePenalty q' = penalty S
    /\ getZone a S' = Some za'
    /\ slotsOf za' = pre ++ setAvailable false s :: post)
  /\ (forall init ops, penalty (run ops (newParkingSystem init)) = 10).
Proof.
  intros Hq Hst Hz Hnone Hadj Hbefore Hza Hsl Hpre Hs.
  split; [|intros; by rewrite penalty_run, penalty_new].
  assert (getAvailableSlotsInZone a S = s :: List.filter isAvailable post)
    as Hav.
  { unfold getAvailableSlotsInZone. rewrite Hza, availableSlotsOf_flat, Hsl.
    by apply filter_first. }
  unfold allocateSlot. rewrite Hq, Hst. simpl.
  unfold selectSlots, getAvailableSlotsInZone at 1. rewrite Hz, Hnone, Hadj.
  rewrite (firstAdjacent_first _ _ _ _ _ _ Hbefore Hav).
  eexists _, _, _, _. split; [reflexivity|]. simpl.
  rewrite lookup_insert_eq.
  repeat (split; [try done|]).
  - unfold getZone in *. simpl. rewrite find_claim_zones, decide_True by done.
    rewrite Hza. reflexivity.
  - unfold slotsOf in *. simpl. rewrite claim_areas_flat, Hsl.
    by apply claim_slots_first.
Qed.

Lemma C2_cross_zone_fallback_witness :
  (exists r S' q' za',
    allocateSlot Scenario.ae1 Scenario.r1 Scenario.crossZone = (r, S')
    /\ success r = true
    /\ requests S' !! Scenario.r1 = Some q'
    /\ allocatedSlotId q' = Some "slot-b1-1"
    /\ state q' = ALLOCATED
    /\ isCrossZone q' = true
    /\ crossZonePenalty q' = penalty Scenario.crossZone
    /\ getZone "zone-b" S' = Some za'
    /\ slotsOf za'
       = [] ++ setAvailable false
                 (Scenario.slot "slot-b1-1" "zone-b" "area-b1" true) :: [])
  /\ (forall init ops, penalty (run ops (newParkingSystem init)) = 10).
Proof.
  apply (C2_cross_zone_fallback Scenario.ae1 Scenario.r1 Scenario.crossZone
           (mkRequest Scenario.r1 "v1" "zone-a" None None REQUESTED 1000
                      None None None false 0)
           Scenario.zoneA_full Scenario.zoneB [] [] "zone-b" [] []
           (Scenario.slot "slot-b1-1" "zone-b" "area-b1" true)).
  - vm_compute. reflexivity.
  - reflexivity.
  - vm_compute. reflexivity.
  - reflexivity.
  - reflexivity.
  - intros x Hx. by apply elem_of_nil in Hx.
  - vm_compute. reflexivity.
  - reflexivity.
  - constructor.
  - reflexivity.
Defined.

(** C2, as stated, fails on one point: the penalty is not configurable at
    construction time.  No argument of the constructor yields a system whose
    penalty differs from 10. *)
Lemma C2_penalty_not_configurable :
  ~ exists init : option ParkingSystemState,
      penalty (newParkingSystem init) <> 10.
Proof. intros [init H]. apply H. apply penalty_new. Qed.

(** ** Invalid transitions *)

(** C5. Every target state outside the transition table is refused: the
    operation that would enter it fails with the invalid-transition message
    naming both states and returns the system unchanged (requests, slots and
    operation log alike).  The table is REQUESTED to ALLOCATED or CANCELLED,
    ALLOCATED to OCCUPIED or CANCELLED, OCCUPIED to RELEASED, and nothing from
    RELEASED or CANCELLED.  In particular a release of an ALLOCATED request
    fails and the request stays ALLOCATED. *)
Theorem C5_invalid_transition_rejected
    (S : ParkingSystem) (rid : string) (q : ParkingRequest)
    (e : AllocEnv) (now : Z) :
  requests S !! rid = Some q ->
  (forall a b, canTransition a b = true <->
     (a = REQUESTED /\ (b = ALLOCATED \/ b = CANCELLED))
     \/ (a = ALLOCATED /\ (b = OCCUPIED \/ b = CANCELLED))
     \/ (a = OCCUPIED /\ b = RELEASED))
  /\ (canTransition (state q) ALLOCATED = false ->
      allocateSlot e rid S
      = (failure ("Invalid state transition from " +:+ stateName (state q)
                  +:+ " to ALLOCATED"), S))
  /\ (canTransition (state q) OCCUPIED = false ->
      occupySlot now rid S
      = (failure ("Invalid state transition from " +:+ stateName (state q)
                  +:+ " to OCCUPIED"), S))
  /\ (canTransition (state q) RELEASED = false ->
      releaseSlot now rid S
      = (failure ("Invalid state transition from " +:+ stateName (state q)
                  +:+ " to RELEASED"), S))
  /\ (canTransition (state q) CANCELLED = false ->
      cancelRequest rid S
      = (failure ("Invalid state transition from " +:+ stateName (state q)
                  +:+ " to CANCELLED"), S))
  /\ (state q = ALLOCATED ->
      releaseSlot now rid S
      = (failure "Invalid state transition from ALLOCATED to RELEASED", S)
      /\ (state <$> requests (snd (releaseSlot now rid S)) !! rid)
         = Some ALLOCATED).
Proof.
  intros Hq. split; [|split; [|split; [|split; [|split]]]].
  - intros a b. destruct a, b; vm_compute; intuition congruence.
  - intros H. unfold allocateSlot. by rewrite Hq, H.
  - intros H. unfold occupySlot. by rewrite Hq, H.
  - intros H. unfold releaseSlot. by rewrite Hq, H.
  - intros H. unfold cancelRequest. by rewrite Hq, H.
  - intros H. unfold releaseSlot. rewrite Hq, H. simpl.
    split; [done|]. rewrite Hq. simpl. by rewrite H.
Qed.

Lemma C5_invalid_transition_rejected_witness :
  let S1 := snd (allocateSlot Scenario.ae1 Scenario.r1 Scenario.sameZone) in
  releaseSlot 2000 Scenario.r1 S1
  = (failure "Invalid state transition from ALLOCATED to RELEASED", S1)
  /\ (state <$> requests (snd (releaseSlot 2000 Scenario.r1 S1))
                  !! Scenario.r1) = Some ALLOCATED.
Proof.
  intros S1.
  refine (proj2 (proj2 (proj2 (proj2 (proj2
    (C5_invalid_transition_rejected S1 Scenario.r1
       (allocatedRequest Scenario.ae1 10 false
          (Scenario.slot "slot-a1-1" "zone-a" "area-a1" true)
          (mkRequest Scenario.r1 "v1" "zone-a" None None REQUESTED 1000
                     None None None false 0))
       Scenario.ae1 2000 _))))) _).
  - vm_compute. reflexivity.
  - reflexivity.
Defined.

(** ** No available slots *)

Lemma allocateSlot_exhausted (e : AllocEnv) (rid : string) (S : ParkingSystem)
    (q : ParkingRequest) :
  requests S !! rid = Some q ->
  state q = REQUESTED ->
  getAvailableSlotsInZone (requestedZoneId q) S = [] ->
  (forall z, getZone (requestedZoneId q) S = Some z ->
     forall a, a ∈ adjacentZones z -> getAvailableSlotsInZone a S = []) ->
  allocateSlot e rid S
  = (failure "No available slots in requested zone or adjacent zones", S).
Proof.
  intros Hq Hst Hown Hadj.
  unfold allocateSlot. rewrite Hq, Hst. simpl.
  unfold selectSlots. rewrite Hown.
  destruct (getZone (requestedZoneId q) S) as [z|] eqn:Hz; [|done].
  by rewrite (firstAdjacent_none _ _ (Hadj z eq_refl)).
Qed.

(** C6. When neither the requested zone nor any zone of its adjacency list
    has an available slot, allocating a REQUESTED request fails with the
    no-available-slots message and returns the system as it was: the request
    is still REQUESTED with every field as before, no slot changed
    availability, and the operation log has no new entry. *)
Theorem C6_no_available_slots
    (e : AllocEnv) (rid : string) (S : ParkingSystem) (q : ParkingRequest) :
  requests S !! rid = Some q ->
  state q = REQUESTED ->
  getAvailableSlotsInZone (requestedZoneId q) S = [] ->
  (forall z, getZone (requestedZoneId q) S = Some z ->
     forall a, a ∈ adjacentZones z -> getAvailableSlotsInZone a S = []) ->
  let '(r, S') := allocateSlot e rid S in
  success r = false
  /\ message r = "No available slots in requested zone or adjacent zones"
  /\ requests S' !! rid = Some q
  /\ zones S' = zones S
  /\ operationHistory S' = operationHistory S
  /\ S' = S.
Proof.
  intros Hq Hst Hown Hadj.
  by rewrite (allocateSlot_exhausted e rid S q Hq Hst Hown Hadj).
Qed.

Lemma C6_no_available_slots_witness :
  let S0 :=
    snd (createRequest Scenario.ce1 "v1" "zone-a"
           (addZone Scenario.zoneA_full (newParkingSystem None))) in
  let '(r, S') := allocateSlot Scenario.ae1 Scenario.r1 S0 in
  success r = false
  /\ message r = "No available slots in requested zone or adjacent zones"
  /\ requests S' !! Scenario.r1
     = Some (mkRequest Scenario.r1 "v1" "zone-a" None None REQUESTED 1000
                       None None None false 0)
  /\ zones S' = zones S0
  /\ operationHistory S' = operationHistory S0
  /\ S' = S0.
Proof.
  intros S0.
  apply (C6_no_available_slots Scenario.ae1 Scenario.r1 S0
           (mkRequest Scenario.r1 "v1" "zone-a" None None REQUESTED 1000
                      None None None false 0)).
  - vm_compute. reflexivity.
  - reflexivity.
  - reflexivity.
  - intros z Hz a Ha. injection Hz as <-.
    apply list_elem_of_singleton in Ha as ->. reflexivity.
Defined.

(** ** Unknown zone ids *)

(** C7, as the code has it.  A zone id that is not in the topology is
    treated as a zone without slots by every query: the available-slots
    query returns the empty list, the total-slots query returns 0, an
    unknown id in an adjacency list is skipped by the fallback loop, and
    allocating a REQUESTED request for an unknown zone fails with the
    no-available-slots message, leaving the system unchanged.  No query
    reports a not-found failure for a zone id. *)
Theorem C7_unknown_zone_is_empty (S : ParkingSystem) (zid : string) :
  getZone zid S = None ->
  getAvailableSlotsInZone zid S = []
  /\ getTotalSlotsInZone zid S = 0
  /\ (forall adj, firstAdjacentWithSlots S (zid :: adj)
                  = firstAdjacentWithSlots S adj)
  /\ (forall e rid q,
        requests S !! rid = Some q -> state q = REQUESTED ->
        requestedZoneId q = zid ->
        allocateSlot e rid S
        = (failure "No available slots in requested zone or adjacent zones",
           S)).
Proof.
  intros Hz.
  assert (getAvailableSlotsInZone zid S = []) as Hav
    by (unfold getAvailableSlotsInZone; by rewrite Hz).
  split; [done|]. split; [unfold getTotalSlotsInZone; by rewrite Hz|].
  split; [intros adj; simpl; by rewrite Hav|].
  intros e rid q Hq Hst <-.
  apply (allocateSlot_exhausted e rid S q); [done..|].
  intros z Hz'. congruence.
Qed.

Lemma C7_unknown_zone_is_empty_witness :
  let S0 := snd (createRequest Scenario.ce1 "v1" "zone-x"
                   (addZone Scenario.zoneA (newParkingSystem None))) in
  getAvailableSlotsInZone "zone-x" S0 = []
  /\ getTotalSlotsInZone "zone-x" S0 = 0
  /\ (forall adj, firstAdjacentWithSlots S0 ("zone-x" :: adj)
                  = firstAdjacentWithSlots S0 adj)
  /\ (forall e rid q,
        requests S0 !! rid = Some q -> state q = REQUESTED ->
        requestedZoneId q = "zone-x" ->
        allocateSlot e rid S0
        = (failure "No available slots in requested zone or adjacent zones",
           S0)).
Proof.
  intros S0. apply (C7_unknown_zone_is_empty S0 "zone-x"). reflexivity.
Defined.

(** C7, as stated, fails: on a zone id that is not in the topology the
    available-slots query answers with the empty list, and an allocation for
    that zone reports that no slots are available, not that something was not
    found. *)
Lemma C7_unknown_zone_not_reported :
  let S0 := snd (createRequest Scenario.ce1 "v1" "zone-x"
                   (addZone Scenario.zoneA (newParkingSystem None))) in
  getZone "zone-x" S0 = None
  /\ getAvailableSlotsInZone "zone-x" S0 = []
  /\ message (fst (allocateSlot Scenario.ae1 Scenario.r1 S0))
     = "No available slots in requested zone or adjacent zones"
  /\ message (fst (allocateSlot Scenario.ae1 Scenario.r1 S0))
     <> "Request not found".
Proof. vm_compute. repeat split; congruence. Qed.

(** ** Rollback *)

Section RollbackLoop.

Implicit Types (S T : ParkingSystem) (o : AllocationOperation).
Implicit Types (h : list AllocationOperation).

Lemma history_pop_nil : history_pop [] = None.
Proof. done. Qed.

Lemma history_pop_snoc h o : history_pop (h ++ [o]) = Some (o, h).
Proof.
  unfold history_pop. rewrite last_snoc, length_app. simpl.
  replace (length h + 1 - 1)%nat with (length h) by lia.
  by rewrite take_app_length.
Qed.

Lemma history_snoc_inv h :
  (0 < length h)%nat -> exists h' o, h = h' ++ [o].
Proof.
  destruct h as [|x h] using rev_ind; simpl; [lia|]. eauto.
Qed.

Lemma zones_undo o S :
  zones (undo o S) = assign_zones (op_slotId o) (previousSlotState o) (zones S).
Proof. unfold undo. simpl. by destruct (requests S !! op_requestId o). Qed.

Lemma history_undo o S : operationHistory (undo o S) = operationHistory S.
Proof. unfold undo. simpl. by destruct (requests S !! op_requestId o). Qed.

Lemma requests_undo o S :
  requests (undo o S)
  = match requests S !! op_requestId o with
    | Some q => <[op_requestId o := restoredRequest o q]> (requests S)
    | None => requests S
    end.
Proof. unfold undo. simpl. by destruct (requests S !! op_requestId o). Qed.

Lemma history_undo_fold (l : list AllocationOperation) S :
  operationHistory (fold_left (fun T o => undo o T) l S) = operationHistory S.
Proof.
  revert S. induction l as [|o l IH]; intros S; simpl; [done|].
  by rewrite IH, history_undo.
Qed.

Lemma undo_withHistory o h S :
  undo o (withHistory h S) = withHistory h (undo o S).
Proof. unfold undo. simpl. by destruct (requests S !! op_requestId o). Qed.

Lemma withHistory_twice h h' S :
  withHistory h (withHistory h' S) = withHistory h S.
Proof. done. Qed.

Lemma withHistory_same S : withHistory (operationHistory S) S = S.
Proof. by destruct S. Qed.

(** The loop undoes exactly as many records as the smaller of the remaining
    count [k - i] and the size of the log; it is never cut short by [fuel]. *)
Lemma rollback_loop_run fuel i k n S :
  (length (operationHistory S) <= fuel)%nat ->
  rollback_loop fuel i k n S
  = let m := Nat.min (Z.to_nat (k - i)) (length (operationHistory S)) in
    (n + Z.of_nat m, undoLast m S).
Proof.
  revert i n S. induction fuel as [|fuel IH]; intros i n S Hfuel; simpl.
  - replace (length (operationHistory S)) with 0%nat by lia.
    rewrite Nat.min_0_r. simpl. f_equal. lia.
  - case_bool_decide as Hik; simpl.
    2:{ replace (Z.to_nat (k - i)) with 0%nat by lia. simpl. f_equal. lia. }
    case_bool_decide as Hlen; simpl.
    2:{ replace (length (operationHistory S)) with 0%nat by lia.
        rewrite Nat.min_0_r. simpl. f_equal. lia. }
    destruct (history_snoc_inv _ Hlen) as (h & o & Hh).
    rewrite Hh, history_pop_snoc.
    rewrite IH by (rewrite history_undo; simpl; rewrite Hh, length_app in Hfuel;
                   simpl in Hfuel; lia).
    rewrite history_undo. simpl. rewrite length_app. simpl.
    replace (Nat.min (Z.to_nat (k - i)) (length h + 1))
      with (Datatypes.S (Nat.min (Z.to_nat (k - (i + 1))) (length h))) by lia.
    simpl. rewrite Hh, history_pop_snoc. f_equal. lia.
Qed.

(** Popping [m] records undoes the last [m] entries of the log, last entry
    first, and leaves the earlier entries in the log. *)
Lemma undoLast_fold m S :
  (m <= length (operationHistory S))%nat ->
  undoLast m S
  = fold_left (fun T o => undo o T)
      (rev (drop (length (operationHistory S) - m) (operationHistory S)))
      (withHistory (take (length (operationHistory S) - m) (operationHistory S))
                   S).
Proof.
  revert S. induction m as [|m IH]; intros S Hm; simpl.
  - rewrite Nat.sub_0_r, drop_all, firstn_all. simpl.
    by rewrite withHistory_same.
  - destruct (history_snoc_inv (operationHistory S)) as (h & o & Hh); [lia|].
    rewrite Hh in *. rewrite length_app in *. simpl in *.
    rewrite history_pop_snoc.
    rewrite IH by (rewrite history_undo; simpl; lia).
    rewrite history_undo. simpl.
    replace (length h + 1 - Datatypes.S m)%nat with (length h - m)%nat by lia.
    rewrite drop_app_le, take_app_le by lia.
    rewrite rev_app_distr. simpl.
    by rewrite undo_withHistory, withHistory_twice, <- undo_withHistory.
Qed.

Lemma rollback_run k S :
  rollback k S
  = let m := Nat.min (Z.to_nat k) (length (operationHistory S)) in
    (mkRollbackResult true
       ("Rolled back " +:+ pretty (Z.of_nat m) +:+ " operation(s)")
       (Z.of_nat m),
     undoLast m S).
Proof.
  unfold rollback. rewrite rollback_loop_run by done.
  rewrite Z.sub_0_r. simpl. by rewrite Z.add_0_l.
Qed.

(** A count that is not positive undoes nothing. *)
Lemma rollback_nonpositive k S :
  k <= 0 ->
  rollback k S
  = (mkRollbackResult true "Rolled back 0 operation(s)" 0, S).
Proof.
  intros Hk. rewrite rollback_run.
  replace (Z.to_nat k) with 0%nat by lia. reflexivity.
Qed.

(** What undoing one record does to the slot it names. *)
Lemma undo_slot o T (i : SlotInfo) :
  findSlot (op_slotId o) T = Some i ->
  info_slot <$> findSlot (op_slotId o) (undo o T)
  = Some (setAvailable (previousSlotState o) (info_slot i)).
Proof.
  intros Hi. unfold findSlot in *.
  rewrite zones_undo, findSlot_zones_flat, assign_zones_flat.
  rewrite find_assign_slots, decide_True by done.
  rewrite <- findSlot_zones_flat, Hi. done.
Qed.

Lemma undo_other_slot o T sid :
  sid <> op_slotId o ->
  info_slot <$> findSlot sid (undo o T) = info_slot <$> findSlot sid T.
Proof.
  intros Hne. unfold findSlot.
  rewrite zones_undo, !findSlot_zones_flat, assign_zones_flat.
  by rewrite find_assign_slots, decide_False.
Qed.

(** Undoing a record whose slot is in the topology: in the sequence of all
    slots, the first one with the recorded id gets the recorded availability
    and nothing else changes. *)
Lemma undo_slot_flat o T :
  op_slotId o ∈ slotIds (zones T) ->
  exists pre s post,
    allSlots (zones T) = pre ++ s :: post
    /\ slot_id s = op_slotId o
    /\ (op_slotId o ∉ map slot_id pre)
    /\ allSlots (zones (undo o T))
       = pre ++ mkSlot (slot_id s) (slot_zoneId s) (slot_areaId s)
                       (previousSlotState o) :: post.
Proof.
  intros Hin. rewrite zones_undo, assign_zones_flat.
  by apply assign_slots_split.
Qed.

Lemma undo_slot_found o T :
  op_slotId o ∈ slotIds (zones T) ->
  exists i,
    findSlot (op_slotId o) (undo o T) = Some i
    /\ slot_id (info_slot i) = op_slotId o
    /\ isAvailable (info_slot i) = previousSlotState o.
Proof.
  intros Hin.
  destruct (List.find (slotHasId (op_slotId o)) (allSlots (zones T)))
    as [s|] eqn:Hs; [|by apply find_slot_None in Hs].
  pose proof (findSlot_zones_flat (op_slotId o) (zones T)) as Hf.
  rewrite Hs in Hf.
  destruct (findSlot_zones (op_slotId o) (zones T)) as [i|] eqn:Hi; [|done].
  pose proof (undo_slot o T i Hi) as Hu.
  destruct (findSlot (op_slotId o) (undo o T)) as [i'|]; [|done].
  injection Hu as Hu. injection Hf as Hf.
  exists i'. split; [done|]. rewrite Hu, Hf. simpl.
  split; [|done]. by apply find_slot_Some in Hs as [_ ?].
Qed.

Lemma undo_slot_absent o T :
  op_slotId o ∉ slotIds (zones T) -> zones (undo o T) = zones T.
Proof.
  intros Hnot. rewrite zones_undo. apply assign_zones_same.
  intros s Hs. apply find_slot_None in Hnot. unfold slotIds in Hnot.
  congruence.
Qed.

Lemma undo_request o T q :
  requests T !! op_requestId o = Some q ->
  requests (undo o T) !! op_requestId o = Some (restoredRequest o q).
Proof. intros Hq. by rewrite requests_undo, Hq, lookup_insert_eq. Qed.

Lemma undo_other_request o T rid :
  rid <> op_requestId o -> requests (undo o T) !! rid = requests T !! rid.
Proof.
  intros Hne. rewrite requests_undo.
  destruct (requests T !! op_requestId o); [|done].
  by rewrite lookup_insert_ne.
Qed.

End RollbackLoop.

(** C4. For a count [k] of operations to undo, [rollback k] reports success
    and returns [min k (log size)], the number of records it actually undid
    (all of them, a partial count, when [k] exceeds the log size).  The records
    undone are the last ones of the log, the most recent first, and the
    earlier ones stay in the log.  Undoing a record sets the availability of
    the slot it names back to the recorded value and leaves every other slot
    alone: in the sequence of all slots, the first slot with the recorded id
    is replaced by a copy that has the recorded availability, which is also
    what [findSlot] then returns for the id (a record naming a slot that is
    not in the topology changes no slot); it sets the state of the request it names back to the recorded
    state, and when that state is REQUESTED it clears allocatedSlotId,
    allocatedZoneId, allocationTime, isCrossZone and crossZonePenalty; the
    log itself is not touched by the restoration. *)
Theorem C4_rollback_last_k (k : Z) (S : ParkingSystem) :
  0 <= k ->
  let h := operationHistory S in
  let n := Nat.min (Z.to_nat k) (length h) in
  rollback k S
  = (mkRollbackResult true
       ("Rolled back " +:+ pretty (Z.of_nat n) +:+ " operation(s)")
       (Z.of_nat n),
     fold_left (fun T o => undo o T)
       (rev (drop (length h - n) h))
       (withHistory (take (length h - n) h) S))
  /\ Z.of_nat n = Z.min k (Z.of_nat (length h))
  /\ operationHistory (snd (rollback k S)) = take (length h - n) h
  /\ (forall o T,
        operationHistory (undo o T) = operationHistory T
        /\ (op_slotId o ∈ slotIds (zones T) ->
            (exists pre s post,
               allSlots (zones T) = pre ++ s :: post
               /\ slot_id s = op_slotId o
               /\ (op_slotId o ∉ map slot_id pre)
               /\ allSlots (zones (undo o T))
                  = pre ++ mkSlot (slot_id s) (slot_zoneId s) (slot_areaId s)
                                  (previousSlotState o) :: post)
            /\ exists i,
                 findSlot (op_slotId o) (undo o T) = Some i
                 /\ slot_id (info_slot i) = op_slotId o
                 /\ isAvailable (info_slot i) = previousSlotState o)
        /\ (op_slotId o ∉ slotIds (zones T) -> zones (undo o T) = zones T)
        /\ (forall sid, sid <> op_slotId o ->
              info_slot <$> findSlot sid (undo o T)
              = info_slot <$> findSlot sid T)
        /\ (forall q, requests T !! op_requestId o = Some q ->
              exists q',
                requests (undo o T) !! op_requestId o = Some q'
                /\ state q' = previousRequestState o
                /\ (previousRequestState o = REQUESTED ->
                    allocatedSlotId q' = None
                    /\ allocatedZoneId q' = None
                    /\ allocationTime q' = None
                    /\ isCrossZone q' = false
                    /\ crossZonePenalty q' = 0))
        /\ (forall rid, rid <> op_requestId o ->
              requests (undo o T) !! rid = requests T !! rid)).
Proof.
  intros Hk h n.
  assert (n <= length h)%nat as Hn by (unfold n; lia).
  assert (rollback k S
          = (mkRollbackResult true
               ("Rolled back " +:+ pretty (Z.of_nat n) +:+ " operation(s)")
               (Z.of_nat n),
             fold_left (fun T o => undo o T)
               (rev (drop (length h - n) h))
               (withHistory (take (length h - n) h) S))) as Hrun.
  { rewrite rollback_run. fold h n. simpl. f_equal. by apply undoLast_fold. }
  split; [done|]. split; [unfold n; lia|]. split.
  - rewrite Hrun. simpl. by rewrite history_undo_fold.
  - intros o T. split; [apply history_undo|].
    split; [intros Hin; split;
              [by apply undo_slot_flat | by apply undo_slot_found]|].
    split; [apply undo_slot_absent|]. split; [apply undo_other_slot|].
    split; [|apply undo_other_request].
    intros q Hq. exists (restoredRequest o q).
    split; [by apply undo_request|].
    unfold restoredRequest. by destruct (previousRequestState o).
Qed.

Lemma C4_rollback_last_k_witness :
  let S1 := snd (allocateSlot Scenario.ae1 Scenario.r1 Scenario.sameZone) in
  0 <= 3
  /\ fst (rollback 3 S1)
     = mkRollbackResult true "Rolled back 1 operation(s)" 1
  /\ operationHistory (snd (rollback 3 S1)) = []
  /\ exists i,
       findSlot "slot-a1-1" (snd (rollback 3 S1)) = Some i
       /\ slot_id (info_slot i) = "slot-a1-1"
       /\ isAvailable (info_slot i) = true.
Proof.
  intros S1. split; [lia|].
  destruct (C4_rollback_last_k 3 S1 ltac:(lia)) as (Hrun & _ & Hlog & Hundo).
  split; [rewrite Hrun; reflexivity|].
  split; [rewrite Hlog; reflexivity|].
  rewrite Hrun.
  destruct (Hundo (allocationRecord Scenario.ae1
                     (Scenario.slot "slot-a1-1" "zone-a" "area-a1" true)
                     (mkRequest Scenario.r1 "v1" "zone-a" None None REQUESTED
                                1000 None None None false 0))
                  (withHistory [] S1))
    as (_ & Hslot & _).
  apply Hslot. vm_compute. apply elem_of_cons. by left.
Defined.

(** Every successful allocation logs a record whose saved slot value is
    [true] and whose saved request state is REQUESTED. *)
Lemma allocateSlot_record e rid S r S' :
  allocateSlot e rid S = (r, S') -> success r = true ->
  exists o, operationHistory S' = operationHistory S ++ [o]
            /\ previousSlotState o = true
            /\ previousRequestState o = REQUESTED.
Proof.
  unfold allocateSlot.
  destruct (requests S !! rid) as [q|]; [|by intros [= <- _]].
  destruct (canTransition (state q) ALLOCATED) eqn:Hc; simpl;
    [|by intros [= <- _]].
  apply canTransition_to_ALLOCATED in Hc.
  destruct (selectSlots (requestedZoneId q) S) as [[zsel [|s l]] c] eqn:Hsel;
    [by intros [= <- _]|].
  intros [= <- <-] _. eexists. split; [reflexivity|]. simpl.
  apply selectSlots_sound in Hsel.
  split; [|done].
  unfold getAvailableSlotsInZone in Hsel.
  destruct (getZone zsel S) as [z|]; [|done].
  rewrite availableSlotsOf_flat in Hsel.
  by apply filter_head_elem in Hsel as [_ ?].
Qed.

(** C10. Rollback does not look at the request's current state.  Whatever
    state the request of the most recent allocation record is in by now
    (OCCUPIED, RELEASED and CANCELLED included), [rollback 1] pops that record,
    makes the recorded slot (a slot of the topology) available again, so that
    [findSlot] returns it with [isAvailable = true] and no other slot has
    changed, puts the request back in
    REQUESTED and clears its allocation fields; occupiedTime and releaseTime
    keep whatever values they had. *)
Theorem C10_rollback_ignores_current_state
    (S : ParkingSystem) (keep : list AllocationOperation)
    (o : AllocationOperation) (q : ParkingRequest) :
  operationHistory S = keep ++ [o] ->
  previousSlotState o = true ->
  previousRequestState o = REQUESTED ->
  requests S !! op_requestId o = Some q ->
  op_slotId o ∈ slotIds (zones S) ->
  let '(r, S') := rollback 1 S in
  rolledBack r = 1
  /\ operationHistory S' = keep
  /\ (exists i,
        findSlot (op_slotId o) S' = Some i
        /\ slot_id (info_slot i) = op_slotId o
        /\ isAvailable (info_slot i) = true)
  /\ (exists pre s post,
        allSlots (zones S) = pre ++ s :: post
        /\ slot_id s = op_slotId o
        /\ (op_slotId o ∉ map slot_id pre)
        /\ allSlots (zones S')
           = pre ++ mkSlot (slot_id s) (slot_zoneId s) (slot_areaId s) true
                 :: post)
  /\ exists q',
       requests S' !! op_requestId o = Some q'
       /\ state q' = REQUESTED
       /\ allocatedSlotId q' = None
       /\ allocatedZoneId q' = None
       /\ allocationTime q' = None
       /\ isCrossZone q' = false
       /\ crossZonePenalty q' = 0
       /\ occupiedTime q' = occupiedTime q
       /\ releaseTime q' = releaseTime q.
Proof.
  intros Hh Hslot Hreq Hq Hin.
  rewrite rollback_run, Hh, length_app. cbv zeta.
  replace (Nat.min (Z.to_nat 1) (length keep + length [o])) with 1%nat
    by (simpl length; lia).
  simpl. rewrite Hh, history_pop_snoc.
  assert (op_slotId o ∈ slotIds (zones (withHistory keep S))) as Hin'
    by done.
  split; [done|]. split; [by rewrite history_undo|]. split; [|split].
  - rewrite <- Hslot. by apply undo_slot_found.
  - rewrite <- Hslot. by apply (undo_slot_flat o (withHistory keep S)).
  - exists (restoredRequest o q). split.
    + by apply undo_request.
    + unfold restoredRequest. by rewrite Hreq.
Qed.

Lemma C10_rollback_ignores_current_state_witness :
  let S1 := snd (allocateSlot Scenario.ae1 Scenario.r1 Scenario.sameZone) in
  let S2 := snd (occupySlot 1500 Scenario.r1 S1) in
  let '(r, S') := rollback 1 S2 in
  rolledBack r = 1
  /\ operationHistory S' = []
  /\ (exists i,
        findSlot "slot-a1-1" S' = Some i
        /\ slot_id (info_slot i) = "slot-a1-1"
        /\ isAvailable (info_slot i) = true)
  /\ (exists pre s post,
        allSlots (zones S2) = pre ++ s :: post
        /\ slot_id s = "slot-a1-1"
        /\ ("slot-a1-1" ∉ map slot_id pre)
        /\ allSlots (zones S')
           = pre ++ mkSlot (slot_id s) (slot_zoneId s) (slot_areaId s) true
                 :: post)
  /\ exists q',
       requests S' !! Scenario.r1 = Some q'
       /\ state q' = REQUESTED
       /\ allocatedSlotId q' = None
       /\ allocatedZoneId q' = None
       /\ allocationTime q' = None
       /\ isCrossZone q' = false
       /\ crossZonePenalty q' = 0
       /\ occupiedTime q' = Some 1500
       /\ releaseTime q' = None.
Proof.
  intros S1 S2.
  apply (C10_rollback_ignores_current_state S2 []
           (allocationRecord Scenario.ae1
              (Scenario.slot "slot-a1-1" "zone-a" "area-a1" true)
              (mkRequest Scenario.r1 "v1" "zone-a" None None REQUESTED 1000
                         None None None false 0))
           (occupiedRequest 1500
              (allocatedRequest Scenario.ae1 10 false
                 (Scenario.slot "slot-a1-1" "zone-a" "area-a1" true)
                 (mkRequest Scenario.r1 "v1" "zone-a" None None REQUESTED 1000
                            None None None false 0)))).
  - reflexivity.
  - reflexivity.
  - reflexivity.
  - vm_compute. reflexivity.
  - vm_compute. apply elem_of_cons. by left.
Defined.

(** ** Rounding to double precision *)

Section Rounding.

Import Double.
Local Open Scope Q_scope.

Lemma pow2_pos (e : Z) : 0 < 2 ^ e.
Proof. by apply Qpower_0_lt. Qed.

Lemma pow2_plus (a b : Z) : 2 ^ (a + b) == 2 ^ a * 2 ^ b.
Proof. by apply Qpower_plus. Qed.

Lemma pow2_succ (e : Z) : 2 ^ (e + 1) == 2 * 2 ^ e.
Proof. rewrite pow2_plus. change (2 ^ 1) with 2. ring. Qed.

Lemma pow2_le (a b : Z) : (a <= b)%Z -> 2 ^ a <= 2 ^ b.
Proof. intros H. by apply Qpower_le_compat_l. Qed.

Lemma pow2_lt_inv (a b : Z) : 2 ^ a < 2 ^ b -> (a < b)%Z.
Proof. intros H. by apply Qpower_lt_compat_l_inv in H. Qed.

Lemma pow2_inject (n : Z) : (0 <= n)%Z -> inject_Z (2 ^ n) == 2 ^ n.
Proof. intros H. by rewrite Zpower_Qpower. Qed.

Lemma Qpos_num (x : Q) : 0 < x <-> (0 < Qnum x)%Z.
Proof. destruct x as [n d]. unfold Qlt. simpl. lia. Qed.

Lemma ilog2_spec (x : Q) :
  0 < x -> 2 ^ ilog2 x <= x /\ x < 2 ^ (ilog2 x + 1).
Proof.
  intros Hx. pose proof (proj1 (Qpos_num x) Hx) as Hn.
  unfold ilog2.
  set (ln := Z.log2 (Qnum x)). set (ld := Z.log2 (Z.pos (Qden x))).
  destruct (Z.log2_spec (Qnum x) Hn) as [Hn1 Hn2]. fold ln in Hn1, Hn2.
  destruct (Z.log2_spec (Z.pos (Qden x)) eq_refl) as [Hd1 Hd2].
  fold ld in Hd1, Hd2.
  assert (0 <= ln)%Z as Hln by apply Z.log2_nonneg.
  assert (0 <= ld)%Z as Hld by apply Z.log2_nonneg.
  assert (x == inject_Z (Qnum x) / inject_Z (Z.pos (Qden x))) as Hxq.
  { destruct x as [n d]. simpl. apply Qmake_Qdiv. }
  set (N := inject_Z (Qnum x)) in *. set (D := inject_Z (Z.pos (Qden x))) in *.
  assert (2 ^ ln <= N) as HN1.
  { rewrite <- pow2_inject by done. unfold N. by rewrite <- Zle_Qle. }
  assert (N < 2 ^ (ln + 1)) as HN2.
  { rewrite <- pow2_inject by lia. unfold N. by rewrite <- Zlt_Qlt. }
  assert (2 ^ ld <= D) as HD1.
  { rewrite <- pow2_inject by done. unfold D. by rewrite <- Zle_Qle. }
  assert (D < 2 ^ (ld + 1)) as HD2.
  { rewrite <- pow2_inject by lia. unfold D. by rewrite <- Zlt_Qlt. }
  assert (0 < D) as HD by (unfold D; by rewrite <- (Zlt_Qlt 0)).
  assert (x * D == N) as HxD.
  { rewrite Hxq. field. intros E. rewrite E in HD. by apply Qlt_irrefl in HD. }
  pose proof (pow2_pos ld) as Pld. pose proof (pow2_pos (ln - ld)) as Pe.
  assert (2 ^ ln == 2 ^ (ln - ld) * 2 ^ ld) as E1.
  { rewrite <- pow2_plus. by replace (ln - ld + ld)%Z with ln by lia. }
  assert (2 ^ (ln + 1) == 2 * 2 ^ ln) as E2 by apply pow2_succ.
  assert (2 ^ (ld + 1) == 2 * 2 ^ ld) as E3 by apply pow2_succ.
  assert (2 ^ (ln - ld) == 2 * 2 ^ (ln - ld - 1)) as E4.
  { rewrite <- pow2_succ. by replace (ln - ld - 1 + 1)%Z with (ln - ld)%Z by lia. }
  assert (2 ^ (ln - ld + 1) == 2 * 2 ^ (ln - ld)) as E5 by apply pow2_succ.
  pose proof (pow2_pos (ln - ld - 1)) as Pe1.
  destruct (Qle_bool (2 ^ (ln - ld)) x) eqn:Hb.
  - apply Qle_bool_iff in Hb. split; [done|].
    rewrite E5. nra.
  - assert (x < 2 ^ (ln - ld)) as Hlt.
    { apply Qnot_le_lt. intros H. apply Qle_bool_iff in H. congruence. }
    split.
    + nra.
    + by replace (ln - ld - 1 + 1)%Z with (ln - ld)%Z by lia.
Qed.

Lemma ilog2_unique (x : Q) (e : Z) :
  2 ^ e <= x -> x < 2 ^ (e + 1) -> ilog2 x = e.
Proof.
  intros H1 H2.
  assert (0 < x) as Hx by (pose proof (pow2_pos e); lra).
  destruct (ilog2_spec x Hx) as [H3 H4].
  assert (2 ^ e < 2 ^ (ilog2 x + 1)) as Ha by lra.
  assert (2 ^ ilog2 x < 2 ^ (e + 1)) as Hb by lra.
  apply pow2_lt_inv in Ha, Hb. lia.
Qed.

Lemma ilog2_comp (x y : Q) : 0 < x -> x == y -> ilog2 x = ilog2 y.
Proof.
  intros Hx Hxy. destruct (ilog2_spec x Hx) as [H1 H2].
  symmetry. apply ilog2_unique; by rewrite <- Hxy.
Qed.

Lemma roundHalfEven_comp (m m' : Q) :
  m == m' -> roundHalfEven m = roundHalfEven m'.
Proof.
  intros H. unfold roundHalfEven.
  rewrite (Qfloor_comp _ _ H).
  assert (m - inject_Z (Qfloor m') == m' - inject_Z (Qfloor m')) as E
    by (by rewrite H).
  by rewrite (Qcompare_comp _ _ E _ _ (Qeq_refl (1 # 2))).
Qed.


Lemma roundHalfEven_le (m : Q) (N : Z) :
  m <= inject_Z N -> (roundHalfEven m <= N)%Z.
Proof.
  intros H. unfold roundHalfEven.
  pose proof (Qfloor_le m) as Hf.
  assert (Qfloor m <= N)%Z as HfN.
  { rewrite Zle_Qle. lra. }
  destruct (decide (Qfloor m = N)) as [E|E].
  - assert (m - inject_Z (Qfloor m) < 1 # 2) as Hlt by (rewrite E; lra).
    destruct (m - inject_Z (Qfloor m) ?= 1 # 2) eqn:E'; [| lia |].
    + apply Qeq_alt in E'. lra.
    + apply Qgt_alt in E'. lra.
  - destruct (m - inject_Z (Qfloor m) ?= 1 # 2);
      [destruct (Z.even (Qfloor m))|..]; lia.
Qed.

Lemma roundHalfEven_ge (m : Q) (N : Z) :
  inject_Z N <= m -> (N <= roundHalfEven m)%Z.
Proof.
  intros H. apply Qfloor_resp_le in H. rewrite Qfloor_Z in H.
  unfold roundHalfEven.
  destruct (m - inject_Z (Qfloor m) ?= 1 # 2);
    [destruct (Z.even (Qfloor m))|..]; lia.
Qed.

(** The scaled significand of a positive number lies in [2^52, 2^53). *)
Lemma significand_range (x : Q) :
  0 < x ->
  2 ^ 52 <= x / 2 ^ (ilog2 x - 52) /\ x / 2 ^ (ilog2 x - 52) < 2 ^ 53.
Proof.
  intros Hx. destruct (ilog2_spec x Hx) as [H1 H2].
  set (e := ilog2 x) in *.
  pose proof (pow2_pos (e - 52)) as Hu.
  assert (2 ^ e == 2 ^ 52 * 2 ^ (e - 52)) as E1.
  { rewrite <- pow2_plus. by replace (52 + (e - 52))%Z with e by lia. }
  assert (2 ^ (e + 1) == 2 ^ 53 * 2 ^ (e - 52)) as E2.
  { rewrite <- pow2_plus. by replace (53 + (e - 52))%Z with (e + 1)%Z by lia. }
  assert (x == x / 2 ^ (e - 52) * 2 ^ (e - 52)) as E3.
  { field. lra. }
  set (m := x / 2 ^ (e - 52)) in *. clearbody m.
  set (u := 2 ^ (e - 52)) in *. clearbody u.
  set (a := 2 ^ 52) in *. set (b := 2 ^ 53) in *. clearbody a b.
  split; nra.
Qed.

Lemma roundPositive_comp (x y : Q) :
  0 < x -> x == y -> roundPositive x == roundPositive y.
Proof.
  intros Hx Hxy. unfold roundPositive.
  rewrite <- (ilog2_comp x y Hx Hxy).
  rewrite (roundHalfEven_comp (x / 2 ^ (ilog2 x - 52)) (y / 2 ^ (ilog2 x - 52)));
    [done|]. by apply Qdiv_comp.
Qed.


(** Rounding does not cross an integer below 2^53. *)
Lemma roundPositive_le (x : Q) (N : Z) :
  0 < x -> x <= inject_Z N -> (N < 2 ^ 53)%Z -> roundPositive x <= inject_Z N.
Proof.
  intros Hx HxN HN. destruct (ilog2_spec x Hx) as [H1 _].
  unfold roundPositive. set (e := ilog2 x) in *.
  assert (e < 53)%Z as He.
  { apply pow2_lt_inv. rewrite <- (pow2_inject 53) by done.
    apply Qle_lt_trans with (inject_Z N); [lra|]. by rewrite <- Zlt_Qlt. }
  pose proof (pow2_pos (e - 52)) as Hu.
  assert (2 ^ (52 - e) * 2 ^ (e - 52) == 1) as E1.
  { rewrite <- pow2_plus. by replace (52 - e + (e - 52))%Z with 0%Z by lia. }
  assert (x / 2 ^ (e - 52) <= inject_Z (N * 2 ^ (52 - e))) as Hm.
  { rewrite inject_Z_mult, pow2_inject by lia.
    apply Qle_shift_div_r; [done|].
    rewrite <- Qmult_assoc, E1. lra. }
  apply roundHalfEven_le in Hm. rewrite Zle_Qle in Hm.
  rewrite inject_Z_mult, pow2_inject in Hm by lia.
  set (n := inject_Z (roundHalfEven (x / 2 ^ (e - 52)))) in *. clearbody n.
  set (u := 2 ^ (e - 52)) in *. set (v := 2 ^ (52 - e)) in *.
  clearbody u v. set (M := inject_Z N) in *. clearbody M.
  assert (n * u <= M * v * u) as H by nra.
  rewrite <- Qmult_assoc, E1 in H. lra.
Qed.

Lemma roundPositive_ge (x : Q) (N : Z) :
  0 < x -> inject_Z N <= x -> (N < 2 ^ 53)%Z -> inject_Z N <= roundPositive x.
Proof.
  intros Hx HxN HN. destruct (ilog2_spec x Hx) as [H1 H2].
  destruct (significand_range x Hx) as [Hm _].
  unfold roundPositive. set (e := ilog2 x) in *.
  pose proof (pow2_pos (e - 52)) as Hu.
  destruct (Z_lt_le_dec e 53) as [He|He].
  - assert (2 ^ (52 - e) * 2 ^ (e - 52) == 1) as E1.
    { rewrite <- pow2_plus. by replace (52 - e + (e - 52))%Z with 0%Z by lia. }
    assert (inject_Z (N * 2 ^ (52 - e)) <= x / 2 ^ (e - 52)) as Hm'.
    { rewrite inject_Z_mult, pow2_inject by lia.
      apply Qle_shift_div_l; [done|].
      rewrite <- Qmult_assoc, E1. lra. }
    apply roundHalfEven_ge in Hm'. rewrite Zle_Qle in Hm'.
    rewrite inject_Z_mult, pow2_inject in Hm' by lia.
    set (n := inject_Z (roundHalfEven (x / 2 ^ (e - 52)))) in *. clearbody n.
    set (u := 2 ^ (e - 52)) in *. set (v := 2 ^ (52 - e)) in *.
    clearbody u v. set (M := inject_Z N) in *. clearbody M.
    assert (M * v * u <= n * u) as H by nra.
    rewrite <- Qmult_assoc, E1 in H. lra.
  - rewrite <- (pow2_inject 52) in Hm by done.
    apply roundHalfEven_ge in Hm. rewrite Zle_Qle in Hm.
    rewrite pow2_inject in Hm by done.
    assert (2 ^ e == 2 ^ 52 * 2 ^ (e - 52)) as E1.
    { rewrite <- pow2_plus. by replace (52 + (e - 52))%Z with e by lia. }
    assert (inject_Z N < 2 ^ 53) as HN'.
    { rewrite <- (pow2_inject 53) by done. by rewrite <- Zlt_Qlt. }
    pose proof (pow2_le 53 e He) as H53.
    set (n := inject_Z (roundHalfEven (x / 2 ^ (e - 52)))) in *. clearbody n.
    set (u := 2 ^ (e - 52)) in *. clearbody u.
    set (a := 2 ^ 52) in *. clearbody a. nra.
Qed.

Lemma round_positive (x : Q) : 0 < x -> round x = roundPositive x.
Proof.
  intros Hx. apply Qpos_num in Hx. unfold round.
  by destruct (Qnum x).
Qed.

Lemma round_zero (x : Q) : x == 0 -> round x = 0.
Proof.
  intros Hx. unfold round.
  assert (Qnum x = 0%Z) as ->; [|done].
  destruct x as [n d]. unfold Qeq in Hx. simpl in *. lia.
Qed.

Lemma round_comp (x y : Q) : x == y -> round x == round y.
Proof.
  intros Hxy. destruct (Qlt_le_dec 0 x) as [Hx|Hx].
  - rewrite !round_positive by (by rewrite <- ?Hxy).
    by apply roundPositive_comp.
  - destruct (Qeq_dec x 0) as [E|E].
    + rewrite !round_zero by (by rewrite <- ?Hxy). done.
    + assert (0 < - x) as Hn by lra.
      assert (Qnum x < 0)%Z as Hnx.
      { destruct x as [n d]. unfold Qlt in Hn. simpl in *. lia. }
      assert (Qnum y < 0)%Z as Hny.
      { rewrite Hxy in Hn. destruct y as [n d]. unfold Qlt in Hn.
        simpl in *. lia. }
      unfold round. destruct (Qnum x); try lia. destruct (Qnum y); try lia.
      apply Qopp_comp. apply roundPositive_comp; [done|]. by rewrite Hxy.
Qed.


Lemma round_nonneg_le (x : Q) (N : Z) :
  0 <= x -> x <= inject_Z N -> (N < 2 ^ 53)%Z -> 0 <= round x <= inject_Z N.
Proof.
  intros H0 HN Hlt. destruct (Qeq_dec x 0) as [E|E].
  - rewrite round_zero by done. lra.
  - assert (0 < x) as Hpos by lra. rewrite round_positive by done. split.
    + change 0 with (inject_Z 0). apply roundPositive_ge; [done|change (inject_Z 0) with 0; lra|lia].
    + by apply roundPositive_le.
Qed.



(** The expression [(occupied / total) * 100] in doubles, for counts. *)
Lemma percentage_range (o t : Z) :
  (0 <= o <= t)%Z -> (0 < t)%Z ->
  0 <= mul (div (inject_Z o) (inject_Z t)) 100 <= 100.
Proof.
  intros Ho Ht. unfold mul, div.
  assert (0 < inject_Z t) as HT by (by rewrite <- (Zlt_Qlt 0)).
  assert (0 <= inject_Z o) as HO by (rewrite <- (Zle_Qle 0); lia).
  assert (inject_Z o <= inject_Z t) as HOT by (rewrite <- Zle_Qle; lia).
  assert (0 <= inject_Z o / inject_Z t) as Hp0.
  { apply Qle_shift_div_l; [done|]. lra. }
  assert (inject_Z o / inject_Z t <= inject_Z 1) as Hp1.
  { apply Qle_shift_div_r; [done|]. change (inject_Z 1) with 1. lra. }
  destruct (round_nonneg_le _ 1 Hp0 Hp1 ltac:(lia)) as [Hq0 Hq1].
  change (inject_Z 1) with 1 in Hq1.
  set (q := round (inject_Z o / inject_Z t)) in *. clearbody q.
  apply (round_nonneg_le (q * 100) 100); [lra| change (inject_Z 100) with 100; lra |lia].
Qed.





End Rounding.

(** On every total from 1 to 200 and every number of available slots, the
    rounding written out in [Double] returns what the standard library's
    binary64 arithmetic returns. *)
Example round_agrees_with_binary64 : Double.agreesUpTo 200 = true.
Proof. vm_compute. reflexivity. Qed.

(** ** Zone utilization *)

Section Utilization.

Implicit Types (S : ParkingSystem) (z : Zone).

Lemma total_slots_fold (l : list ParkingArea) (acc : Z) :
  fold_left (fun total a => total + Z.of_nat (length (slots a))) l acc
  = acc + Z.of_nat (length (flat_map slots l)).
Proof.
  revert acc. induction l as [|a l IH]; intros acc; simpl; [lia|].
  rewrite IH, length_app. lia.
Qed.


Lemma utilizationOf_id S z z' :
  zone_id z = zone_id z' -> utilizationOf S z = utilizationOf S z'.
Proof. unfold utilizationOf. by intros ->. Qed.

Lemma zoneUtilization_fold S (zs : list Zone) (m : gmap string Q) z :
  z ∈ zs -> zone_id z <> "__proto__" ->
  fold_left (fun m z => recordSet (zone_id z) (utilizationOf S z) m) zs m
    !! zone_id z = Some (utilizationOf S z).
Proof.
  intros Hin Hp. induction zs as [|z' zs IH] using rev_ind.
  - by apply elem_of_nil in Hin.
  - rewrite fold_left_app. simpl. unfold recordSet at 1.
    destruct (decide (zone_id z' = zone_id z)) as [Heq|Hne].
    + rewrite decide_False by congruence.
      rewrite Heq, lookup_insert_eq. f_equal. by apply utilizationOf_id.
    + assert (z ∈ zs) as Hin'.
      { apply elem_of_app in Hin as [Hin|Hin]; [done|].
        apply list_elem_of_singleton in Hin. congruence. }
      case_decide; [by apply IH|].
      rewrite lookup_insert_ne by done. by apply IH.
Qed.

(** No zone ever gets an entry under the key of the prototype accessor. *)
Lemma zoneUtilization_fold_proto S (zs : list Zone) (m : gmap string Q) :
  fold_left (fun m z => recordSet (zone_id z) (utilizationOf S z) m) zs m
    !! "__proto__" = m !! "__proto__".
Proof.
  induction zs as [|z' zs IH] using rev_ind; [done|].
  rewrite fold_left_app. simpl. unfold recordSet at 1.
  case_decide; [done|]. by rewrite lookup_insert_ne.
Qed.

End Utilization.




(** A zone stored under the id "__proto__" is a zone like any other for the
    engine, and has no entry in the utilization record. *)
Example no_utilization_entry_for_proto :
  is_Some (getZone "__proto__" Scenario.protoNamed)
  /\ getTotalSlotsInZone "__proto__" Scenario.protoNamed = 1
  /\ zoneUtilization Scenario.protoNamed !! "__proto__" = None
  /\ is_Some (zoneUtilization Scenario.protoNamed !! "zone-a").
Proof.
  split; [vm_compute; by eexists|]. split; [vm_compute; reflexivity|].
  split; [vm_compute; reflexivity|]. vm_compute. by eexists.
Qed.

(** ** The allocation invariant *)

Section Invariant.

Implicit Types (S : ParkingSystem) (q : ParkingRequest) (s : ParkingSlot).
Implicit Types (o : AllocationOperation) (h : list AllocationOperation).
Implicit Types (zs : list Zone) (sid rid : string).

Lemma slotStatus_findSlot S sid :
  slotStatus (zones S) sid = isAvailable ∘ info_slot <$> findSlot sid S.
Proof.
  unfold slotStatus, findSlot. rewrite <- findSlot_zones_flat.
  by destruct (findSlot_zones sid (zones S)).
Qed.

Lemma slotStatus_assign zs sid b sid' :
  slotStatus (assign_zones sid b zs) sid'
  = if decide (sid' = sid) then (fun _ => b) <$> slotStatus zs sid
    else slotStatus zs sid'.
Proof.
  unfold slotStatus. rewrite assign_zones_flat, find_assign_slots.
  case_decide; [|done].
  by destruct (List.find (slotHasId sid) (allSlots zs)).
Qed.

Lemma lastOpOn_snoc sid h o :
  lastOpOn sid (h ++ [o])
  = if decide (op_slotId o = sid) then Some (op_requestId o)
    else lastOpOn sid h.
Proof.
  unfold lastOpOn. rewrite rev_unit. simpl.
  case_decide.
  - by rewrite bool_decide_eq_true_2.
  - by rewrite bool_decide_eq_false_2.
Qed.

(** The slot an allocation selects is free, is the slot [findSlot] returns
    for its id, and the write through it is the write through [findSlot]. *)
Lemma selected_slot zs zid z s l :
  NoDup (slotIds zs) ->
  List.find (zoneHasId zid) zs = Some z ->
  availableSlotsOf z = s :: l ->
  slotStatus zs (slot_id s) = Some true
  /\ claim_zones zid zs = assign_zones (slot_id s) false zs.
Proof.
  intros Hnd Hz Hs. split; [|by eapply claim_zones_assign].
  pose proof Hs as Hs'. rewrite availableSlotsOf_flat in Hs'.
  apply filter_head_elem in Hs' as [Hin Hav].
  assert (s ∈ allSlots zs) as Hall.
  { apply List.find_some in Hz as [Hz _].
    apply list_elem_of_In, in_flat_map. exists z.
    split; [done | by apply list_elem_of_In]. }
  unfold slotStatus. rewrite (find_slot_NoDup _ _ Hnd Hall). simpl.
  by rewrite Hav.
Qed.

Lemma canTransition_to_OCCUPIED st :
  canTransition st OCCUPIED = true <-> st = ALLOCATED.
Proof. destruct st; vm_compute; split; congruence. Qed.

Lemma canTransition_to_RELEASED st :
  canTransition st RELEASED = true <-> st = OCCUPIED.
Proof. destruct st; vm_compute; split; congruence. Qed.

Lemma canTransition_to_CANCELLED st :
  canTransition st CANCELLED = true <-> st = REQUESTED \/ st = ALLOCATED.
Proof. destruct st; vm_compute; intuition congruence. Qed.

Lemma Inv_create e vid zid S : Inv S -> Inv (snd (createRequest e vid zid S)).
Proof.
  intros [Hnd Hkeys Hreq Hhold Hlog]. simpl.
  set (id := "REQ-" +:+ pretty (ce_idTime e) +:+ "-" +:+ ce_idRandom e).
  constructor; simpl; try done.
  - intros k q. rewrite lookup_insert. case_decide as Hk.
    + intros [= <-]. done.
    + apply Hkeys.
  - intros k q. rewrite lookup_insert. case_decide as Hk.
    + by intros [= <-].
    + apply Hreq.
  - intros k q. rewrite lookup_insert. case_decide as Hk.
    + intros [= <-] [?|?]; discriminate.
    + apply Hhold.
Qed.

Lemma Inv_allocate e rid S : Inv S -> Inv (snd (allocateSlot e rid S)).
Proof.
  intros HI. unfold allocateSlot.
  destruct (requests S !! rid) as [q|] eqn:Hq; [|done].
  destruct (canTransition (state q) ALLOCATED) eqn:Hc; simpl; [|done].
  apply canTransition_to_ALLOCATED in Hc.
  destruct (selectSlots (requestedZoneId q) S) as [[zsel [|s l]] c] eqn:Hsel;
    [done|].
  apply selectSlots_sound in Hsel. unfold getAvailableSlotsInZone in Hsel.
  destruct (getZone zsel S) as [z|] eqn:Hz; [|done].
  destruct HI as [Hnd Hkeys Hreq Hhold Hlog].
  destruct (selected_slot _ _ _ _ _ Hnd Hz Hsel) as [Hfree Hclaim].
  simpl. constructor; simpl.
  - by rewrite Hclaim, assign_zones_ids.
  - intros k q0. rewrite lookup_insert. case_decide as Hk.
    + intros [= <-]. simpl. subst k. by apply Hkeys.
    + apply Hkeys.
  - intros k q0. rewrite lookup_insert. case_decide as Hk.
    + by intros [= <-].
    + apply Hreq.
  - intros k q0. rewrite lookup_insert. case_decide as Hk.
    + intros [= <-] _. subst k. exists (slot_id s), (slot_zoneId s). simpl.
      split; [done|]. split; [done|]. split.
      * by rewrite Hclaim, slotStatus_assign, decide_True, Hfree.
      * unfold history_push. rewrite lastOpOn_snoc. simpl.
        rewrite decide_True by done. f_equal. by apply Hkeys.
    + intros Hq0 Hh.
      destruct (Hhold k q0 Hq0 Hh) as (sid & zid & ? & ? & Hst & Hlast).
      exists sid, zid. split; [done|]. split; [done|].
      assert (sid <> slot_id s) as Hne by (intros ->; congruence).
      split.
      * by rewrite Hclaim, slotStatus_assign, decide_False.
      * unfold history_push. rewrite lastOpOn_snoc. simpl.
        by rewrite decide_False.
  - unfold history_push. apply Forall_app. split; [done|].
    by constructor.
Qed.

Lemma Inv_occupy now rid S : Inv S -> Inv (snd (occupySlot now rid S)).
Proof.
  intros HI. unfold occupySlot.
  destruct (requests S !! rid) as [q|] eqn:Hq; [|done].
  destruct (canTransition (state q) OCCUPIED) eqn:Hc; simpl; [|done].
  apply canTransition_to_OCCUPIED in Hc.
  destruct HI as [Hnd Hkeys Hreq Hhold Hlog].
  constructor; simpl; try done.
  - intros k q0. rewrite lookup_insert. case_decide as Hk.
    + intros [= <-]. simpl. subst k. by apply Hkeys.
    + apply Hkeys.
  - intros k q0. rewrite lookup_insert. case_decide as Hk.
    + by intros [= <-].
    + apply Hreq.
  - intros k q0. rewrite lookup_insert. case_decide as Hk.
    + intros [= <-] _. subst k. simpl. apply Hhold; [done|]. by left.
    + apply Hhold.
Qed.

(** Leaving the holding states (release, cancel): the request's slot, if it
    has one, is handed back, and no other holder is affected. *)
Lemma Inv_leave S rid q q' :
  Inv S ->
  requests S !! rid = Some q ->
  state q = REQUESTED \/ holding q ->
  req_id q' = req_id q ->
  state q' = RELEASED \/ state q' = CANCELLED ->
  Inv (withRequests (<[rid := q']> (requests (freeAllocatedSlot q S)))
                    (freeAllocatedSlot q S)).
Proof.
  intros [Hnd Hkeys Hreq Hhold Hlog] Hq Hstate Hid Hq'.
  assert (requests (freeAllocatedSlot q S) = requests S) as Hrq.
  { unfold freeAllocatedSlot. destruct (allocatedSlotId q); [|done].
    by case_bool_decide. }
  assert (operationHistory (freeAllocatedSlot q S) = operationHistory S) as Hh.
  { unfold freeAllocatedSlot. destruct (allocatedSlotId q); [|done].
    by case_bool_decide. }
  assert (slotIds (zones (freeAllocatedSlot q S)) = slotIds (zones S)) as Hids.
  { unfold freeAllocatedSlot. destruct (allocatedSlotId q); [|done].
    case_bool_decide; [done|]. simpl. apply assign_zones_ids. }
  constructor; simpl; rewrite ?Hrq, ?Hh, ?Hids; try done.
  - intros k q0. rewrite lookup_insert. case_decide as Hk.
    + intros [= <-]. subst k. rewrite Hid. by apply Hkeys.
    + apply Hkeys.
  - intros k q0. rewrite lookup_insert. case_decide as Hk.
    + intros [= <-] ?. destruct Hq'; congruence.
    + apply Hreq.
  - intros k q0. rewrite lookup_insert. case_decide as Hk.
    + intros [= <-] [?|?]; destruct Hq'; congruence.
    + intros Hq0 Hh0.
      destruct (Hhold k q0 Hq0 Hh0) as (sid0 & zid0 & ? & ? & Hst & Hlast).
      exists sid0, zid0. split; [done|]. split; [done|]. split; [|done].
      unfold freeAllocatedSlot.
      destruct (allocatedSlotId q) as [sid|] eqn:Hsid; [|done].
      case_bool_decide; [done|]. simpl.
      rewrite slotStatus_assign, decide_False; [done|].
      intros ->. destruct Hstate as [Hr|Hho].
      * rewrite (Hreq rid q Hq Hr) in Hsid. discriminate.
      * destruct (Hhold rid q Hq Hho) as (sid' & ? & Hsid' & _ & _ & Hlast').
        rewrite Hsid in Hsid'. injection Hsid' as <-. congruence.
Qed.

Lemma Inv_release now rid S : Inv S -> Inv (snd (releaseSlot now rid S)).
Proof.
  intros HI. unfold releaseSlot.
  destruct (requests S !! rid) as [q|] eqn:Hq; [|done].
  destruct (canTransition (state q) RELEASED) eqn:Hc; simpl; [|done].
  apply canTransition_to_RELEASED in Hc.
  apply Inv_leave; try done.
  - right. by right.
  - by left.
Qed.

Lemma Inv_cancel rid S : Inv S -> Inv (snd (cancelRequest rid S)).
Proof.
  intros HI. unfold cancelRequest.
  destruct (requests S !! rid) as [q|] eqn:Hq; [|done].
  destruct (canTransition (state q) CANCELLED) eqn:Hc; simpl; [|done].
  apply canTransition_to_CANCELLED in Hc.
  apply Inv_leave; try done.
  - destruct Hc; [by left | right; by left].
  - by right.
Qed.

(** Popping and undoing the newest record. *)
Lemma Inv_undo S h o :
  Inv S -> operationHistory S = h ++ [o] -> Inv (undo o (withHistory h S)).
Proof.
  intros [Hnd Hkeys Hreq Hhold Hlog] Hh.
  rewrite Hh in Hlog. apply Forall_app in Hlog as [Hlog Ho].
  rewrite Forall_singleton in Ho.
  constructor.
  - by rewrite zones_undo, assign_zones_ids.
  - intros k q. rewrite requests_undo. simpl.
    destruct (requests S !! op_requestId o) as [qo|] eqn:Hqo; [|apply Hkeys].
    rewrite lookup_insert. case_decide as Hk; [|apply Hkeys].
    intros [= <-]. subst k.
    replace (req_id (restoredRequest o qo)) with (req_id qo)
      by (unfold restoredRequest; by destruct (previousRequestState o)).
    by apply Hkeys.
  - intros k q. rewrite requests_undo. simpl.
    destruct (requests S !! op_requestId o) as [qo|] eqn:Hqo; [|apply Hreq].
    rewrite lookup_insert. case_decide as Hk; [|apply Hreq].
    intros [= <-] _. unfold restoredRequest. by rewrite Ho.
  - intros k q Hq Hho.
    assert (requests S !! k = Some q /\ k <> op_requestId o) as [Hq' Hk].
    { rewrite requests_undo in Hq. simpl in Hq.
      destruct (requests S !! op_requestId o) as [qo|] eqn:Hqo.
      - rewrite lookup_insert in Hq. case_decide as Hk.
        + injection Hq as <-. unfold restoredRequest in Hho.
          rewrite Ho in Hho. destruct Hho; discriminate.
        + split; [done | congruence].
      - split; [done|]. intros ->. congruence. }
    destruct (Hhold k q Hq' Hho) as (sid & zid & ? & ? & Hst & Hlast).
    rewrite Hh, lastOpOn_snoc in Hlast.
    case_decide as Hs; [congruence|].
    exists sid, zid. split; [done|]. split; [done|].
    rewrite zones_undo, history_undo. simpl. split; [|done].
    by rewrite slotStatus_assign, decide_False.
  - by rewrite history_undo.
Qed.

Lemma Inv_undoLast m S : Inv S -> Inv (undoLast m S).
Proof.
  revert S. induction m as [|m IH]; intros S HI; simpl; [done|].
  destruct (operationHistory S) as [|x h] eqn:Hh using rev_ind; [done|].
  rewrite history_pop_snoc. apply IH. by apply Inv_undo.
Qed.

Lemma Inv_rollback k S : Inv S -> Inv (snd (rollback k S)).
Proof. intros HI. rewrite rollback_run. simpl. by apply Inv_undoLast. Qed.

Lemma Inv_step op S : Inv S -> Inv (step op S).
Proof.
  destruct op; simpl.
  - apply Inv_create.
  - apply Inv_allocate.
  - apply Inv_occupy.
  - apply Inv_release.
  - apply Inv_cancel.
  - apply Inv_rollback.
Qed.

Lemma Inv_run ops S : Inv S -> Inv (run ops S).
Proof.
  revert S. induction ops as [|op ops IH]; intros S HI; simpl; [done|].
  apply IH. by apply Inv_step.
Qed.

Lemma addVehicle_fold_fields (vs : list Vehicle) S :
  let T := fold_left (fun T v => addVehicle v T) vs S in
  zones T = zones S /\ requests T = requests S
  /\ operationHistory T = operationHistory S.
Proof.
  revert S. induction vs as [|v vs IH]; intros S; simpl; [done|].
  apply (IH (addVehicle v S)).
Qed.

Lemma addZone_fold_fields (zs : list Zone) S :
  let T := fold_left (fun T z => addZone z T) zs S in
  requests T = requests S /\ operationHistory T = operationHistory S.
Proof.
  revert S. induction zs as [|z zs IH]; intros S; simpl; [done|].
  apply (IH (addZone z S)).
Qed.

(** A freshly loaded topology with unique slot ids satisfies the
    invariant: there is no request and no log record yet. *)
Lemma Inv_loadTopology (zs : list Zone) (vs : list Vehicle) :
  NoDup (slotIds (zones (loadTopology zs vs))) -> Inv (loadTopology zs vs).
Proof.
  intros Hnd.
  assert (requests (loadTopology zs vs) = ∅
          /\ operationHistory (loadTopology zs vs) = []) as [Hr Hh].
  { unfold loadTopology.
    destruct (addVehicle_fold_fields vs
                (fold_left (fun T z => addZone z T) zs (newParkingSystem None)))
      as (_ & -> & ->).
    by destruct (addZone_fold_fields zs (newParkingSystem None)) as (-> & ->). }
  constructor; [done|..]; rewrite ?Hr, ?Hh; try done.
Qed.

End Invariant.

(** C3. Starting from a loaded topology (slot ids unique, as the data model
    requires) and after any sequence of createRequest, allocate, occupy,
    release, cancel and rollback: every request that is ALLOCATED or OCCUPIED
    has a non-null allocatedSlotId and allocatedZoneId, the slot it refers to
    is unavailable, and no two such requests refer to the same slot. *)
Theorem C3_allocation_invariant
    (zs : list Zone) (vs : list Vehicle) (ops : list FacadeOp) :
  NoDup (slotIds (zones (loadTopology zs vs))) ->
  let S := run ops (loadTopology zs vs) in
  (forall k q,
     requests S !! k = Some q ->
     state q = ALLOCATED \/ state q = OCCUPIED ->
     exists sid zid i,
       allocatedSlotId q = Some sid
       /\ allocatedZoneId q = Some zid
       /\ findSlot sid S = Some i
       /\ isAvailable (info_slot i) = false)
  /\ (forall k1 k2 q1 q2,
        k1 <> k2 ->
        requests S !! k1 = Some q1 ->
        requests S !! k2 = Some q2 ->
        state q1 = ALLOCATED \/ state q1 = OCCUPIED ->
        state q2 = ALLOCATED \/ state q2 = OCCUPIED ->
        allocatedSlotId q1 <> allocatedSlotId q2).
Proof.
  intros Hnd S.
  assert (Inv S) as [_ _ _ Hhold _]
    by (apply Inv_run; by apply Inv_loadTopology).
  split.
  - intros k q Hq Hst.
    destruct (Hhold k q Hq Hst) as (sid & zid & Hsid & Hzid & Hstat & _).
    rewrite slotStatus_findSlot in Hstat.
    destruct (findSlot sid S) as [i|] eqn:Hi; [|done].
    exists sid, zid, i. simpl in Hstat. by injection Hstat as ->.
  - intros k1 k2 q1 q2 Hne Hq1 Hq2 Hst1 Hst2 Heq.
    destruct (Hhold k1 q1 Hq1 Hst1) as (sid1 & _ & Hsid1 & _ & _ & Hl1).
    destruct (Hhold k2 q2 Hq2 Hst2) as (sid2 & _ & Hsid2 & _ & _ & Hl2).
    congruence.
Qed.

(** ** Rollback followed by re-allocation *)

Section Replay.

Implicit Types (S T : ParkingSystem) (q : ParkingRequest) (s : ParkingSlot).
Implicit Types (X : gset string) (m : gmap string ParkingRequest).
Implicit Types (reqs : list (AllocEnv * string)).

Lemma lookup_clearSet X m k :
  clearSet X m !! k
  = (fun q => if decide (k ∈ X) then clearedRequest q else q) <$> m !! k.
Proof. unfold clearSet. rewrite map_lookup_imap. by destruct (m !! k). Qed.

Lemma decide_in_add {A} (k rid : string) X (a b : A) :
  k <> rid ->
  (if decide (k ∈ {[rid]} ∪ X) then a else b)
  = (if decide (k ∈ X) then a else b).
Proof.
  intros Hne. destruct (decide (k ∈ X)) as [Hin|Hin].
  - apply decide_True. apply elem_of_union. by right.
  - apply decide_False. intros [Hc|Hc]%elem_of_union; [|done].
    by apply elem_of_singleton in Hc.
Qed.

Lemma decide_in_remove {A} (k rid : string) X (a b : A) :
  k <> rid ->
  (if decide (k ∈ X ∖ {[rid]}) then a else b)
  = (if decide (k ∈ X) then a else b).
Proof.
  intros Hne. destruct (decide (k ∈ X)) as [Hin|Hin].
  - apply decide_True. apply elem_of_difference. split; [done|].
    by intros Hc%elem_of_singleton.
  - apply decide_False. by intros [Hc _]%elem_of_difference.
Qed.

Lemma clearSet_empty m : clearSet ∅ m = m.
Proof.
  apply map_eq. intros k. rewrite lookup_clearSet.
  destruct (m !! k); simpl; [|done].
  by rewrite decide_False by apply not_elem_of_empty.
Qed.

Lemma clearedRequest_allocated e P c s q :
  clearedRequest (allocatedRequest e P c s q) = clearedRequest q.
Proof. done. Qed.

Lemma clearedRequest_twice q :
  clearedRequest (clearedRequest q) = clearedRequest q.
Proof. done. Qed.

Lemma restoredRequest_cleared o q :
  previousRequestState o = REQUESTED -> restoredRequest o q = clearedRequest q.
Proof. unfold restoredRequest. by intros ->. Qed.

(** The shape of a successful allocation. *)
Lemma allocateSlot_success e rid S r S' :
  allocateSlot e rid S = (r, S') -> success r = true ->
  exists q zsel z s l c,
    requests S !! rid = Some q
    /\ state q = REQUESTED
    /\ selectSlots (requestedZoneId q) S = (zsel, s :: l, c)
    /\ getZone zsel S = Some z
    /\ availableSlotsOf z = s :: l
    /\ S' = mkSystem (claim_zones zsel (zones S)) (vehicles S)
              (<[rid := allocatedRequest e (penalty S) c s q]> (requests S))
              (operationHistory S ++ [allocationRecord e s q])
              (pendingRequests S) (penalty S).
Proof.
  unfold allocateSlot.
  destruct (requests S !! rid) as [q|] eqn:Hq; [|by intros [= <- _]].
  destruct (canTransition (state q) ALLOCATED) eqn:Hc; simpl;
    [|by intros [= <- _]].
  apply canTransition_to_ALLOCATED in Hc.
  destruct (selectSlots (requestedZoneId q) S) as [[zsel [|s l]] c] eqn:Hsel;
    [by intros [= <- _]|].
  intros [= <- <-] _.
  pose proof (selectSlots_sound _ _ _ _ _ _ Hsel) as Hav.
  unfold getAvailableSlotsInZone in Hav.
  destruct (getZone zsel S) as [z|] eqn:Hz; [|done].
  by exists q, zsel, z, s, l, c.
Qed.

Lemma undoLast_add a b S : undoLast (a + b) S = undoLast b (undoLast a S).
Proof.
  revert S. induction a as [|a IH]; intros S; simpl; [done|].
  destruct (history_pop (operationHistory S)) as [[o h]|] eqn:Hp; [apply IH|].
  destruct b; simpl; [done|]. by rewrite Hp.
Qed.

Lemma firstAdjacent_zones S T adj :
  zones T = zones S ->
  firstAdjacentWithSlots T adj = firstAdjacentWithSlots S adj.
Proof.
  intros Hz. induction adj as [|a adj IH]; simpl; [done|].
  unfold getAvailableSlotsInZone, getZone. by rewrite Hz, IH.
Qed.

Lemma selectSlots_zones S T zid :
  zones T = zones S -> selectSlots zid T = selectSlots zid S.
Proof.
  intros Hz. unfold selectSlots, getAvailableSlotsInZone, getZone.
  rewrite Hz. destruct (List.find (zoneHasId zid) (zones S)) as [z|]; [|done].
  by rewrite (firstAdjacent_zones S T).
Qed.

(** Unique slot ids and request keys that are the requests' ids survive an
    allocation. *)
Lemma allocateSlot_wf e rid S r S' :
  NoDup (slotIds (zones S)) ->
  (forall k q, requests S !! k = Some q -> req_id q = k) ->
  allocateSlot e rid S = (r, S') -> success r = true ->
  NoDup (slotIds (zones S'))
  /\ (forall k q, requests S' !! k = Some q -> req_id q = k).
Proof.
  intros Hnd Hkeys Ha Hs.
  destruct (allocateSlot_success _ _ _ _ _ Ha Hs)
    as (q & zsel & z & s & l & c & Hq & Hst & Hsel & Hz & Hav & ->).
  destruct (selected_slot _ _ _ _ _ Hnd Hz Hav) as [_ Hclaim].
  simpl. split.
  - by rewrite Hclaim, assign_zones_ids.
  - intros k q0. rewrite lookup_insert. case_decide as Hk; [|apply Hkeys].
    intros [= <-]. subst k. simpl. by apply Hkeys.
Qed.

(** Undoing an allocation that was just made, over any set [X] of requests
    already cleared, gives back the state before it with its request
    cleared too. *)
Lemma allocate_then_undo e rid S r S' X :
  NoDup (slotIds (zones S)) ->
  (forall k q, requests S !! k = Some q -> req_id q = k) ->
  allocateSlot e rid S = (r, S') -> success r = true ->
  undoLast 1 (rolledBackTo X S') = rolledBackTo ({[rid]} ∪ X) S.
Proof.
  intros Hnd Hkeys Ha Hs.
  destruct (allocateSlot_success _ _ _ _ _ Ha Hs)
    as (q & zsel & z & s & l & c & Hq & Hst & Hsel & Hz & Hav & ->).
  destruct (selected_slot _ _ _ _ _ Hnd Hz Hav) as [Hfree Hclaim].
  assert (isAvailable s = true) as Hs_av.
  { rewrite availableSlotsOf_flat in Hav.
    by apply filter_head_elem in Hav as [_ ?]. }
  simpl. rewrite history_pop_snoc.
  unfold undo, setFoundSlot, rolledBackTo, withRequests, withHistory, withZones.
  simpl. rewrite (Hkeys _ _ Hq), Hs_av.
  rewrite lookup_clearSet, lookup_insert_eq. simpl.
  rewrite Hclaim, assign_zones_twice.
  rewrite assign_zones_same.
  2:{ intros s' Hs'. unfold slotStatus in Hfree. rewrite Hs' in Hfree.
      simpl in Hfree. congruence. }
  f_equal. apply map_eq. intros k.
  rewrite lookup_insert, !lookup_clearSet. case_decide as Hk.
  - subst k. rewrite Hq. simpl.
    destruct (decide (rid ∈ {[rid]} ∪ X)) as [_|Hn].
    2:{ exfalso. apply Hn, elem_of_union. left. by apply elem_of_singleton. }
    rewrite restoredRequest_cleared by (simpl; done). by case_decide.
  - rewrite lookup_insert_ne by done. destruct (requests S !! k); [|done].
    simpl. f_equal. symmetry. apply decide_in_add. congruence.
Qed.

Lemma rolledBackTo_empty S : rolledBackTo ∅ S = S.
Proof. unfold rolledBackTo. rewrite clearSet_empty. by destruct S. Qed.

(** Rolling back a batch of allocations that was just made clears exactly
    the batch's requests and restores everything else. *)
Lemma allocateAll_undoLast reqs S0 S :
  NoDup (slotIds (zones S0)) ->
  (forall k q, requests S0 !! k = Some q -> req_id q = k) ->
  allocateAll reqs S0 = Some S ->
  undoLast (length reqs) S = rolledBackTo (list_to_set reqs.*2) S0.
Proof.
  revert S0.
  induction reqs as [|[e rid] reqs IH]; intros S0 Hnd Hkeys Hall;
    simpl in Hall.
  - injection Hall as <-. simpl. by rewrite rolledBackTo_empty.
  - destruct (allocateSlot e rid S0) as [r S1] eqn:Ha.
    destruct (success r) eqn:Hs; [|done].
    destruct (allocateSlot_wf _ _ _ _ _ Hnd Hkeys Ha Hs) as [Hnd1 Hkeys1].
    replace (length ((e, rid) :: reqs)) with (length reqs + 1)%nat
      by (simpl; lia).
    rewrite undoLast_add, (IH S1 Hnd1 Hkeys1 Hall).
    rewrite fmap_cons, list_to_set_cons.
    by apply (allocate_then_undo e rid S0 r).
Qed.

(** A successful allocation succeeds alike, with the same result, when some
    requests have been cleared beforehand; afterwards the allocated request
    is no longer a cleared one. *)
Lemma allocateSlot_rolledBack e rid S r S' X :
  allocateSlot e rid S = (r, S') -> success r = true ->
  allocateSlot e rid (rolledBackTo X S) = (r, rolledBackTo (X ∖ {[rid]}) S').
Proof.
  intros Ha Hs.
  destruct (allocateSlot_success _ _ _ _ _ Ha Hs)
    as (q & zsel & z & s & l & c & Hq & Hst & Hsel & Hz & Hav & ->).
  revert Ha. unfold allocateSlot. simpl.
  rewrite lookup_clearSet, Hq. simpl.
  rewrite (selectSlots_zones S (rolledBackTo X S)) by done.
  replace (state (if decide (rid ∈ X) then clearedRequest q else q))
    with REQUESTED by (by case_decide).
  replace (requestedZoneId (if decide (rid ∈ X) then clearedRequest q else q))
    with (requestedZoneId q) by (by case_decide).
  rewrite Hst, Hsel. simpl. intros [= <-].
  replace (allocatedRequest e (penalty S) c s
             (if decide (rid ∈ X) then clearedRequest q else q))
    with (allocatedRequest e (penalty S) c s q) by (by case_decide).
  replace (allocationRecord e s
             (if decide (rid ∈ X) then clearedRequest q else q))
    with (allocationRecord e s q)
    by (case_decide; [|done]; unfold allocationRecord; simpl; by rewrite Hst).
  f_equal. unfold rolledBackTo, withRequests. simpl. f_equal.
  apply map_eq. intros k. rewrite lookup_insert, !lookup_clearSet.
  case_decide as Hk.
  - subst k. rewrite lookup_insert_eq. simpl.
    rewrite decide_False; [done|].
    intros [_ Hc]%elem_of_difference. apply Hc. by apply elem_of_singleton.
  - rewrite lookup_insert_ne by done. destruct (requests S !! k); [|done].
    simpl. f_equal. symmetry. apply decide_in_remove. congruence.
Qed.

Lemma allocateAll_rolledBack reqs S0 S X :
  X ⊆ list_to_set reqs.*2 ->
  allocateAll reqs S0 = Some S ->
  allocateAll reqs (rolledBackTo X S0) = Some S.
Proof.
  revert S0 X. induction reqs as [|[e rid] reqs IH]; intros S0 X HX; simpl.
  - intros [= <-]. replace X with (∅ : gset string).
    + by rewrite rolledBackTo_empty.
    + symmetry. apply leibniz_equiv, elem_of_equiv_empty. intros k Hk.
      by apply HX in Hk.
  - destruct (allocateSlot e rid S0) as [r S1] eqn:Ha.
    destruct (success r) eqn:Hs; [|done]. intros Hall.
    rewrite (allocateSlot_rolledBack _ _ _ _ _ X Ha Hs), Hs.
    apply IH; [|done]. intros k [Hk Hne]%elem_of_difference.
    apply HX in Hk. rewrite fmap_cons, list_to_set_cons in Hk.
    apply elem_of_union in Hk as [Hk|Hk]; [done|done].
Qed.

End Replay.

Section Readings.

Implicit Types (S T : ParkingSystem) (q : ParkingRequest).
Implicit Types (reqs : list (AllocEnv * string)).

Lemma eraseReadings_fields S T :
  eraseReadings T = eraseReadings S ->
  zones T = zones S /\ penalty T = penalty S
  /\ forall k, eraseAllocationTime <$> requests T !! k
               = eraseAllocationTime <$> requests S !! k.
Proof.
  unfold eraseReadings. intros [= Hz _ Hr _ _ Hp].
  split; [done|]. split; [done|]. intros k.
  by rewrite <- !lookup_fmap, Hr.
Qed.

(** An allocation does not read the clock readings stored in the state: on
    two states that differ only in them, and whatever its own readings, it
    succeeds alike and leaves states that differ only in them. *)
Lemma allocateSlot_readings e e' rid S T r S' :
  eraseReadings T = eraseReadings S ->
  allocateSlot e rid S = (r, S') -> success r = true ->
  exists r' T',
    allocateSlot e' rid T = (r', T') /\ success r' = true
    /\ eraseReadings T' = eraseReadings S'.
Proof.
  intros Heq Ha Hs.
  destruct (allocateSlot_success _ _ _ _ _ Ha Hs)
    as (q & zsel & z & s & l & c & Hq & Hst & Hsel & Hz & Hav & ->).
  destruct (eraseReadings_fields _ _ Heq) as (Hzs & Hp & Hrq).
  specialize (Hrq rid). rewrite Hq in Hrq.
  destruct (requests T !! rid) as [qT|] eqn:HqT; [|done].
  simpl in Hrq.
  injection Hrq as Hid Hvid Hzid Hsid Hazid Hstate Hrt Hot Hrelt Hcz Hpen.
  assert (state qT = state q /\ requestedZoneId qT = requestedZoneId q
          /\ allocatedRequest e' (penalty T) c s qT
               = allocatedRequest e' (penalty S) c s q
          /\ allocationRecord e' s qT = allocationRecord e' s q)
    as (HstT & HzidT & HqT' & HoT).
  { unfold allocatedRequest, allocationRecord.
    by rewrite Hp, Hid, Hvid, Hzid, Hstate, Hrt, Hot, Hrelt. }
  unfold allocateSlot. rewrite HqT, HstT, Hst. simpl.
  rewrite HzidT, (selectSlots_zones S T) by done. rewrite Hsel.
  eexists _, _. split; [reflexivity|]. split; [done|].
  unfold eraseReadings in *. simpl.
  injection Heq as Hz' Hv' Hr' Hh' Hpe' Hpn'.
  unfold history_push. rewrite !fmap_insert, !fmap_app, Hr', Hh', Hz', Hv'.
  rewrite HqT', HoT, Hpe', Hpn'. done.
Qed.

Lemma allocateAll_readings reqs reqs' S T S' :
  reqs'.*2 = reqs.*2 ->
  eraseReadings T = eraseReadings S ->
  allocateAll reqs S = Some S' ->
  exists T', allocateAll reqs' T = Some T'
             /\ eraseReadings T' = eraseReadings S'.
Proof.
  revert reqs' S T.
  induction reqs as [|[e rid] reqs IH]; intros [|[e' rid'] reqs'] S T Hids Heq;
    simpl in *; try done.
  - intros [= <-]. by exists T.
  - injection Hids as -> Hids.
    destruct (allocateSlot e rid S) as [r S1] eqn:Ha.
    destruct (success r) eqn:Hs; [|done]. intros Hall.
    destruct (allocateSlot_readings e e' rid S T r S1 Heq Ha Hs)
      as (r' & T1 & -> & -> & Heq1).
    by apply (IH reqs' S1 T1).
Qed.

Lemma allocateAll_history reqs S0 S :
  allocateAll reqs S0 = Some S ->
  length (operationHistory S)
  = (length (operationHistory S0) + length reqs)%nat.
Proof.
  revert S0. induction reqs as [|[e rid] reqs IH]; intros S0; simpl.
  - intros [= <-]. lia.
  - destruct (allocateSlot e rid S0) as [r S1] eqn:Ha.
    destruct (success r) eqn:Hs; [|done]. intros Hall.
    rewrite (IH _ Hall).
    destruct (allocateSlot_success _ _ _ _ _ Ha Hs)
      as (q & zsel & z & s & l & c & _ & _ & _ & _ & _ & ->).
    simpl. rewrite length_app. simpl. lia.
Qed.

End Readings.

(** C8, as the code has it.  Take a state with unique slot ids in which
    every request is stored under its own id, make k allocations in a row,
    all successful, and call rollback(k) straight away.  Then rollback undoes
    exactly those k allocations: slot availability and the log are as they
    were before the first of them.  Re-running the same k allocations in the
    same order, with the same clock and random readings, yields the
    pre-rollback state again, whole; with other readings it yields a state
    that differs from it only in those readings (allocationTime of the
    requests, id and timestamp of the log records). *)
Theorem C8_rollback_then_replay
    (S0 S : ParkingSystem) (reqs reqs' : list (AllocEnv * string)) :
  NoDup (slotIds (zones S0)) ->
  (forall k q, requests S0 !! k = Some q -> req_id q = k) ->
  allocateAll reqs S0 = Some S ->
  reqs'.*2 = reqs.*2 ->
  let k := Z.of_nat (length reqs) in
  let R := snd (rollback k S) in
  rolledBack (fst (rollback k S)) = k
  /\ zones R = zones S0
  /\ operationHistory R = operationHistory S0
  /\ allocateAll reqs R = Some S
  /\ exists S',
       allocateAll reqs' R = Some S'
       /\ eraseReadings S' = eraseReadings S
       /\ zones S' = zones S
       /\ (forall rid,
             eraseAllocationTime <$> requests S' !! rid
             = eraseAllocationTime <$> requests S !! rid).
Proof.
  intros Hnd Hkeys Hall Hids k R.
  pose proof (allocateAll_history _ _ _ Hall) as Hlen.
  assert (rollback k S
          = (mkRollbackResult true
               ("Rolled back " +:+ pretty k +:+ " operation(s)") k,
             rolledBackTo (list_to_set reqs.*2) S0)) as Hrb.
  { rewrite rollback_run. unfold k. rewrite Nat2Z.id.
    replace (Nat.min (length reqs) (length (operationHistory S)))
      with (length reqs) by lia.
    cbv zeta. by rewrite (allocateAll_undoLast _ _ _ Hnd Hkeys Hall). }
  unfold R. rewrite Hrb. simpl.
  split; [done|]. split; [done|]. split; [done|].
  assert (allocateAll reqs (rolledBackTo (list_to_set reqs.*2) S0) = Some S)
    as Hre by by apply allocateAll_rolledBack.
  split; [done|].
  destruct (allocateAll_readings reqs reqs' _ _ _ Hids eq_refl Hre)
    as (S' & HS' & Heq).
  exists S'. split; [done|]. split; [done|].
  by destruct (eraseReadings_fields _ _ Heq) as (? & _ & ?).
Qed.

Lemma C8_rollback_then_replay_witness :
  let reqs := [(Scenario.ae1, Scenario.r1); (Scenario.ae2, Scenario.r2)] in
  let reqs' := [(Scenario.ae1', Scenario.r1); (Scenario.ae2', Scenario.r2)] in
  let S0 := Scenario.twoRequests in
  let S := Scenario.twoAllocated in
  let R := snd (rollback 2 S) in
  rolledBack (fst (rollback 2 S)) = 2
  /\ zones R = zones S0
  /\ operationHistory R = operationHistory S0
  /\ allocateAll reqs R = Some S
  /\ exists S',
       allocateAll reqs' R = Some S'
       /\ eraseReadings S' = eraseReadings S
       /\ zones S' = zones S
       /\ (forall rid,
             eraseAllocationTime <$> requests S' !! rid
             = eraseAllocationTime <$> requests S !! rid).
Proof.
  intros reqs reqs' S0 S.
  apply (C8_rollback_then_replay S0 S reqs reqs').
  - apply (bool_decide_unpack _). vm_compute. exact I.
  - intros k q. unfold S0, Scenario.twoRequests, Scenario.sameZone. simpl.
    rewrite !lookup_insert. repeat case_decide; try (by intros [= <-]).
  - vm_compute. reflexivity.
  - reflexivity.
Defined.

(** C8, as stated, fails.  Two requests are allocated the two slots of a
    zone, in order, and the first request is then cancelled, which frees the
    first slot.  Rolling back one operation undoes the second allocation;
    the second request is REQUESTED again and its slot is free, so re-running
    its allocation is legal.  The re-run takes the first slot of the zone, so
    both slots and the request differ from the pre-rollback state. *)
Lemma C8_replay_differs :
  let S := Scenario.firstCancelled in
  let R := snd (rollback 1 S) in
  let '(r, S') := allocateSlot Scenario.ae2 Scenario.r2 R in
  (allocatedSlotId <$> requests S !! Scenario.r2) = Some (Some "slot-a1-2")
  /\ (state <$> requests R !! Scenario.r2) = Some REQUESTED
  /\ (isAvailable ∘ info_slot <$> findSlot "slot-a1-2" R) = Some true
  /\ success r = true
  /\ (isAvailable ∘ info_slot <$> findSlot "slot-a1-1" S) = Some true
  /\ (isAvailable ∘ info_slot <$> findSlot "slot-a1-1" S') = Some false
  /\ (isAvailable ∘ info_slot <$> findSlot "slot-a1-2" S) = Some false
  /\ (isAvailable ∘ info_slot <$> findSlot "slot-a1-2" S') = Some true
  /\ (allocatedSlotId <$> requests S' !! Scenario.r2) = Some (Some "slot-a1-1").
Proof. vm_compute. repeat split. Qed.

Lemma C3_allocation_invariant_witness :
  let S := Scenario.firstCancelled in
  (forall k q,
     requests S !! k = Some q ->
     state q = ALLOCATED \/ state q = OCCUPIED ->
     exists sid zid i,
       allocatedSlotId q = Some sid
       /\ allocatedZoneId q = Some zid
       /\ findSlot sid S = Some i
       /\ isAvailable (info_slot i) = false)
  /\ (forall k1 k2 q1 q2,
        k1 <> k2 ->
        requests S !! k1 = Some q1 ->
        requests S !! k2 = Some q2 ->
        state q1 = ALLOCATED \/ state q1 = OCCUPIED ->
        state q2 = ALLOCATED \/ state q2 = OCCUPIED ->
        allocatedSlotId q1 <> allocatedSlotId q2).
Proof.
  apply (C3_allocation_invariant [Scenario.zoneA] [Scenario.v1]
           [CreateRequest Scenario.ce1 "v1" "zone-a";
            CreateRequest Scenario.ce2 "v1" "zone-a";
            Allocate Scenario.ae1 Scenario.r1;
            Allocate Scenario.ae2 Scenario.r2; Cancel Scenario.r1]).
  apply (bool_decide_unpack _). vm_compute. exact I.
Defined.

(** Unique slot ids are needed for C3: when two slots of a zone share an id,
    two requests end up ALLOCATED with the same allocatedSlotId. *)
Example duplicate_slot_ids_break_exclusivity :
  let S := run [CreateRequest Scenario.ce1 "v1" "zone-a";
                CreateRequest Scenario.ce2 "v1" "zone-a";
                Allocate Scenario.ae1 Scenario.r1;
                Allocate Scenario.ae2 Scenario.r2]
               (loadTopology [Scenario.zoneDup] [Scenario.v1]) in
  (state <$> requests S !! Scenario.r1) = Some ALLOCATED
  /\ (state <$> requests S !! Scenario.r2) = Some ALLOCATED
  /\ (allocatedSlotId <$> requests S !! Scenario.r1) = Some (Some "slot-a1-1")
  /\ (allocatedSlotId <$> requests S !! Scenario.r2) = Some (Some "slot-a1-1").
Proof. vm_compute. repeat split. Qed.

(** * Further properties of the engine *)

(** ** Topology queries *)

Section TopologyQueries.

Implicit Types (S : ParkingSystem) (s : ParkingSlot) (a : ParkingArea).
Implicit Types (z : Zone) (zs : list Zone) (sid zid : string).

Lemma findSlot_areas_found sid z l i :
  findSlot_areas sid z l = Some i ->
  slot_id (info_slot i) = sid /\ info_slot i ∈ slots (info_area i)
  /\ info_area i ∈ l /\ info_zone i = z.
Proof.
  induction l as [|a l IH]; simpl; [done|].
  destruct (List.find (slotHasId sid) (slots a)) as [s|] eqn:E.
  - intros [= <-]. simpl. apply find_slot_Some in E as [Hin Hid].
    repeat split; try done. apply elem_of_cons. by left.
  - intros H. destruct (IH H) as (? & ? & ? & ?).
    repeat split; try done. apply elem_of_cons. by right.
Qed.

Lemma findSlot_zones_found sid zs i :
  findSlot_zones sid zs = Some i ->
  slot_id (info_slot i) = sid /\ info_slot i ∈ slots (info_area i)
  /\ info_area i ∈ areas (info_zone i) /\ info_zone i ∈ zs.
Proof.
  induction zs as [|z zs IH]; simpl; [done|].
  destruct (findSlot_areas sid z (areas z)) as [i'|] eqn:E.
  - intros [= <-]. apply findSlot_areas_found in E as (? & ? & ? & ->).
    repeat split; try done. apply elem_of_cons. by left.
  - intros H. destruct (IH H) as (? & ? & ? & ?).
    repeat split; try done. apply elem_of_cons. by right.
Qed.

(** X1. [findSlot] is a sound and complete search: what it returns is a slot
    with the id asked for, inside the area it returns, inside the zone it
    returns, which is a zone of the system; the slot is the first one with
    that id in declared order; and it returns nothing exactly when no slot of
    the topology has the id. *)
Theorem X1_findSlot_sound_complete (S : ParkingSystem) (sid : string) :
  (forall i, findSlot sid S = Some i ->
     slot_id (info_slot i) = sid
     /\ info_slot i ∈ slots (info_area i)
     /\ info_area i ∈ areas (info_zone i)
     /\ info_zone i ∈ zones S)
  /\ info_slot <$> findSlot sid S
     = List.find (slotHasId sid) (allSlots (zones S))
  /\ (findSlot sid S = None <-> sid ∉ slotIds (zones S)).
Proof.
  split; [intros i; apply findSlot_zones_found|].
  split; [apply findSlot_zones_flat|].
  unfold findSlot, slotIds. rewrite <- find_slot_None, <- findSlot_zones_flat.
  by destruct (findSlot_zones sid (zones S)).
Qed.

Lemma find_zones_set zid z zs :
  List.find (zoneHasId zid) (zones_set z zs)
  = if decide (zid = zone_id z) then Some z
    else List.find (zoneHasId zid) zs.
Proof.
  induction zs as [|z' zs IH]; simpl.
  - unfold zoneHasId. destruct (decide (zid = zone_id z)) as [->|Hd].
    + by rewrite bool_decide_eq_true_2.
    + by rewrite bool_decide_eq_false_2 by congruence.
  - unfold zoneHasId in *.
    destruct (decide (zone_id z' = zone_id z)) as [Hz|Hz].
    + rewrite (bool_decide_eq_true_2 _ Hz). simpl.
      destruct (decide (zid = zone_id z)) as [->|Hd].
      * by rewrite bool_decide_eq_true_2.
      * by rewrite !bool_decide_eq_false_2 by congruence.
    + rewrite (bool_decide_eq_false_2 _ Hz). simpl. rewrite IH.
      destruct (decide (zid = zone_id z)) as [->|Hd]; [|done].
      by rewrite bool_decide_eq_false_2.
Qed.

Lemma zones_set_ids z zs :
  map zone_id (zones_set z zs)
  = if bool_decide (zone_id z ∈ map zone_id zs) then map zone_id zs
    else map zone_id zs ++ [zone_id z].
Proof.
  induction zs as [|z' zs IH]; simpl; [done|].
  unfold zoneHasId.
  destruct (decide (zone_id z' = zone_id z)) as [Hz|Hz].
  - rewrite (bool_decide_eq_true_2 _ Hz). simpl.
    rewrite bool_decide_eq_true_2; [by rewrite Hz|].
    apply elem_of_cons. by left.
  - rewrite (bool_decide_eq_false_2 _ Hz). simpl. rewrite IH.
    destruct (decide (zone_id z ∈ map zone_id zs)) as [Hin|Hin].
    + rewrite (bool_decide_eq_true_2 _ Hin).
      rewrite bool_decide_eq_true_2; [done|]. apply elem_of_cons. by right.
    + rewrite (bool_decide_eq_false_2 _ Hin).
      rewrite bool_decide_eq_false_2; [done|].
      intros [?|?]%elem_of_cons; congruence.
Qed.

Lemma find_zone_None zid zs :
  List.find (zoneHasId zid) zs = None <-> zid ∉ map zone_id zs.
Proof.
  induction zs as [|z' zs IH]; simpl.
  - split; [intros _; apply not_elem_of_nil | done].
  - unfold zoneHasId at 1. rewrite not_elem_of_cons.
    case_bool_decide; split; try done; try tauto.
    + intros [? _]. congruence.
    + intros ?. split; [congruence | tauto].
Qed.

Lemma zones_set_absent z zs :
  zone_id z ∉ map zone_id zs -> zones_set z zs = zs ++ [z].
Proof.
  induction zs as [|z' zs IH]; simpl; [done|].
  intros [Hne Hz]%not_elem_of_cons.
  unfold zoneHasId. rewrite bool_decide_eq_false_2 by congruence.
  by rewrite IH.
Qed.

(** X2. [addZone] stores the zone under its id: the zone is what [getZone]
    then returns for that id, and every other id is answered as before.
    Re-adding an id replaces the zone where it stands, so the sequence of
    zone ids is unchanged; a new id goes to the end; and ids that were
    unique stay unique. *)
Theorem X2_addZone_getZone (S : ParkingSystem) (z : Zone) :
  getZone (zone_id z) (addZone z S) = Some z
  /\ (forall zid, zid <> zone_id z ->
        getZone zid (addZone z S) = getZone zid S)
  /\ (is_Some (getZone (zone_id z) S) ->
      map zone_id (zones (addZone z S)) = map zone_id (zones S))
  /\ (getZone (zone_id z) S = None ->
      zones (addZone z S) = zones S ++ [z])
  /\ (NoDup (map zone_id (zones S)) ->
      NoDup (map zone_id (zones (addZone z S)))).
Proof.
  unfold getZone, addZone. simpl.
  split; [by rewrite find_zones_set, decide_True|].
  split; [intros zid Hne; by rewrite find_zones_set, decide_False|].
  split; [|split].
  - intros [z' Hz']. rewrite zones_set_ids, bool_decide_eq_true_2; [done|].
    destruct (decide (zone_id z ∈ map zone_id (zones S))) as [|Hn]; [done|].
    apply find_zone_None in Hn. congruence.
  - intros Hz. by apply zones_set_absent, find_zone_None.
  - intros Hnd. rewrite zones_set_ids. case_bool_decide as Hin; [done|].
    apply NoDup_app. split; [done|]. split.
    + intros x Hx [->|Hc%elem_of_nil]%elem_of_cons; done.
    + apply NoDup_singleton.
Qed.

Lemma length_filter_le {A} (f : A -> bool) (l : list A) :
  (length (List.filter f l) <= length l)%nat.
Proof.
  induction l as [|x l IH]; simpl; [lia|]. destruct (f x); simpl; lia.
Qed.

Lemma available_le_total S zid :
  0 <= Z.of_nat (length (getAvailableSlotsInZone zid S))
  <= getTotalSlotsInZone zid S.
Proof.
  unfold getAvailableSlotsInZone, getTotalSlotsInZone.
  destruct (getZone zid S) as [z|]; [|simpl; lia].
  rewrite availableSlotsOf_flat, total_slots_fold.
  pose proof (length_filter_le isAvailable (slotsOf z)).
  unfold slotsOf in *. lia.
Qed.

(** X3. The available-slots query returns exactly the available slots of the
    zone stored under the id, in declared order, so never more of them than
    the total-slots query counts. *)
Theorem X3_available_within_total (S : ParkingSystem) (zid : string) :
  (forall s, s ∈ getAvailableSlotsInZone zid S <->
     exists z, getZone zid S = Some z /\ s ∈ slotsOf z /\ isAvailable s = true)
  /\ (forall z, getZone zid S = Some z ->
        getAvailableSlotsInZone zid S = List.filter isAvailable (slotsOf z)
        /\ getTotalSlotsInZone zid S = Z.of_nat (length (slotsOf z)))
  /\ 0 <= Z.of_nat (length (getAvailableSlotsInZone zid S))
     <= getTotalSlotsInZone zid S.
Proof.
  unfold getAvailableSlotsInZone, getTotalSlotsInZone.
  destruct (getZone zid S) as [z|] eqn:Hz.
  - rewrite availableSlotsOf_flat, total_slots_fold. split; [|split].
    + intros s. rewrite list_elem_of_In, List.filter_In, <- list_elem_of_In.
      split.
      * intros [? ?]. by exists z.
      * by intros (z' & [= <-] & ? & ?).
    + by intros z' [= <-].
    + pose proof (available_le_total S zid) as H.
      unfold getAvailableSlotsInZone, getTotalSlotsInZone in H.
      by rewrite Hz, availableSlotsOf_flat, total_slots_fold in H.
  - split; [|split].
    + intros s. split; [by intros ?%elem_of_nil | by intros (? & ? & _)].
    + done.
    + simpl. lia.
Qed.

End TopologyQueries.

(** ** Bounds of the zone utilization *)

Section UtilizationBounds.

Implicit Types (S : ParkingSystem) (z : Zone).

Lemma utilizationOf_bounds S z :
  (0 <= utilizationOf S z <= 100)%Q.
Proof.
  unfold utilizationOf.
  pose proof (available_le_total S (zone_id z)) as Hle.
  set (t := getTotalSlotsInZone (zone_id z) S) in *.
  set (a := Z.of_nat (length (getAvailableSlotsInZone (zone_id z) S))) in *.
  case_bool_decide as Hpos; [|split; [apply Qle_refl | done]].
  apply percentage_range; lia.
Qed.

Lemma zoneUtilization_fold_inv S (zs : list Zone) (m : gmap string Q) zid u :
  fold_left (fun m z => recordSet (zone_id z) (utilizationOf S z) m) zs m
    !! zid = Some u ->
  (exists z, z ∈ zs /\ zone_id z = zid /\ zid <> "__proto__"
             /\ u = utilizationOf S z)
  \/ m !! zid = Some u.
Proof.
  induction zs as [|z zs IH] using rev_ind; [by right|].
  rewrite fold_left_app. simpl. unfold recordSet at 1.
  assert (forall H : fold_left
                       (fun m z => recordSet (zone_id z) (utilizationOf S z) m)
                       zs m !! zid = Some u,
            (exists z0, z0 ∈ zs ++ [z] /\ zone_id z0 = zid
                        /\ zid <> "__proto__" /\ u = utilizationOf S z0)
            \/ m !! zid = Some u) as Hrest.
  { intros H. destruct (IH H) as [(z' & ? & ? & ? & ?)|?]; [|by right].
    left. exists z'. split; [|done]. apply elem_of_app. by left. }
  case_decide as Hp; [done|].
  rewrite lookup_insert. case_decide as Hd; [|done].
  intros [= <-]. left. exists z. split; [|split; [done|split; [congruence|done]]].
  apply elem_of_app. right. by apply list_elem_of_singleton.
Qed.

End UtilizationBounds.

(** X4. The utilization record has an entry for exactly the zone ids of the
    topology other than "__proto__" (an assignment under that key creates no
    property), and every entry, a double, lies between 0 and 100. *)
Theorem X4_zoneUtilization_range (S : ParkingSystem) :
  (forall zid,
     is_Some (zoneUtilization S !! zid)
     <-> is_Some (getZone zid S) /\ zid <> "__proto__")
  /\ (forall zid u, zoneUtilization S !! zid = Some u -> (0 <= u <= 100)%Q).
Proof.
  split.
  - intros zid. split.
    + intros [u Hu]. apply zoneUtilization_fold_inv in Hu
        as [(z & Hin & Hid & Hp & _)|Hu]; [|by rewrite lookup_empty in Hu].
      split; [|done]. unfold getZone.
      destruct (List.find (zoneHasId zid) (zones S)) eqn:E; [done|].
      apply find_zone_None in E. exfalso. apply E. rewrite <- Hid.
      by apply list_elem_of_fmap_2.
    + intros [[z Hz] Hp]. pose proof (getZone_id _ _ _ Hz) as <-.
      exists (utilizationOf S z). apply zoneUtilization_fold; [|done].
      apply List.find_some in Hz as [Hz _]. by apply list_elem_of_In.
  - intros zid u Hu. apply zoneUtilization_fold_inv in Hu
      as [(z & _ & _ & _ & ->)|Hu]; [|by rewrite lookup_empty in Hu].
    apply utilizationOf_bounds.
Qed.

(** ** Creating and allocating *)

Section CreateAllocate.

Implicit Types (S : ParkingSystem) (q : ParkingRequest) (s : ParkingSlot).

Lemma createRequest_fields ce vid zid S :
  let '(r, S1) := createRequest ce vid zid S in
  r = mkRequest (requestIdOf ce) vid zid None None REQUESTED
                (ce_requestTime ce) None None None false 0
  /\ requests S1 = <[requestIdOf ce := r]> (requests S)
  /\ zones S1 = zones S
  /\ operationHistory S1 = operationHistory S
  /\ pendingRequests S1 = enqueue (requestIdOf ce) (pendingRequests S).
Proof. done. Qed.

(** Where a selection comes from: the requested zone itself, or, only when
    that zone has nothing available, the first zone of its adjacency list
    that has. *)
Lemma selectSlots_origin zid S zsel s l c :
  selectSlots zid S = (zsel, s :: l, c) ->
  getAvailableSlotsInZone zsel S = s :: l
  /\ ((c = false /\ zsel = zid)
      \/ (c = true /\ getAvailableSlotsInZone zid S = []
          /\ exists z before after,
               getZone zid S = Some z
               /\ adjacentZones z = before ++ zsel :: after
               /\ forall x, x ∈ before -> getAvailableSlotsInZone x S = [])).
Proof.
  intros Hsel. split; [by eapply selectSlots_sound|].
  revert Hsel. unfold selectSlots.
  destruct (getAvailableSlotsInZone zid S) as [|s0 l0] eqn:E.
  2:{ intros [= <- <- <- <-]. by left. }
  destruct (getZone zid S) as [z|] eqn:Hz; [|done].
  destruct (firstAdjacentWithSlots S (adjacentZones z)) as [[a l']|] eqn:F;
    [|done].
  intros [= <- -> <-]. right. split; [done|]. split; [done|].
  exists z. clear Hz E.
  induction (adjacentZones z) as [|x adj IH]; simpl in F; [done|].
  destruct (getAvailableSlotsInZone x S) as [|s1 l1] eqn:Ex.
  - destruct (IH F) as (before & after & _ & -> & Hb).
    exists (x :: before), after. split; [done|]. split; [done|].
    intros y [->|Hy]%elem_of_cons; [done | by apply Hb].
  - injection F as <- _. exists [], adj. split; [done|]. split; [done|].
    by intros y ?%elem_of_nil.
Qed.

End CreateAllocate.

(** X5. A successful allocation is local and greedy.  The request was
    REQUESTED; the slot it gets is the first available slot, in declared
    order, of one zone, and that slot was free.  That zone is the requested
    zone, in which case the request is not flagged cross-zone; or the
    requested zone had nothing available and the zone is the first one of its
    adjacency list with an available slot, in which case the request is
    flagged cross-zone.  No zone further away is ever used.  The log grows by
    exactly one record, which saves the slot as free and the request as
    REQUESTED, and no other request changes. *)
Theorem X5_allocation_is_local
    (e : AllocEnv) (rid : string) (S S' : ParkingSystem) (r : OpResult) :
  allocateSlot e rid S = (r, S') ->
  success r = true ->
  exists q q' zsel s l o,
    requests S !! rid = Some q /\ state q = REQUESTED
    /\ getAvailableSlotsInZone zsel S = s :: l
    /\ isAvailable s = true
    /\ ((isCrossZone q' = false /\ zsel = requestedZoneId q)
        \/ (isCrossZone q' = true
            /\ getAvailableSlotsInZone (requestedZoneId q) S = []
            /\ exists z before after,
                 getZone (requestedZoneId q) S = Some z
                 /\ adjacentZones z = before ++ zsel :: after
                 /\ forall x, x ∈ before ->
                      getAvailableSlotsInZone x S = []))
    /\ requests S' !! rid = Some q'
    /\ state q' = ALLOCATED
    /\ allocatedSlotId q' = Some (slot_id s)
    /\ (forall rid', rid' <> rid -> requests S' !! rid' = requests S !! rid')
    /\ operationHistory S' = operationHistory S ++ [o]
    /\ op_requestId o = req_id q /\ op_slotId o = slot_id s
    /\ previousSlotState o = true /\ previousRequestState o = REQUESTED.
Proof.
  intros Ha Hs.
  destruct (allocateSlot_success _ _ _ _ _ Ha Hs)
    as (q & zsel & z & s & l & c & Hq & Hst & Hsel & Hz & Hav & ->).
  destruct (selectSlots_origin _ _ _ _ _ _ Hsel) as [Hhead Horigin].
  assert (isAvailable s = true) as Hfree.
  { rewrite availableSlotsOf_flat in Hav.
    by apply filter_head_elem in Hav as [_ ?]. }
  exists q, (allocatedRequest e (penalty S) c s q), zsel, s, l,
    (allocationRecord e s q). simpl.
  split; [done|]. split; [done|]. split; [done|]. split; [done|].
  split.
  { destruct Horigin as [[-> ->]|(-> & ? & ?)]; [by left | by right]. }
  rewrite lookup_insert_eq.
  repeat (split; [done|]).
  split; [intros rid' Hne; by rewrite lookup_insert_ne|].
  by rewrite Hst, Hfree.
Qed.

Lemma X5_allocation_is_local_witness :
  exists q q' zsel s l o,
    requests Scenario.crossZone !! Scenario.r1 = Some q
    /\ state q = REQUESTED
    /\ getAvailableSlotsInZone zsel Scenario.crossZone = s :: l
    /\ isAvailable s = true
    /\ ((isCrossZone q' = false /\ zsel = requestedZoneId q)
        \/ (isCrossZone q' = true
            /\ getAvailableSlotsInZone (requestedZoneId q) Scenario.crossZone
               = []
            /\ exists z before after,
                 getZone (requestedZoneId q) Scenario.crossZone = Some z
                 /\ adjacentZones z = before ++ zsel :: after
                 /\ forall x, x ∈ before ->
                      getAvailableSlotsInZone x Scenario.crossZone = []))
    /\ requests (snd (allocateSlot Scenario.ae1 Scenario.r1
                        Scenario.crossZone)) !! Scenario.r1 = Some q'
    /\ state q' = ALLOCATED
    /\ allocatedSlotId q' = Some (slot_id s)
    /\ (forall rid', rid' <> Scenario.r1 ->
          requests (snd (allocateSlot Scenario.ae1 Scenario.r1
                           Scenario.crossZone)) !! rid'
          = requests Scenario.crossZone !! rid')
    /\ operationHistory (snd (allocateSlot Scenario.ae1 Scenario.r1
                                Scenario.crossZone))
       = operationHistory Scenario.crossZone ++ [o]
    /\ op_requestId o = req_id q /\ op_slotId o = slot_id s
    /\ previousSlotState o = true /\ previousRequestState o = REQUESTED.
Proof.
  apply (X5_allocation_is_local Scenario.ae1 Scenario.r1 Scenario.crossZone
           (snd (allocateSlot Scenario.ae1 Scenario.r1 Scenario.crossZone))
           (fst (allocateSlot Scenario.ae1 Scenario.r1 Scenario.crossZone))).
  - vm_compute. reflexivity.
  - vm_compute. reflexivity.
Defined.

(** X6. The request form's create-and-allocate.  With no vehicle or no zone
    selected nothing happens.  Otherwise the new request is registered under
    the id returned, and the allocation that follows never fails for a
    missing request or an invalid transition: it either succeeds, leaving
    the request ALLOCATED, or reports that no slot is available, leaving it
    REQUESTED with the topology and the log untouched. *)
Theorem X6_create_then_allocate
    (ce : CreateEnv) (ae : AllocEnv) (vid zid : string) (S : ParkingSystem) :
  (vid = "" \/ zid = "" -> handleCreateRequest ce ae vid zid S = (None, S))
  /\ (vid <> "" -> zid <> "" ->
      exists request result S',
        handleCreateRequest ce ae vid zid S = (Some (request, result), S')
        /\ req_id request = requestIdOf ce
        /\ ((success result = true
             /\ (state <$> requests S' !! req_id request) = Some ALLOCATED)
            \/ (result = failure
                  "No available slots in requested zone or adjacent zones"
                /\ requests S' !! req_id request = Some request
                /\ state request = REQUESTED
                /\ zones S' = zones S
                /\ operationHistory S' = operationHistory S))).
Proof.
  unfold handleCreateRequest. split.
  - intros [-> | ->]; [done|]. by rewrite orb_true_r.
  - intros Hv Hz. rewrite !bool_decide_eq_false_2 by done. simpl.
    unfold allocateSlot. simpl. rewrite lookup_insert_eq. simpl.
    destruct (selectSlots zid _) as [[zsel [|s l]] c] eqn:Hsel.
    + eexists _, _, _. split; [reflexivity|]. split; [done|]. right.
      simpl. by rewrite lookup_insert_eq.
    + eexists _, _, _. split; [reflexivity|]. split; [done|]. left.
      simpl. by rewrite lookup_insert_eq.
Qed.

(** ** The request lifecycle *)

Section Lifecycle.

Implicit Types (S : ParkingSystem) (q : ParkingRequest) (s : ParkingSlot).

Lemma occupySlot_success now rid S r S' :
  occupySlot now rid S = (r, S') -> success r = true ->
  exists q, requests S !! rid = Some q /\ state q = ALLOCATED
            /\ S' = withRequests (<[rid := occupiedRequest now q]> (requests S))
                                 S.
Proof.
  unfold occupySlot.
  destruct (requests S !! rid) as [q|]; [|by intros [= <- _]].
  destruct (canTransition (state q) OCCUPIED) eqn:Hc; simpl;
    [|by intros [= <- _]].
  apply canTransition_to_OCCUPIED in Hc. intros [= <- <-] _. by exists q.
Qed.

Lemma releaseSlot_success now rid S r S' :
  releaseSlot now rid S = (r, S') -> success r = true ->
  exists q, requests S !! rid = Some q /\ state q = OCCUPIED
            /\ S' = withRequests
                      (<[rid := releasedRequest now q]>
                         (requests (freeAllocatedSlot q S)))
                      (freeAllocatedSlot q S).
Proof.
  unfold releaseSlot.
  destruct (requests S !! rid) as [q|]; [|by intros [= <- _]].
  destruct (canTransition (state q) RELEASED) eqn:Hc; simpl;
    [|by intros [= <- _]].
  apply canTransition_to_RELEASED in Hc. intros [= <- <-] _. by exists q.
Qed.

Lemma cancelRequest_success rid S r S' :
  cancelRequest rid S = (r, S') -> success r = true ->
  exists q, requests S !! rid = Some q
            /\ (state q = REQUESTED \/ state q = ALLOCATED)
            /\ S' = withRequests
                      (<[rid := cancelledRequest q]>
                         (requests (freeAllocatedSlot q S)))
                      (freeAllocatedSlot q S).
Proof.
  unfold cancelRequest.
  destruct (requests S !! rid) as [q|]; [|by intros [= <- _]].
  destruct (canTransition (state q) CANCELLED) eqn:Hc; simpl;
    [|by intros [= <- _]].
  apply canTransition_to_CANCELLED in Hc. intros [= <- <-] _. by exists q.
Qed.

Lemma requests_freeAllocatedSlot q S :
  requests (freeAllocatedSlot q S) = requests S.
Proof.
  unfold freeAllocatedSlot. destruct (allocatedSlotId q); [|done].
  by case_bool_decide.
Qed.

Lemma history_freeAllocatedSlot q S :
  operationHistory (freeAllocatedSlot q S) = operationHistory S.
Proof.
  unfold freeAllocatedSlot. destruct (allocatedSlotId q); [|done].
  by case_bool_decide.
Qed.

End Lifecycle.

(** X7. No operation succeeds twice in a row on the same request: after a
    successful allocate, occupy, release or cancel, the same call again is
    refused as an invalid transition from the state just entered to itself,
    and changes nothing. *)
Theorem X7_no_double_success (S S' : ParkingSystem) (rid : string)
    (r : OpResult) :
  (forall e e', allocateSlot e rid S = (r, S') -> success r = true ->
     allocateSlot e' rid S'
     = (failure "Invalid state transition from ALLOCATED to ALLOCATED", S'))
  /\ (forall now now', occupySlot now rid S = (r, S') -> success r = true ->
        occupySlot now' rid S'
        = (failure "Invalid state transition from OCCUPIED to OCCUPIED", S'))
  /\ (forall now now', releaseSlot now rid S = (r, S') -> success r = true ->
        releaseSlot now' rid S'
        = (failure "Invalid state transition from RELEASED to RELEASED", S'))
  /\ (cancelRequest rid S = (r, S') -> success r = true ->
      cancelRequest rid S'
      = (failure "Invalid state transition from CANCELLED to CANCELLED", S')).
Proof.
  split; [|split; [|split]].
  - intros e e' Ha Hs.
    destruct (allocateSlot_success _ _ _ _ _ Ha Hs)
      as (q & zsel & z & s & l & c & _ & _ & _ & _ & _ & ->).
    unfold allocateSlot. simpl. by rewrite lookup_insert_eq.
  - intros now now' Ha Hs.
    destruct (occupySlot_success _ _ _ _ _ Ha Hs) as (q & _ & _ & ->).
    unfold occupySlot. simpl. by rewrite lookup_insert_eq.
  - intros now now' Ha Hs.
    destruct (releaseSlot_success _ _ _ _ _ Ha Hs) as (q & _ & _ & ->).
    unfold releaseSlot. simpl. by rewrite lookup_insert_eq.
  - intros Ha Hs.
    destruct (cancelRequest_success _ _ _ _ Ha Hs) as (q & _ & _ & ->).
    unfold cancelRequest. simpl. by rewrite lookup_insert_eq.
Qed.

(** X8. Handing a slot back restores the topology.  With unique slot ids and
    a chosen slot whose id is not the empty string, a successful allocation
    followed by cancel, or by occupy and then release, succeeds at every step
    and leaves every zone exactly as it was before the allocation; the request
    ends CANCELLED, respectively RELEASED, and keeps its allocatedSlotId as a
    record of the slot it held. *)
Theorem X8_allocate_then_hand_back
    (e : AllocEnv) (now now' : Z) (rid : string) (S S1 : ParkingSystem)
    (r : OpResult) (sid : string) :
  NoDup (slotIds (zones S)) ->
  allocateSlot e rid S = (r, S1) ->
  success r = true ->
  (allocatedSlotId <$> requests S1 !! rid) = Some (Some sid) ->
  sid <> "" ->
  (let '(r2, S2) := cancelRequest rid S1 in
   success r2 = true
   /\ zones S2 = zones S
   /\ (state <$> requests S2 !! rid) = Some CANCELLED
   /\ (allocatedSlotId <$> requests S2 !! rid) = Some (Some sid))
  /\ (let '(r2, S2) := occupySlot now rid S1 in
      let '(r3, S3) := releaseSlot now' rid S2 in
      success r2 = true /\ success r3 = true
      /\ zones S3 = zones S
      /\ (state <$> requests S3 !! rid) = Some RELEASED
      /\ (allocatedSlotId <$> requests S3 !! rid) = Some (Some sid)).
Proof.
  intros Hnd Ha Hs Hsid Hne.
  destruct (allocateSlot_success _ _ _ _ _ Ha Hs)
    as (q & zsel & z & s & l & c & Hq & Hst & Hsel & Hz & Hav & ->).
  destruct (selected_slot _ _ _ _ _ Hnd Hz Hav) as [Hfree Hclaim].
  simpl in Hsid. rewrite lookup_insert_eq in Hsid. simpl in Hsid.
  injection Hsid as <-.
  assert (assign_zones (slot_id s) true (claim_zones zsel (zones S)) = zones S)
    as Hback.
  { rewrite Hclaim, assign_zones_twice. apply assign_zones_same.
    intros s' Hs'. unfold slotStatus in Hfree. rewrite Hs' in Hfree.
    simpl in Hfree. congruence. }
  split.
  - unfold cancelRequest. simpl. rewrite lookup_insert_eq. simpl.
    unfold freeAllocatedSlot. simpl.
    rewrite bool_decide_eq_false_2 by done. simpl.
    by rewrite lookup_insert_eq.
  - unfold occupySlot. simpl. rewrite lookup_insert_eq. simpl.
    unfold releaseSlot. simpl. rewrite lookup_insert_eq. simpl.
    unfold freeAllocatedSlot. simpl.
    rewrite bool_decide_eq_false_2 by done. simpl.
    by rewrite lookup_insert_eq.
Qed.

Lemma X8_allocate_then_hand_back_witness :
  let S := Scenario.sameZone in
  let S1 := snd (allocateSlot Scenario.ae1 Scenario.r1 S) in
  (let '(r2, S2) := cancelRequest Scenario.r1 S1 in
   success r2 = true
   /\ zones S2 = zones S
   /\ (state <$> requests S2 !! Scenario.r1) = Some CANCELLED
   /\ (allocatedSlotId <$> requests S2 !! Scenario.r1)
      = Some (Some "slot-a1-1"))
  /\ (let '(r2, S2) := occupySlot 1500 Scenario.r1 S1 in
      let '(r3, S3) := releaseSlot 1600 Scenario.r1 S2 in
      success r2 = true /\ success r3 = true
      /\ zones S3 = zones S
      /\ (state <$> requests S3 !! Scenario.r1) = Some RELEASED
      /\ (allocatedSlotId <$> requests S3 !! Scenario.r1)
         = Some (Some "slot-a1-1")).
Proof.
  intros S S1.
  apply (X8_allocate_then_hand_back Scenario.ae1 1500 1600 Scenario.r1 S S1
           (fst (allocateSlot Scenario.ae1 Scenario.r1 S)) "slot-a1-1").
  - apply (bool_decide_unpack _). vm_compute. exact I.
  - vm_compute. reflexivity.
  - vm_compute. reflexivity.
  - vm_compute. reflexivity.
  - discriminate.
Defined.

(** X9. A slot whose id is the empty string is never handed back.  The
    release and cancel paths test [allocatedSlotId] for truthiness, and the
    empty string is falsy: the transition succeeds, the request becomes
    RELEASED (CANCELLED), and the topology is left as it is, the slot still
    unavailable. *)
Theorem X9_empty_slot_id_not_freed
    (S : ParkingSystem) (rid : string) (q : ParkingRequest) (now : Z) :
  requests S !! rid = Some q ->
  allocatedSlotId q = Some "" ->
  (state q = OCCUPIED ->
   let '(r, S') := releaseSlot now rid S in
   success r = true /\ zones S' = zones S
   /\ (state <$> requests S' !! rid) = Some RELEASED)
  /\ (state q = ALLOCATED ->
      let '(r, S') := cancelRequest rid S in
      success r = true /\ zones S' = zones S
      /\ (state <$> requests S' !! rid) = Some CANCELLED).
Proof.
  intros Hq Hsid. split; intros Hst.
  - unfold releaseSlot, freeAllocatedSlot. rewrite Hq, Hst, Hsid. simpl.
    by rewrite lookup_insert_eq.
  - unfold cancelRequest, freeAllocatedSlot. rewrite Hq, Hst, Hsid. simpl.
    by rewrite lookup_insert_eq.
Qed.

Lemma X9_empty_slot_id_not_freed_witness :
  let S1 := Scenario2.blankAllocated in
  let '(r, S') := cancelRequest Scenario.r1 S1 in
  success r = true /\ zones S' = zones S1
  /\ (state <$> requests S' !! Scenario.r1) = Some CANCELLED.
Proof.
  intros S1.
  refine (proj2 (X9_empty_slot_id_not_freed S1 Scenario.r1
                   (allocatedRequest Scenario.ae1 10 false
                      (mkSlot "" "zone-a" "area-a1" true)
                      (mkRequest Scenario.r1 "v1" "zone-a" None None REQUESTED
                                 1000 None None None false 0))
                   0 _ _) _).
  - vm_compute. reflexivity.
  - reflexivity.
  - reflexivity.
Defined.

(** ** What the façade never does *)

Section Preservation.

Implicit Types (S : ParkingSystem) (q : ParkingRequest) (s : ParkingSlot).
Implicit Types (zs : list Zone) (sid zid : string) (b : bool).

Lemma blank_assign_slots sid b (ss : list ParkingSlot) :
  map blankSlot (assign_slots sid b ss) = map blankSlot ss.
Proof.
  induction ss as [|s ss IH]; simpl; [done|].
  destruct (slotHasId sid s); simpl; [done|]. by rewrite IH.
Qed.

Lemma blank_assign_areas sid b (l : list ParkingArea) :
  map blankArea (assign_areas sid b l) = map blankArea l.
Proof.
  induction l as [|a l IH]; simpl; [done|].
  destruct (List.find (slotHasId sid) (slots a)); simpl.
  - unfold blankArea at 1 3. simpl. by rewrite blank_assign_slots.
  - by rewrite IH.
Qed.

Lemma blank_assign_zones sid b zs :
  map blankZone (assign_zones sid b zs) = map blankZone zs.
Proof.
  induction zs as [|z zs IH]; simpl; [done|].
  destruct (findSlot_areas sid z (areas z)); simpl.
  - unfold blankZone at 1 3. simpl. by rewrite blank_assign_areas.
  - by rewrite IH.
Qed.

Lemma blank_claim_slots (ss : list ParkingSlot) :
  map blankSlot (claim_slots ss) = map blankSlot ss.
Proof.
  induction ss as [|s ss IH]; simpl; [done|].
  destruct (isAvailable s); simpl; [done|]. by rewrite IH.
Qed.

Lemma blank_claim_areas (l : list ParkingArea) :
  map blankArea (claim_areas l) = map blankArea l.
Proof.
  induction l as [|a l IH]; simpl; [done|].
  destruct (List.filter isAvailable (slots a)); simpl.
  - by rewrite IH.
  - unfold blankArea at 1 3. simpl. by rewrite blank_claim_slots.
Qed.

Lemma blank_claim_zones zid zs :
  map blankZone (claim_zones zid zs) = map blankZone zs.
Proof.
  induction zs as [|z zs IH]; simpl; [done|].
  destruct (zoneHasId zid z); simpl.
  - unfold blankZone at 1 3. simpl. by rewrite blank_claim_areas.
  - by rewrite IH.
Qed.

Lemma layout_freeAllocatedSlot q S :
  layout (freeAllocatedSlot q S) = layout S.
Proof.
  unfold freeAllocatedSlot. destruct (allocatedSlotId q); [|done].
  case_bool_decide; [done|]. apply blank_assign_zones.
Qed.

Lemma layout_undo o S : layout (undo o S) = layout S.
Proof. unfold layout. rewrite zones_undo. apply blank_assign_zones. Qed.

Lemma layout_undoLast m S : layout (undoLast m S) = layout S.
Proof.
  revert S. induction m as [|m IH]; intros S; simpl; [done|].
  destruct (history_pop (operationHistory S)) as [[o h]|]; [|done].
  by rewrite IH, layout_undo.
Qed.

Lemma layout_step op S : layout (step op S) = layout S.
Proof.
  destruct op as [e vid zid|e rid|now rid|now rid|rid|k]; simpl.
  - done.
  - unfold allocateSlot. destruct (requests S !! rid) as [q|]; [|done].
    destruct (negb _); [done|].
    destruct (selectSlots _ S) as [[zsel [|s l]] c]; [done|].
    apply blank_claim_zones.
  - unfold occupySlot. destruct (requests S !! rid) as [q|]; [|done].
    by destruct (negb _).
  - unfold releaseSlot. destruct (requests S !! rid) as [q|]; [|done].
    destruct (negb _); [done|]. apply layout_freeAllocatedSlot.
  - unfold cancelRequest. destruct (requests S !! rid) as [q|]; [|done].
    destruct (negb _); [done|]. apply layout_freeAllocatedSlot.
  - rewrite rollback_run. apply layout_undoLast.
Qed.

Lemma layout_slotIds S T :
  layout S = layout T -> slotIds (zones S) = slotIds (zones T).
Proof.
  assert (forall zs, slotIds zs = slotIds (map blankZone zs)) as H.
  { intros zs. unfold slotIds, allSlots.
    induction zs as [|z zs IH]; simpl; [done|].
    rewrite !map_app, IH. f_equal.
    unfold slotsOf, blankZone. simpl.
    induction (areas z) as [|a l IHa]; simpl; [done|].
    rewrite !map_app, IHa. f_equal.
    unfold blankArea. simpl. rewrite map_map. done. }
  unfold layout. intros Heq. by rewrite (H (zones S)), (H (zones T)), Heq.
Qed.

End Preservation.

(** X10. The façade never reshapes the topology.  Whatever sequence of
    createRequest, allocate, occupy, release, cancel and rollback runs, the
    zones, their order, names and adjacency lists, their areas, and the slots
    with their ids and back-references are as they were; the one thing that
    can differ is the availability flag of a slot. *)
Theorem X10_layout_preserved (ops : list FacadeOp) (S : ParkingSystem) :
  layout (run ops S) = layout S.
Proof.
  revert S. induction ops as [|op ops IH]; intros S; simpl; [done|].
  unfold run in IH. by rewrite IH, layout_step.
Qed.

Section Persistence.

Implicit Types (S : ParkingSystem) (q : ParkingRequest) (rid : string).

Lemma sameIdentity_refl q : sameIdentity q q.
Proof. done. Qed.

Lemma sameIdentity_trans q1 q2 q3 :
  sameIdentity q1 q2 -> sameIdentity q2 q3 -> sameIdentity q1 q3.
Proof.
  unfold sameIdentity. intros (?&?&?&?) (?&?&?&?). repeat split; congruence.
Qed.

(** Writing a request back with the same identity keeps every stored
    request's identity. *)
Lemma persist_insert (m : gmap string ParkingRequest) k qk qk' rid q :
  m !! k = Some qk -> sameIdentity qk qk' ->
  m !! rid = Some q ->
  exists q', <[k := qk']> m !! rid = Some q' /\ sameIdentity q q'.
Proof.
  intros Hk Hid Hq. rewrite lookup_insert. case_decide as Hd.
  - subst k. exists qk'. split; [done|]. congruence.
  - by exists q.
Qed.

Lemma persist_undo o S rid q :
  requests S !! rid = Some q ->
  exists q', requests (undo o S) !! rid = Some q' /\ sameIdentity q q'.
Proof.
  intros Hq. rewrite requests_undo.
  destruct (requests S !! op_requestId o) as [qo|] eqn:Hqo; [|by exists q].
  apply (persist_insert _ _ qo); try done.
  unfold restoredRequest. by destruct (previousRequestState o).
Qed.

Lemma persist_undoLast m S rid q :
  requests S !! rid = Some q ->
  exists q', requests (undoLast m S) !! rid = Some q' /\ sameIdentity q q'.
Proof.
  revert S q. induction m as [|m IH]; intros S q Hq; simpl; [by exists q|].
  destruct (history_pop (operationHistory S)) as [[o h]|]; [|by exists q].
  destruct (persist_undo o (withHistory h S) rid q Hq) as (q1 & Hq1 & Hid1).
  destruct (IH _ _ Hq1) as (q2 & Hq2 & Hid2).
  exists q2. split; [done|]. by eapply sameIdentity_trans.
Qed.

Lemma persist_step op S rid q :
  requests S !! rid = Some q ->
  is_Some (requests (step op S) !! rid)
  /\ (rid ∉ createdIds [op] ->
      exists q', requests (step op S) !! rid = Some q' /\ sameIdentity q q').
Proof.
  intros Hq.
  assert ((exists q', requests (step op S) !! rid = Some q'
                      /\ sameIdentity q q')
          \/ (is_Some (requests (step op S) !! rid)
              /\ rid ∈ createdIds [op])) as [H|[H1 H2]].
  2:{ destruct H as (q' & Hq' & Hid). split; [by exists q' | by exists q']. }
  2:{ split; [done | by intros Hn]. }
  destruct op as [e vid zid|e rid'|now rid'|now rid'|rid'|k]; simpl.
  - destruct (decide (requestIdOf e = rid)) as [<-|Hne].
    + right. rewrite lookup_insert_eq. split; [done|].
      apply elem_of_cons. by left.
    + left. exists q. unfold requestIdOf in Hne.
      by rewrite lookup_insert_ne.
  - left. unfold allocateSlot.
    destruct (requests S !! rid') as [q0|] eqn:Hq0; [|by exists q].
    destruct (negb _); [by exists q|].
    destruct (selectSlots _ S) as [[zsel [|s l]] c]; [by exists q|].
    simpl. by apply (persist_insert _ _ q0).
  - left. unfold occupySlot.
    destruct (requests S !! rid') as [q0|] eqn:Hq0; [|by exists q].
    destruct (negb _); [by exists q|].
    simpl. by apply (persist_insert _ _ q0).
  - left. unfold releaseSlot.
    destruct (requests S !! rid') as [q0|] eqn:Hq0; [|by exists q].
    destruct (negb _); [by exists q|].
    simpl. rewrite requests_freeAllocatedSlot.
    by apply (persist_insert _ _ q0).
  - left. unfold cancelRequest.
    destruct (requests S !! rid') as [q0|] eqn:Hq0; [|by exists q].
    destruct (negb _); [by exists q|].
    simpl. rewrite requests_freeAllocatedSlot.
    by apply (persist_insert _ _ q0).
  - left. rewrite rollback_run. simpl. by apply persist_undoLast.
Qed.

End Persistence.

(** X11. Requests are never deleted.  A request that is in the registry stays
    in it through any sequence of façade operations.  Unless one of the
    operations creates a request with the very same id (which replaces the
    record), the request also keeps its id, its vehicle, its requested zone
    and its request time, whatever else changes. *)
Theorem X11_requests_persist
    (ops : list FacadeOp) (S : ParkingSystem) (rid : string)
    (q : ParkingRequest) :
  requests S !! rid = Some q ->
  is_Some (requests (run ops S) !! rid)
  /\ (rid ∉ createdIds ops ->
      exists q', requests (run ops S) !! rid = Some q' /\ sameIdentity q q').
Proof.
  revert S q. induction ops as [|op ops IH]; intros S q Hq.
  - split; [done | by exists q].
  - change (run (op :: ops) S) with (run ops (step op S)).
    destruct (persist_step op S rid q Hq) as [[q1 Hq1] Hkeep].
    destruct (IH _ _ Hq1) as [Hsome _]. split; [done|].
    intros Hn.
    assert (createdIds (op :: ops) = createdIds [op] ++ createdIds ops) as Hc
      by (simpl; by rewrite app_nil_r).
    rewrite Hc in Hn. apply not_elem_of_app in Hn as [Hn1 Hn2].
    destruct (Hkeep Hn1) as (q2 & Hq2 & Hid2).
    destruct (IH _ _ Hq2) as [_ Hrest].
    destruct (Hrest Hn2) as (q3 & Hq3 & Hid3).
    exists q3. split; [done|]. by eapply sameIdentity_trans.
Qed.

Lemma X11_requests_persist_witness :
  let ops := [Allocate Scenario.ae1 Scenario.r1; Occupy 1500 Scenario.r1;
              Rollback 1; Cancel Scenario.r1] in
  is_Some (requests (run ops Scenario.sameZone) !! Scenario.r1)
  /\ (Scenario.r1 ∉ createdIds ops ->
      exists q', requests (run ops Scenario.sameZone) !! Scenario.r1 = Some q'
                 /\ sameIdentity
                      (mkRequest Scenario.r1 "v1" "zone-a" None None REQUESTED
                                 1000 None None None false 0) q').
Proof.
  intros ops.
  apply (X11_requests_persist ops Scenario.sameZone Scenario.r1).
  vm_compute. reflexivity.
Defined.

(** ** The operation log *)

Section LogRecords.

Implicit Types (S T : ParkingSystem) (q : ParkingRequest) (rid : string).
Implicit Types (o : AllocationOperation).

Lemma keysOk_insert (m : gmap string ParkingRequest) rid q q' :
  (forall k q0, m !! k = Some q0 -> req_id q0 = k) ->
  m !! rid = Some q -> req_id q' = req_id q ->
  forall k q0, <[rid := q']> m !! k = Some q0 -> req_id q0 = k.
Proof.
  intros Hm Hq Hid k q0. rewrite lookup_insert. case_decide as Hd.
  - intros [= <-]. subst k. rewrite Hid. by apply Hm.
  - apply Hm.
Qed.

Lemma keysOk_undo o S : keysOk S -> keysOk (undo o S).
Proof.
  unfold keysOk. intros HS k q0. rewrite requests_undo.
  destruct (requests S !! op_requestId o) as [qo|] eqn:Hqo; [|apply HS].
  apply (keysOk_insert _ _ qo); try done.
  unfold restoredRequest. by destruct (previousRequestState o).
Qed.

Lemma keysOk_undoLast m S : keysOk S -> keysOk (undoLast m S).
Proof.
  revert S. induction m as [|m IH]; intros S HS; simpl; [done|].
  destruct (history_pop (operationHistory S)) as [[o h]|]; [|done].
  apply IH. by apply keysOk_undo.
Qed.

Lemma keysOk_step op S : keysOk S -> keysOk (step op S).
Proof.
  intros HS.
  destruct op as [e vid zid|e rid|now rid|now rid|rid|k]; simpl.
  - intros k q. simpl. rewrite lookup_insert. case_decide as Hd.
    + by intros [= <-].
    + apply HS.
  - unfold allocateSlot. destruct (requests S !! rid) as [q|] eqn:Hq; [|done].
    destruct (negb _); [done|].
    destruct (selectSlots _ S) as [[zsel [|s l]] c]; [done|].
    unfold keysOk. simpl. by apply (keysOk_insert _ _ q).
  - unfold occupySlot. destruct (requests S !! rid) as [q|] eqn:Hq; [|done].
    destruct (negb _); [done|].
    unfold keysOk. simpl. by apply (keysOk_insert _ _ q).
  - unfold releaseSlot. destruct (requests S !! rid) as [q|] eqn:Hq; [|done].
    destruct (negb _); [done|]. unfold keysOk. simpl.
    rewrite requests_freeAllocatedSlot. by apply (keysOk_insert _ _ q).
  - unfold cancelRequest. destruct (requests S !! rid) as [q|] eqn:Hq; [|done].
    destruct (negb _); [done|]. unfold keysOk. simpl.
    rewrite requests_freeAllocatedSlot. by apply (keysOk_insert _ _ q).
  - rewrite rollback_run. by apply keysOk_undoLast.
Qed.

(** A record that is well formed stays so when a step is taken: no step
    removes a slot id or a request. *)
Lemma recordOk_step op S o : recordOk S o -> recordOk (step op S) o.
Proof.
  intros (Hs & Hr & Hsid & [q Hq]). split; [done|]. split; [done|]. split.
  - by rewrite (layout_slotIds (step op S) S (layout_step op S)).
  - by destruct (persist_step op S _ q Hq) as [? _].
Qed.

Lemma history_undoLast_prefix m S :
  exists n, operationHistory (undoLast m S) = take n (operationHistory S).
Proof.
  revert S. induction m as [|m IH]; intros S; simpl.
  - exists (length (operationHistory S)). by rewrite firstn_all.
  - destruct (operationHistory S) as [|x h _] eqn:Hh using rev_ind.
    + simpl. rewrite Hh. by exists 0%nat.
    + rewrite history_pop_snoc.
      destruct (IH (undo x (withHistory h S))) as [n Hn].
      rewrite Hn, history_undo. simpl.
      exists (Nat.min n (length h)).
      rewrite take_app_le by lia.
      by rewrite <- take_take, firstn_all.
Qed.

Lemma LogOk_step op S : LogOk S -> LogOk (step op S).
Proof.
  intros [Hk Hlog]. split; [by apply keysOk_step|].
  assert (Forall (recordOk (step op S)) (operationHistory S)) as Hold.
  { eapply Forall_impl; [exact Hlog|]. intros o. apply recordOk_step. }
  destruct op as [e vid zid|e rid|now rid|now rid|rid|k]; simpl in *.
  - done.
  - destruct (allocateSlot e rid S) as [r S'] eqn:Ha. simpl in *.
    destruct (success r) eqn:Hs.
    + destruct (allocateSlot_success _ _ _ _ _ Ha Hs)
        as (q & zsel & z & s & l & c & Hq & Hst & Hsel & Hz & Hav & ->).
      simpl in *. apply Forall_app. split; [done|]. constructor; [|done].
      rewrite availableSlotsOf_flat in Hav.
      apply filter_head_elem in Hav as [Hin Hfree].
      split; [done|]. split; [done|]. simpl. split.
      * change (claim_zones zsel (zones S))
          with (zones (mkSystem (claim_zones zsel (zones S)) (vehicles S)
                         (requests S) (operationHistory S)
                         (pendingRequests S) (penalty S))).
        rewrite (layout_slotIds _ S); [|apply blank_claim_zones].
        apply list_elem_of_fmap_2. apply List.find_some in Hz as [Hz _].
        apply list_elem_of_In, in_flat_map. exists z.
        split; [done | by apply list_elem_of_In].
      * rewrite (Hk _ _ Hq), lookup_insert_eq. done.
    + revert Ha. unfold allocateSlot.
      destruct (requests S !! rid) as [q|]; [|by intros [= _ <-]].
      destruct (negb _); [by intros [= _ <-]|].
      destruct (selectSlots _ S) as [[zsel [|s l]] c]; [by intros [= _ <-]|].
      intros [= <- _]. done.
  - revert Hold. unfold occupySlot.
    destruct (requests S !! rid) as [q|]; [|done]. by destruct (negb _).
  - revert Hold. unfold releaseSlot.
    destruct (requests S !! rid) as [q|]; [|done].
    destruct (negb _); [done|]. simpl. by rewrite history_freeAllocatedSlot.
  - revert Hold. unfold cancelRequest.
    destruct (requests S !! rid) as [q|]; [|done].
    destruct (negb _); [done|]. simpl. by rewrite history_freeAllocatedSlot.
  - revert Hold. rewrite rollback_run. simpl. intros Hold.
    destruct (history_undoLast_prefix
                (Nat.min (Z.to_nat k) (length (operationHistory S))) S)
      as [n ->].
    by apply Forall_take.
Qed.

Lemma LogOk_run ops S : LogOk S -> LogOk (run ops S).
Proof.
  revert S. induction ops as [|op ops IH]; intros S HS; simpl; [done|].
  apply IH. by apply LogOk_step.
Qed.

End LogRecords.

(** X12. Every record in the log is the record of a real allocation.  In any
    state reached from a loaded topology by façade operations, each log
    record saved the slot as free and the request as REQUESTED, names a slot
    id of the topology, and names a request that is in the registry. *)
Theorem X12_log_records_well_formed
    (zs : list Zone) (vs : list Vehicle) (ops : list FacadeOp) :
  let S := run ops (loadTopology zs vs) in
  Forall (fun o =>
            previousSlotState o = true
            /\ previousRequestState o = REQUESTED
            /\ op_slotId o ∈ slotIds (zones S)
            /\ is_Some (requests S !! op_requestId o))
         (operationHistory S).
Proof.
  intros S.
  assert (LogOk (loadTopology zs vs)) as H0.
  { unfold LogOk, keysOk. unfold loadTopology.
    destruct (addVehicle_fold_fields vs
                (fold_left (fun T z => addZone z T) zs (newParkingSystem None)))
      as (_ & -> & ->).
    destruct (addZone_fold_fields zs (newParkingSystem None)) as (-> & ->).
    split; [done | constructor]. }
  by destruct (LogOk_run ops _ H0) as [_ H].
Qed.

(** ** Rollback in several calls *)

Section RollbackCompose.

Implicit Types (S : ParkingSystem).

Lemma history_undoLast m S :
  (m <= length (operationHistory S))%nat ->
  operationHistory (undoLast m S)
  = take (length (operationHistory S) - m) (operationHistory S).
Proof.
  intros Hm. rewrite undoLast_fold by done. by rewrite history_undo_fold.
Qed.

End RollbackCompose.

(** X13. Rolling back in two calls is rolling back once by the sum: for
    counts a and b that are not negative, rollback(a) followed by
    rollback(b) leaves the same state as rollback(a + b), and the two
    reported counts add up to the count that single call reports. *)
Theorem X13_rollback_composes (a b : Z) (S : ParkingSystem) :
  0 <= a -> 0 <= b ->
  let '(r1, S1) := rollback a S in
  let '(r2, S2) := rollback b S1 in
  S2 = snd (rollback (a + b) S)
  /\ rolledBack r1 + rolledBack r2 = rolledBack (fst (rollback (a + b) S)).
Proof.
  intros Ha Hb. rewrite (rollback_run (a + b) S), (rollback_run a S).
  cbv beta iota zeta. rewrite rollback_run. cbv beta iota zeta.
  simpl fst. simpl snd. simpl rolledBack.
  set (n := length (operationHistory S)).
  set (m1 := Nat.min (Z.to_nat a) n).
  rewrite history_undoLast by (unfold m1; lia). fold n.
  rewrite length_take. fold n.
  replace (Nat.min (n - m1) n) with (n - m1)%nat by lia.
  set (m2 := Nat.min (Z.to_nat b) (n - m1)).
  replace (Nat.min (Z.to_nat (a + b)) n) with (m1 + m2)%nat
    by (unfold m1, m2; lia).
  split; [by rewrite undoLast_add | lia].
Qed.

Lemma X13_rollback_composes_witness :
  let '(r1, S1) := rollback 1 Scenario.twoAllocated in
  let '(r2, S2) := rollback 1 S1 in
  S2 = snd (rollback (1 + 1) Scenario.twoAllocated)
  /\ rolledBack r1 + rolledBack r2
     = rolledBack (fst (rollback (1 + 1) Scenario.twoAllocated)).
Proof. apply (X13_rollback_composes 1 1 Scenario.twoAllocated); lia. Defined.

(** ** The pending queue *)

Section Pending.

Implicit Types (S : ParkingSystem).

Lemma pending_undo o S : pendingRequests (undo o S) = pendingRequests S.
Proof. unfold undo. simpl. by destruct (requests S !! op_requestId o). Qed.

Lemma pending_undoLast m S :
  pendingRequests (undoLast m S) = pendingRequests S.
Proof.
  revert S. induction m as [|m IH]; intros S; simpl; [done|].
  destruct (history_pop (operationHistory S)) as [[o h]|]; [|done].
  by rewrite IH, pending_undo.
Qed.

Lemma pending_step op S :
  pendingRequests (step op S) = pendingRequests S ++ createdIds [op].
Proof.
  destruct op as [e vid zid|e rid|now rid|now rid|rid|k]; simpl;
    rewrite ?app_nil_r.
  - done.
  - unfold allocateSlot. destruct (requests S !! rid) as [q|]; [|done].
    destruct (negb _); [done|].
    by destruct (selectSlots _ S) as [[zsel [|s l]] c].
  - unfold occupySlot. destruct (requests S !! rid) as [q|]; [|done].
    by destruct (negb _).
  - unfold releaseSlot. destruct (requests S !! rid) as [q|]; [|done].
    destruct (negb _); [done|]. simpl. unfold freeAllocatedSlot.
    destruct (allocatedSlotId q) as [sid|]; [|done]. by case_bool_decide.
  - unfold cancelRequest. destruct (requests S !! rid) as [q|]; [|done].
    destruct (negb _); [done|]. simpl. unfold freeAllocatedSlot.
    destruct (allocatedSlotId q) as [sid|]; [|done]. by case_bool_decide.
  - rewrite rollback_run. apply pending_undoLast.
Qed.

End Pending.

(** X14. The pending queue only ever grows.  Every createRequest enqueues
    the new request, and no façade operation dequeues: after any sequence of
    operations the queue holds what it held before followed by the requests
    created since, in creation order, whether or not they have since been
    allocated, released, cancelled or rolled back. *)
Theorem X14_pending_queue_only_grows (ops : list FacadeOp) (S : ParkingSystem) :
  getAll (pendingRequests (run ops S)) = pendingRequests S ++ createdIds ops
  /\ queue_size (pendingRequests (run ops S))
     = (queue_size (pendingRequests S) + length (createdIds ops))%nat.
Proof.
  assert (pendingRequests (run ops S) = pendingRequests S ++ createdIds ops)
    as H.
  { revert S. induction ops as [|op ops IH]; intros S.
    - simpl. by rewrite app_nil_r.
    - change (run (op :: ops) S) with (run ops (step op S)).
      rewrite IH, pending_step, <- app_assoc. f_equal.
      simpl. by rewrite app_nil_r. }
  unfold getAll, queue_size. rewrite H. split; [done|]. apply length_app.
Qed.

(** X15. The request queue is first-in first-out.  After enqueuing a
    sequence of elements, the queue lists the old elements followed by the
    new ones; its size is the sum; [peek] shows the first of them without
    removing it; dequeuing as many times as the size returns them in that
    order and empties the queue; and dequeuing from an empty queue returns
    nothing and leaves it empty. *)
Theorem X15_request_queue_fifo {A : Type} (items xs : list A) :
  let q := fold_left (fun q x => enqueue x q) xs items in
  getAll q = items ++ xs
  /\ queue_size q = (length items + length xs)%nat
  /\ peek q = head (items ++ xs)
  /\ (isEmpty q = true <-> items = [] /\ xs = [])
  /\ dequeueMany (queue_size q) q = (Some <$> items ++ xs, [])
  /\ dequeue (@nil A) = (None, []).
Proof.
  intros q.
  assert (q = items ++ xs) as ->.
  { unfold q. clear q. revert items.
    induction xs as [|x xs IH]; intros items; simpl.
    - by rewrite app_nil_r.
    - unfold enqueue at 2. by rewrite IH, <- app_assoc. }
  unfold getAll, queue_size. rewrite length_app.
  split; [done|]. split; [done|]. split; [by destruct (items ++ xs)|].
  split; [|split; [|done]].
  - unfold isEmpty. rewrite bool_decide_eq_true, length_app.
    destruct items, xs; simpl; split; try done; try lia; by intros [? ?].
  - rewrite <- length_app. generalize (items ++ xs) as l.
    induction l as [|x l IH]; simpl; [done|]. by rewrite IH.
Qed.

(** ** The request list's buttons *)

(** X16. The buttons the request list offers are exactly the transitions the
    state machine allows.  For a request of the registry, an action that is
    not offered for its state is refused by the façade as an invalid
    transition and changes nothing; an action that is offered never is:
    occupy, release and cancel then succeed, and allocate succeeds or
    reports that no slot is available. *)
Theorem X16_offered_actions_are_valid
    (S : ParkingSystem) (rid : string) (q : ParkingRequest)
    (ae : AllocEnv) (now : Z) (a : Action) :
  requests S !! rid = Some q ->
  (a ∉ getAvailableActions (state q) ->
   handleAction ae now rid a S
   = (failure ("Invalid state transition from " +:+ stateName (state q)
               +:+ match a with
                   | ActAllocate => " to ALLOCATED"
                   | ActOccupy => " to OCCUPIED"
                   | ActRelease => " to RELEASED"
                   | ActCancel => " to CANCELLED"
                   end), S))
  /\ (a ∈ getAvailableActions (state q) ->
      success (fst (handleAction ae now rid a S)) = true
      \/ (a = ActAllocate
          /\ handleAction ae now rid a S
             = (failure
                  "No available slots in requested zone or adjacent zones",
                S))).
Proof.
  intros Hq. split.
  - intros Hn. destruct a; simpl;
      unfold allocateSlot, occupySlot, releaseSlot, cancelRequest; rewrite Hq;
      destruct (state q); simpl; try done;
      exfalso; apply Hn; simpl;
      repeat (first [apply elem_of_cons; left; reflexivity
                    | apply elem_of_cons; right]).
  - intros Hin. destruct a; simpl;
      unfold allocateSlot, occupySlot, releaseSlot, cancelRequest; rewrite Hq;
      destruct (state q) eqn:Hst; simpl in *;
      try (by left);
      try (exfalso; repeat (apply elem_of_cons in Hin as [Hin|Hin];
                            [discriminate|]);
           by apply elem_of_nil in Hin).
    destruct (selectSlots _ S) as [[zsel [|s l]] c]; [right | left]; done.
Qed.

Lemma X16_offered_actions_are_valid_witness :
  let S1 := snd (allocateSlot Scenario.ae1 Scenario.r1 Scenario.sameZone) in
  (ActRelease ∉ getAvailableActions ALLOCATED ->
   handleAction Scenario.ae2 2000 Scenario.r1 ActRelease S1
   = (failure "Invalid state transition from ALLOCATED to RELEASED", S1))
  /\ (ActRelease ∈ getAvailableActions ALLOCATED ->
      success (fst (handleAction Scenario.ae2 2000 Scenario.r1 ActRelease S1))
      = true
      \/ (ActRelease = ActAllocate
          /\ handleAction Scenario.ae2 2000 Scenario.r1 ActRelease S1
             = (failure
                  "No available slots in requested zone or adjacent zones",
                S1))).
Proof.
  intros S1.
  apply (X16_offered_actions_are_valid S1 Scenario.r1
           (allocatedRequest Scenario.ae1 10 false
              (Scenario.slot "slot-a1-1" "zone-a" "area-a1" true)
              (mkRequest Scenario.r1 "v1" "zone-a" None None REQUESTED 1000
                         None None None false 0))
           Scenario.ae2 2000 ActRelease).
  vm_compute. reflexivity.
Defined.

(** ** Counting slots and requests *)

Section Counting.

Implicit Types (S : ParkingSystem) (q : ParkingRequest) (s : ParkingSlot).
Implicit Types (zs : list Zone).

Lemma available_slots_fold (l : list ParkingArea) (acc : Z) :
  fold_left
    (fun aSum a => aSum + Z.of_nat (length (List.filter isAvailable (slots a))))
    l acc
  = acc + Z.of_nat (length (List.filter isAvailable (flat_map slots l))).
Proof.
  revert acc. induction l as [|a l IH]; intros acc; simpl; [lia|].
  rewrite IH, List.filter_app, length_app. lia.
Qed.

Lemma statsTotalSlots_flat zs :
  statsTotalSlots zs = Z.of_nat (length (allSlots zs)).
Proof.
  unfold statsTotalSlots.
  assert (forall acc,
            fold_left
              (fun sum z =>
                 sum + fold_left
                         (fun aSum a => aSum + Z.of_nat (length (slots a)))
                         (areas z) 0) zs acc
            = acc + Z.of_nat (length (allSlots zs))) as H.
  { induction zs as [|z zs IH]; intros acc; simpl; [lia|].
    rewrite IH, total_slots_fold, length_app. unfold slotsOf. lia. }
  rewrite H. lia.
Qed.

Lemma statsAvailableSlots_flat zs :
  statsAvailableSlots zs
  = Z.of_nat (length (List.filter isAvailable (allSlots zs))).
Proof.
  unfold statsAvailableSlots.
  assert (forall acc,
            fold_left
              (fun sum z =>
                 sum + fold_left
                         (fun aSum a =>
                            aSum + Z.of_nat
                                     (length (List.filter isAvailable
                                                          (slots a))))
                         (areas z) 0) zs acc
            = acc + Z.of_nat (length (List.filter isAvailable (allSlots zs))))
    as H.
  { induction zs as [|z zs IH]; intros acc; simpl; [lia|].
    rewrite IH, available_slots_fold, List.filter_app, length_app.
    unfold slotsOf. lia. }
  rewrite H. lia.
Qed.

Lemma filter_split_length {A} (f : A -> bool) (l : list A) :
  (length (List.filter f l) + length (List.filter (fun x => negb (f x)) l)
   = length l)%nat.
Proof.
  induction l as [|x l IH]; simpl; [done|]. destruct (f x); simpl; lia.
Qed.

Lemma NoDup_List_filter {A} (f : A -> bool) (l : list A) :
  NoDup l -> NoDup (List.filter f l).
Proof.
  induction 1 as [|x l Hx Hnd IH]; simpl; [constructor|].
  destruct (f x); [|done]. constructor; [|done].
  intros Hin. apply Hx. apply list_elem_of_In in Hin.
  apply List.filter_In in Hin as [Hin _]. by apply list_elem_of_In.
Qed.

Lemma isActive_holding q : isActive q = true <-> holding q.
Proof.
  unfold isActive, inState, holding.
  rewrite orb_true_iff, !bool_decide_eq_true. done.
Qed.

(** In a state that satisfies the allocation invariant, the requests that
    hold a slot are no more than the unavailable slots: each holds one, and
    no two hold the same. *)
Lemma active_le_unavailable S :
  Inv S ->
  (length (List.filter isActive (getAllRequests S))
   <= length (List.filter (fun s => negb (isAvailable s))
                          (allSlots (zones S))))%nat.
Proof.
  intros [Hnd Hkeys Hreq Hhold Hlog].
  set (L := map_to_list (requests S)).
  set (Hp := List.filter (fun kq : string * ParkingRequest => isActive kq.2) L).
  set (U := List.filter (fun s => negb (isAvailable s)) (allSlots (zones S))).
  assert (List.filter isActive (getAllRequests S) = Hp.*2) as ->.
  { unfold getAllRequests, Hp. fold L. clearbody L. clear Hp.
    induction L as [|[k q] L IH]; [done|].
    rewrite fmap_cons. simpl.
    destruct (isActive q); [rewrite fmap_cons; simpl|]; by rewrite IH. }
  assert (forall kq, kq ∈ Hp ->
            requests S !! kq.1 = Some kq.2 /\ holding kq.2) as HHp.
  { intros [k q] Hin. apply list_elem_of_In, List.filter_In in Hin as [Hin Ha].
    apply list_elem_of_In, elem_of_map_to_list in Hin.
    split; [done | by apply isActive_holding]. }
  rewrite length_fmap.
  rewrite <- (length_fmap (fun kq : string * ParkingRequest =>
                             allocatedSlotId kq.2) Hp).
  rewrite <- (length_fmap (fun s => Some (slot_id s)) U).
  apply submseteq_length, NoDup_submseteq.
  - apply NoDup_fmap_2_strong.
    + intros [k1 q1] [k2 q2] H1 H2 Heq. simpl in Heq.
      destruct (HHp _ H1) as [Hq1 Hh1]. destruct (HHp _ H2) as [Hq2 Hh2].
      simpl in *.
      destruct (Hhold _ _ Hq1 Hh1) as (sid1 & _ & Hs1 & _ & _ & Hl1).
      destruct (Hhold _ _ Hq2 Hh2) as (sid2 & _ & Hs2 & _ & _ & Hl2).
      assert (k1 = k2) as -> by congruence. congruence.
    + apply NoDup_List_filter, NoDup_map_to_list.
  - intros x Hx. apply list_elem_of_fmap in Hx as ([k q] & -> & Hin).
    destruct (HHp _ Hin) as [Hq Hh]. simpl in *.
    destruct (Hhold _ _ Hq Hh) as (sid & _ & -> & _ & Hst & _).
    unfold slotStatus in Hst.
    destruct (List.find (slotHasId sid) (allSlots (zones S))) as [s|] eqn:E;
      [|done].
    simpl in Hst. injection Hst as Hst.
    apply find_slot_Some in E as [Hs <-].
    apply list_elem_of_fmap. exists s. split; [done|].
    apply list_elem_of_In, List.filter_In. split.
    + by apply list_elem_of_In.
    + by rewrite Hst.
Qed.

End Counting.

(** X17. The statistics cards are consistent.  The slot totals are those of
    the whole topology, with the available slots between 0 and the total.
    In every state reached from a loaded topology with unique slot ids, the
    number of active requests (ALLOCATED or OCCUPIED) is at most the number
    of slots that are not available. *)
Theorem X17_stats_cards_consistent
    (zs : list Zone) (vs : list Vehicle) (ops : list FacadeOp) :
  NoDup (slotIds (zones (loadTopology zs vs))) ->
  let S := run ops (loadTopology zs vs) in
  statsTotalSlots (getAllZones S) = Z.of_nat (length (allSlots (zones S)))
  /\ 0 <= statsAvailableSlots (getAllZones S) <= statsTotalSlots (getAllZones S)
  /\ statsActiveRequests (getAllRequests S)
     <= statsTotalSlots (getAllZones S) - statsAvailableSlots (getAllZones S).
Proof.
  intros Hnd S.
  assert (Inv S) as HI by (apply Inv_run; by apply Inv_loadTopology).
  unfold getAllZones, statsActiveRequests.
  rewrite statsTotalSlots_flat, statsAvailableSlots_flat.
  pose proof (length_filter_le isAvailable (allSlots (zones S))).
  pose proof (filter_split_length isAvailable (allSlots (zones S))).
  pose proof (active_le_unavailable S HI).
  split; [done|]. split; lia.
Qed.

Lemma X17_stats_cards_consistent_witness :
  let S := Scenario.firstCancelled in
  statsTotalSlots (getAllZones S) = Z.of_nat (length (allSlots (zones S)))
  /\ 0 <= statsAvailableSlots (getAllZones S) <= statsTotalSlots (getAllZones S)
  /\ statsActiveRequests (getAllRequests S)
     <= statsTotalSlots (getAllZones S) - statsAvailableSlots (getAllZones S).
Proof.
  apply (X17_stats_cards_consistent [Scenario.zoneA] [Scenario.v1]
           [CreateRequest Scenario.ce1 "v1" "zone-a";
            CreateRequest Scenario.ce2 "v1" "zone-a";
            Allocate Scenario.ae1 Scenario.r1;
            Allocate Scenario.ae2 Scenario.r2; Cancel Scenario.r1]).
  apply (bool_decide_unpack _). vm_compute. exact I.
Defined.

(** X18. The request counters of the analytics partition the registry:
    completed (RELEASED) plus cancelled plus active (ALLOCATED or OCCUPIED)
    plus those still REQUESTED is the total, so completed and cancelled
    together never exceed it; and the cross-zone counter is at most the
    total. *)
Theorem X18_request_counters_partition (S : ParkingSystem) :
  completedRequests S + cancelledRequests S
  + statsActiveRequests (getAllRequests S)
  + Z.of_nat (length (List.filter (inState REQUESTED) (getAllRequests S)))
  = totalRequests S
  /\ 0 <= completedRequests S + cancelledRequests S <= totalRequests S
  /\ 0 <= crossZoneAllocations S <= totalRequests S.
Proof.
  unfold completedRequests, cancelledRequests, statsActiveRequests,
    totalRequests, crossZoneAllocations.
  pose proof (length_filter_le isCrossZone (getAllRequests S)).
  assert (forall l : list ParkingRequest,
            (length (List.filter (inState RELEASED) l)
             + length (List.filter (inState CANCELLED) l)
             + length (List.filter isActive l)
             + length (List.filter (inState REQUESTED) l) = length l)%nat)
    as Hpart.
  { induction l as [|q l IH]; simpl; [done|].
    unfold isActive, inState in *.
    destruct (state q); simpl; lia. }
  specialize (Hpart (getAllRequests S)). lia.
Qed.

(** ** The rollback panel *)

Section RollbackPanel.

Implicit Types (h l : list AllocationOperation) (S : ParkingSystem).

Lemma flagFrom_split idx k l :
  let n := Z.to_nat (k - Z.of_nat idx) in
  flagFrom idx k l
  = ((fun o => (o, true)) <$> take n l) ++ ((fun o => (o, false)) <$> drop n l).
Proof.
  revert idx. induction l as [|o l IH]; intros idx n; simpl.
  - by rewrite take_nil, drop_nil.
  - rewrite IH. case_bool_decide as Hd.
    + replace n with (Datatypes.S (Z.to_nat (k - Z.of_nat (Datatypes.S idx))))
        by (unfold n; lia).
      done.
    + replace n with 0%nat by (unfold n; lia).
      replace (Z.to_nat (k - Z.of_nat (Datatypes.S idx))) with 0%nat by lia.
      done.
Qed.

Lemma filter_flags_true (l1 l2 : list AllocationOperation) :
  (List.filter snd (((fun o => (o, true)) <$> l1)
                    ++ ((fun o => (o, false)) <$> l2))).*1 = l1.
Proof.
  induction l1 as [|o l1 IH]; simpl.
  - induction l2 as [|o l2 IH2]; simpl; done.
  - f_equal. apply IH.
Qed.

Lemma filter_flags_false (l1 l2 : list AllocationOperation) :
  (List.filter (fun x => negb x.2)
               (((fun o => (o, true)) <$> l1)
                ++ ((fun o => (o, false)) <$> l2))).*1 = l2.
Proof.
  induction l1 as [|o l1 IH]; simpl; [|done].
  induction l2 as [|o l2 IH2]; simpl; [done|].
  f_equal. apply IH2.
Qed.

End RollbackPanel.

(** X19. The rollback panel tells the truth.  For a slider value k between 1
    and the size of the log, the entries the panel flags as about to be
    undone are, in the order shown, exactly the records rollback(k) undoes,
    newest first; rollback(k) then reports k; and the entries not flagged
    are exactly what is left in the log. *)
Theorem X19_rollback_panel_flags (S : ParkingSystem) (k : Z) :
  1 <= k <= Z.of_nat (length (operationHistory S)) ->
  let h := getOperationHistory S in
  let flagged := (List.filter snd (willUndo h k)).*1 in
  let kept := (List.filter (fun x => negb x.2) (willUndo h k)).*1 in
  flagged = rev (drop (length h - Z.to_nat k) h)
  /\ rolledBack (fst (rollback k S)) = k
  /\ snd (rollback k S)
     = fold_left (fun T o => undo o T) flagged (withHistory (rev kept) S)
  /\ operationHistory (snd (rollback k S)) = rev kept.
Proof.
  intros Hk h flagged kept. unfold getOperationHistory in h.
  assert (flagged = take (Z.to_nat k) (rev h)) as Hf.
  { unfold flagged, willUndo. rewrite flagFrom_split. cbv zeta.
    rewrite filter_flags_true. f_equal. lia. }
  assert (kept = drop (Z.to_nat k) (rev h)) as Hkept.
  { unfold kept, willUndo. rewrite flagFrom_split. cbv zeta.
    rewrite filter_flags_false. f_equal. lia. }
  assert (take (Z.to_nat k) (rev h) = rev (drop (length h - Z.to_nat k) h))
    as Htake by apply firstn_rev.
  assert (rev kept = take (length h - Z.to_nat k) h) as Hrev.
  { rewrite Hkept. rewrite skipn_rev, rev_involutive. done. }
  rewrite Hrev, Hf, Htake.
  split; [done|].
  rewrite rollback_run. cbv zeta. simpl fst. simpl snd. simpl rolledBack.
  fold h.
  replace (Nat.min (Z.to_nat k) (length h)) with (Z.to_nat k) by (unfold h; lia).
  split; [lia|].
  rewrite undoLast_fold by (fold h; unfold h; lia). fold h.
  split; [done|]. by rewrite history_undo_fold.
Qed.

Lemma X19_rollback_panel_flags_witness :
  let S := Scenario.twoAllocated in
  let h := getOperationHistory S in
  let flagged := (List.filter snd (willUndo h 1)).*1 in
  let kept := (List.filter (fun x => negb x.2) (willUndo h 1)).*1 in
  flagged = rev (drop (length h - Z.to_nat 1) h)
  /\ rolledBack (fst (rollback 1 S)) = 1
  /\ snd (rollback 1 S)
     = fold_left (fun T o => undo o T) flagged (withHistory (rev kept) S)
  /\ operationHistory (snd (rollback 1 S)) = rev kept.
Proof.
  apply (X19_rollback_panel_flags Scenario.twoAllocated 1).
  vm_compute. split; discriminate.
Defined.

(** ** Export and construction *)

Section ExportLoad.

Implicit Types (S : ParkingSystem).

Lemma fold_zones_set_app (zs acc : list Zone) :
  NoDup (map zone_id (acc ++ zs)) ->
  fold_left (fun l z => zones_set z l) zs acc = acc ++ zs.
Proof.
  revert acc. induction zs as [|z zs IH]; intros acc Hnd; simpl.
  - by rewrite app_nil_r.
  - rewrite zones_set_absent.
    + rewrite IH; rewrite <- app_assoc; done.
    + rewrite map_app in Hnd. apply NoDup_app in Hnd as (_ & Hd & _).
      intros Hin. apply (Hd _ Hin). simpl. apply elem_of_cons. by left.
Qed.

Lemma fold_insert_list_to_map {V} (f : V -> string) (l : list V) :
  NoDup (f <$> l) ->
  fold_left (fun m v => <[f v := v]> m) l (∅ : gmap string V)
  = list_to_map ((fun v => (f v, v)) <$> l).
Proof.
  induction l as [|v l IH] using rev_ind; intros Hnd; [done|].
  rewrite fmap_app in Hnd. apply NoDup_app in Hnd as (Hnd & Hd & _).
  rewrite fold_left_app, fmap_app. simpl.
  rewrite list_to_map_snoc.
  - by rewrite IH.
  - rewrite <- list_fmap_compose. intros Hin. apply (Hd _ Hin).
    simpl. apply elem_of_cons. by left.
Qed.

Lemma pairs_of_values {V} (f : V -> string) (L : list (string * V)) :
  (forall kv, kv ∈ L -> f kv.2 = kv.1) ->
  (fun v => (f v, v)) <$> L.*2 = L.
Proof.
  induction L as [|[k v] L IH]; intros H; [done|].
  rewrite !fmap_cons. simpl. rewrite IH.
  - f_equal. f_equal. apply (H (k, v)). apply elem_of_cons. by left.
  - intros kv Hin. apply H. apply elem_of_cons. by right.
Qed.

(** Loading any listing of a map whose values carry their key gives the map
    back. *)
Lemma load_listing {V} (f : V -> string) (m : gmap string V) (l : list V) :
  (forall k v, m !! k = Some v -> f v = k) ->
  l ≡ₚ (map_to_list m).*2 ->
  fold_left (fun m v => <[f v := v]> m) l (∅ : gmap string V) = m.
Proof.
  intros Hkeys Hperm.
  assert ((fun v => (f v, v)) <$> (map_to_list m).*2 = map_to_list m)
    as Hpairs.
  { apply pairs_of_values. intros [k v] Hin.
    apply elem_of_map_to_list in Hin. by apply Hkeys. }
  assert (f <$> (map_to_list m).*2 = (map_to_list m).*1) as Hk.
  { transitivity (((fun v => (f v, v)) <$> (map_to_list m).*2).*1);
      [|by rewrite Hpairs].
    generalize ((map_to_list m).*2). intros vs.
    induction vs as [|v vs IH]; [done|]. rewrite !fmap_cons. simpl.
    by rewrite IH. }
  rewrite fold_insert_list_to_map.
  - transitivity (list_to_map (map_to_list m) : gmap string V);
      [|apply list_to_map_to_list].
    apply list_to_map_proper.
    + rewrite <- list_fmap_compose.
      replace (fst ∘ (fun v => (f v, v))) with f by done.
      rewrite Hperm, Hk. apply NoDup_fst_map_to_list.
    + by rewrite Hperm, Hpairs.
  - rewrite Hperm, Hk. apply NoDup_fst_map_to_list.
Qed.

End ExportLoad.

(** X20. Export followed by construction restores the data.  For a system
    whose zones, vehicles and requests are stored under their own ids (as
    the façade always stores them), constructing a new system from the
    exported state, in whatever order the vehicles and requests are listed,
    gives back the same zones, vehicles, requests and operation log.  The
    pending queue is not exported: it comes back empty. *)
Theorem X20_export_then_construct
    (S : ParkingSystem) (vs : list Vehicle) (rs : list ParkingRequest) :
  NoDup (map zone_id (zones S)) ->
  (forall k v, vehicles S !! k = Some v -> vehicle_id v = k) ->
  (forall k q, requests S !! k = Some q -> req_id q = k) ->
  vs ≡ₚ getAllVehicles S ->
  rs ≡ₚ getAllRequests S ->
  newParkingSystem
    (Some (mkPersisted (getAllZones S) vs rs (getOperationHistory S)))
  = mkSystem (zones S) (vehicles S) (requests S) (operationHistory S) [] 10
  /\ newParkingSystem (Some (exportState S))
     = mkSystem (zones S) (vehicles S) (requests S) (operationHistory S) [] 10.
Proof.
  intros Hz Hv Hr Hvs Hrs.
  assert (forall vs' rs', vs' ≡ₚ getAllVehicles S -> rs' ≡ₚ getAllRequests S ->
            newParkingSystem
              (Some (mkPersisted (getAllZones S) vs' rs'
                                 (getOperationHistory S)))
            = mkSystem (zones S) (vehicles S) (requests S)
                       (operationHistory S) [] 10) as H.
  { intros vs' rs' Hvs' Hrs'. unfold newParkingSystem, loadState. simpl.
    unfold getAllZones, getOperationHistory.
    rewrite fold_zones_set_app by done. simpl.
    rewrite (load_listing vehicle_id (vehicles S)) by done.
    rewrite (load_listing req_id (requests S)) by done.
    f_equal. unfold history_push.
    generalize (operationHistory S) as h. intros h.
    assert (forall acc, fold_left (fun h0 o => h0 ++ [o]) h acc = acc ++ h)
      as Hh.
    { induction h as [|o h IH]; intros acc; simpl.
      - by rewrite app_nil_r.
      - by rewrite IH, <- app_assoc. }
    apply Hh. }
  split; [by apply H|]. by apply H.
Qed.

Lemma X20_export_then_construct_witness :
  let S := Scenario.twoAllocated in
  newParkingSystem
    (Some (mkPersisted (getAllZones S) (getAllVehicles S) (getAllRequests S)
                       (getOperationHistory S)))
  = mkSystem (zones S) (vehicles S) (requests S) (operationHistory S) [] 10
  /\ newParkingSystem (Some (exportState S))
     = mkSystem (zones S) (vehicles S) (requests S) (operationHistory S) [] 10.
Proof.
  intros S.
  apply (X20_export_then_construct S (getAllVehicles S) (getAllRequests S)).
  - apply (bool_decide_unpack _). vm_compute. exact I.
  - intros k v Hin. apply elem_of_map_to_list in Hin.
    set (L := map_to_list (vehicles S)) in Hin. vm_compute in L. subst L.
    repeat (apply elem_of_cons in Hin as [[= -> ->]|Hin]; [done|]).
    by apply elem_of_nil in Hin.
  - intros k q Hin. apply elem_of_map_to_list in Hin.
    set (L := map_to_list (requests S)) in Hin. vm_compute in L. subst L.
    repeat (apply elem_of_cons in Hin as [[= -> ->]|Hin]; [done|]).
    by apply elem_of_nil in Hin.
  - done.
  - done.
Defined.

(** ** Retrying after a release *)

Section Retry.

Implicit Types (S : ParkingSystem) (z : Zone) (zs : list Zone).
Implicit Types (sid zid : string) (b : bool).

Lemma find_zone_assign zid sid b zs z :
  NoDup (slotIds zs) ->
  List.find (zoneHasId zid) zs = Some z ->
  sid ∈ map slot_id (slotsOf z) ->
  List.find (zoneHasId zid) (assign_zones sid b zs)
  = Some (withAreas (assign_areas sid b (areas z)) z).
Proof.
  unfold slotIds. induction zs as [|z0 zs IH]; simpl; [done|].
  rewrite map_app. intros Hnd Hz Hin.
  apply NoDup_app in Hnd as (Hnd1 & Hdisj & Hnd2).
  destruct (zoneHasId zid z0) eqn:E.
  - injection Hz as ->.
    destruct (findSlot_areas sid z (areas z)) eqn:F.
    + simpl. unfold zoneHasId in *. simpl. by rewrite E.
    + apply findSlot_areas_None, find_slot_None in F. by destruct F.
  - assert (findSlot_areas sid z0 (areas z0) = None) as ->.
    { apply findSlot_areas_None, find_slot_None. intros Hc.
      apply (Hdisj _ Hc). apply List.find_some in Hz as [Hz _].
      apply list_elem_of_fmap in Hin as (s & -> & Hs).
      apply list_elem_of_fmap_2, list_elem_of_In, in_flat_map.
      exists z. split; [done | by apply list_elem_of_In]. }
    simpl. rewrite E. by apply IH.
Qed.

Lemma assigned_slot_available sid (ss : list ParkingSlot) :
  sid ∈ map slot_id ss ->
  List.filter isAvailable (assign_slots sid true ss) <> [].
Proof.
  intros Hin.
  destruct (List.find (slotHasId sid) ss) as [s|] eqn:E.
  2:{ apply find_slot_None in E. by destruct E. }
  pose proof (find_assign_slots sid sid true ss) as Hf.
  rewrite decide_True, E in Hf by done. simpl in Hf.
  apply List.find_some in Hf as [Hs _].
  intros Hnil.
  assert (In (setAvailable true s)
             (List.filter isAvailable (assign_slots sid true ss))) as Hc
    by (apply List.filter_In; by split).
  rewrite Hnil in Hc. destruct Hc.
Qed.

End Retry.

(** X21. A release makes room.  With unique slot ids, when an OCCUPIED
    request whose slot (id not empty) lies in the zone stored under an id is
    released, that zone has an available slot again, and allocating any
    REQUESTED request for that zone right afterwards succeeds in the zone
    itself, not cross-zone. *)
Theorem X21_release_then_allocate
    (S : ParkingSystem) (rid sid zid : string) (q : ParkingRequest) (z : Zone)
    (now : Z) :
  NoDup (slotIds (zones S)) ->
  requests S !! rid = Some q ->
  state q = OCCUPIED ->
  allocatedSlotId q = Some sid ->
  sid <> "" ->
  getZone zid S = Some z ->
  sid ∈ map slot_id (slotsOf z) ->
  let '(r, S1) := releaseSlot now rid S in
  success r = true
  /\ getAvailableSlotsInZone zid S1 <> []
  /\ forall e rid2 q2,
       requests S1 !! rid2 = Some q2 ->
       state q2 = REQUESTED ->
       requestedZoneId q2 = zid ->
       let '(r2, S2) := allocateSlot e rid2 S1 in
       success r2 = true
       /\ (state <$> requests S2 !! rid2) = Some ALLOCATED
       /\ (isCrossZone <$> requests S2 !! rid2) = Some false.
Proof.
  intros Hnd Hq Hst Hsid Hne Hz Hin.
  unfold releaseSlot, freeAllocatedSlot. rewrite Hq, Hst, Hsid. simpl.
  rewrite bool_decide_eq_false_2 by done.
  match goal with
  | |- _ /\ getAvailableSlotsInZone zid ?T <> [] /\ _ => set (S1 := T)
  end.
  split; [done|].
  assert (getAvailableSlotsInZone zid S1 <> []) as Hroom.
  { unfold getAvailableSlotsInZone, getZone, S1. simpl.
    rewrite (find_zone_assign zid sid true _ z Hnd Hz Hin).
    rewrite availableSlotsOf_flat. unfold slotsOf. simpl.
    rewrite assign_areas_flat. by apply assigned_slot_available. }
  split; [done|].
  intros e rid2 q2 Hq2 Hst2 Hzid.
  change (requests S1 !! rid2 = Some q2) in Hq2. clearbody S1.
  unfold allocateSlot. rewrite Hq2, Hst2. simpl.
  unfold selectSlots. rewrite Hzid.
  destruct (getAvailableSlotsInZone zid S1) as [|s l] eqn:E; [done|].
  simpl. by rewrite lookup_insert_eq.
Qed.

Lemma X21_release_then_allocate_witness :
  let S := Scenario2.oneParkedOneWaiting in
  let '(r, S1) := releaseSlot 1600 Scenario.r1 S in
  success r = true
  /\ getAvailableSlotsInZone "zone-a" S1 <> []
  /\ forall e rid2 q2,
       requests S1 !! rid2 = Some q2 ->
       state q2 = REQUESTED ->
       requestedZoneId q2 = "zone-a" ->
       let '(r2, S2) := allocateSlot e rid2 S1 in
       success r2 = true
       /\ (state <$> requests S2 !! rid2) = Some ALLOCATED
       /\ (isCrossZone <$> requests S2 !! rid2) = Some false.
Proof.
  intros S.
  apply (X21_release_then_allocate S Scenario.r1 "slot-a1-1" "zone-a"
           (occupiedRequest 1500
              (allocatedRequest Scenario.ae1 10 false
                 (mkSlot "slot-a1-1" "zone-a" "area-a1" true)
                 (mkRequest Scenario.r1 "v1" "zone-a" None None REQUESTED 1000
                            None None None false 0)))
           (mkZone "zone-a" "zone-a"
              [mkArea "area-a1" "area-a1" "zone-a"
                 [mkSlot "slot-a1-1" "zone-a" "area-a1" false]] [])
           1600).
  - apply (bool_decide_unpack _). vm_compute. exact I.
  - vm_compute. reflexivity.
  - reflexivity.
  - reflexivity.
  - discriminate.
  - vm_compute. reflexivity.
  - apply elem_of_cons. by left.
Defined.

(** ** The linked list against the sequence it stands for *)

Section LinkedListRefinement.

Import LinkedList.

Lemma chain_length nodes p c locs ops :
  chain nodes p c locs ops -> length locs = length ops.
Proof.
  revert p c ops. induction locs as [|a locs IH]; intros p c [|o ops] H;
    simpl in *; try done.
  destruct H as (_ & nx & _ & H). f_equal. by eapply IH.
Qed.

Lemma chain_lookup nodes p c locs ops a :
  chain nodes p c locs ops -> a ∈ locs -> is_Some (nodes !! a).
Proof.
  revert p c ops. induction locs as [|b locs IH]; intros p c [|o ops] H Ha;
    simpl in *; try done.
  - by apply elem_of_nil in Ha.
  - destruct H as (_ & nx & Hb & H).
    apply elem_of_cons in Ha as [->|Ha]; [by eexists|]. by eapply IH.
Qed.

(** Writing to addresses outside the chain leaves it a chain. *)
Lemma chain_frame nodes nodes' p c locs ops :
  (forall a, a ∈ locs -> nodes' !! a = nodes !! a) ->
  chain nodes p c locs ops -> chain nodes' p c locs ops.
Proof.
  revert p c ops. induction locs as [|b locs IH]; intros p c [|o ops] Hsame H;
    simpl in *; try done.
  destruct H as (Hc & nx & Hb & H). split; [done|]. exists nx. split.
  - rewrite Hsame; [done|]. apply elem_of_cons. by left.
  - apply IH; [|done]. intros a Ha. apply Hsame, elem_of_cons. by right.
Qed.

(** Linking a new node behind the last one. *)
Lemma chain_extend nodes p c locs t ops a o :
  chain nodes p c (locs ++ [t]) ops ->
  NoDup (locs ++ [t]) -> a ∉ locs ++ [t] ->
  chain (alter (setNext (Some a)) t (<[a := mkNode o None (Some t)]> nodes))
        p c ((locs ++ [t]) ++ [a]) (ops ++ [o]).
Proof.
  revert p c ops. induction locs as [|b locs IH]; intros p c ops H Hnd Ha.
  - destruct ops as [|o' [|o'' ops]]; simpl in H; try done.
    2:{ by destruct H as (_ & nx & _ & H). }
    destruct H as (-> & nx & Ht & ->).
    assert (a <> t) as Hat.
    { intros ->. apply Ha. simpl. apply elem_of_cons. by left. }
    simpl. split; [done|]. exists (Some a). split.
    + rewrite lookup_alter_eq, lookup_insert_ne, Ht by done. done.
    + split; [done|]. exists None. split; [|done].
      rewrite lookup_alter_ne, lookup_insert_eq by done. done.
  - destruct ops as [|o' ops]; [done|]. simpl in H.
    destruct H as (-> & nx & Hb & H).
    change ((b :: locs) ++ [t]) with (b :: (locs ++ [t])) in Hnd, Ha.
    apply NoDup_cons in Hnd as [Hb' Hnd].
    apply not_elem_of_cons in Ha as [Hab Ha].
    simpl. split; [done|]. exists nx. split.
    + rewrite lookup_alter_ne, lookup_insert_ne by set_solver. done.
    + by apply IH.
Qed.

(** What the chain says about its last node. *)
Lemma chain_last nodes p c locs t ops :
  chain nodes p c (locs ++ [t]) ops ->
  exists ops' o,
    ops = ops' ++ [o]
    /\ nodes !! t
       = Some (mkNode o None (match last locs with
                              | Some t' => Some t'
                              | None => p
                              end)).
Proof.
  revert p c ops. induction locs as [|b locs IH]; intros p c ops H.
  - destruct ops as [|o [|o' ops]]; simpl in H; try done.
    2:{ by destruct H as (_ & nx & _ & H). }
    destruct H as (-> & nx & Ht & ->). by exists [], o.
  - destruct ops as [|o ops]; [done|]. simpl in H.
    destruct H as (-> & nx & Hb & H).
    destruct (IH _ _ _ H) as (ops' & o' & -> & Ht).
    exists (o :: ops'), o'. split; [done|]. rewrite Ht. do 2 f_equal.
    destruct locs as [|b' locs]; [done|].
    change (last (b :: b' :: locs)) with (last (b' :: locs)).
    destruct (last (b' :: locs)) eqn:E; [done|].
    by apply last_None in E.
Qed.

(** Unlinking the last node. *)
Lemma chain_truncate nodes p c locs t' t ops o :
  chain nodes p c ((locs ++ [t']) ++ [t]) (ops ++ [o]) ->
  NoDup ((locs ++ [t']) ++ [t]) ->
  chain (alter (setNext None) t' nodes) p c (locs ++ [t']) ops.
Proof.
  revert p c ops. induction locs as [|b locs IH]; intros p c ops H Hnd;
    pose proof (chain_length _ _ _ _ _ H) as Hlen;
    rewrite !length_app in Hlen; simpl in Hlen.
  - destruct ops as [|o1 [|o2 ops]]; simpl in Hlen; try lia.
    simpl in H. destruct H as (-> & nx & Ht' & H). simpl.
    split; [done|]. exists None. split; [|done].
    by rewrite lookup_alter_eq, Ht'.
  - destruct ops as [|o1 ops]; [simpl in Hlen; lia|].
    simpl in H. destruct H as (-> & nx & Hb & H).
    change (NoDup (b :: ((locs ++ [t']) ++ [t]))) in Hnd.
    apply NoDup_cons in Hnd as [Hb' Hnd].
    simpl. split; [done|]. exists nx. split.
    + rewrite lookup_alter_ne by set_solver. done.
    + by apply IH.
Qed.

(** The loop of [toArray] on a chain, given fuel for its length. *)
Lemma toArray_loop_chain fuel nodes p c locs ops acc :
  chain nodes p c locs ops -> (length locs <= fuel)%nat ->
  toArray_loop fuel nodes c acc = Some (acc ++ ops).
Proof.
  revert fuel p c ops acc.
  induction locs as [|a locs IH]; intros fuel p c [|o ops] acc H Hf;
    simpl in *; try done.
  - subst c. destruct fuel; by rewrite app_nil_r.
  - destruct H as (-> & nx & Ha & H). destruct fuel as [|fuel]; [lia|].
    simpl. rewrite Ha. simpl.
    rewrite (IH fuel (Some a) nx ops (acc ++ [o]) H) by lia.
    by rewrite <- app_assoc.
Qed.

Lemma chain_fits nodes p c locs ops :
  NoDup locs -> chain nodes p c locs ops -> (length locs <= size nodes)%nat.
Proof.
  intros Hnd H.
  rewrite <- (size_dom nodes), <- (size_list_to_set (C := gset nat) locs Hnd).
  apply subseteq_size. intros a Ha. apply elem_of_list_to_set in Ha.
  apply elem_of_dom. by eapply chain_lookup.
Qed.

Lemma repr_toArray L ops : repr L ops -> toArray L = Some ops.
Proof.
  intros (locs & Hnd & H & _ & _). unfold toArray.
  rewrite (toArray_loop_chain _ _ _ _ _ _ [] H); [done|].
  by eapply chain_fits.
Qed.

Lemma repr_empty : repr LinkedList.empty [].
Proof. exists []. repeat split; [constructor|done..]. Qed.

Lemma fresh_not_in_chain nodes p c locs ops :
  chain nodes p c locs ops -> fresh (dom nodes) ∉ locs.
Proof.
  intros H Hin. destruct (chain_lookup _ _ _ _ _ _ H Hin) as [n Hn].
  apply (is_fresh (dom nodes)). apply elem_of_dom. by eexists.
Qed.

Lemma repr_push L ops o : repr L ops -> repr (push o L) (ops ++ [o]).
Proof.
  intros (locs & Hnd & H & Htl & Hsz).
  pose proof (fresh_not_in_chain _ _ _ _ _ H) as Hfresh.
  pose proof (chain_length _ _ _ _ _ H) as Hlen.
  unfold push. set (a := fresh (dom (ll_nodes L))) in *.
  destruct locs as [|b locs _] using rev_ind.
  - destruct ops; [|done]. simpl in H, Htl. rewrite Htl. simpl.
    exists [a]. split; [|split; [|split]]; simpl.
    + apply NoDup_singleton.
    + split; [done|]. exists None. split; [|done]. by rewrite lookup_insert_eq.
    + done.
    + simpl in Hsz. lia.
  - rewrite last_snoc in Htl. rewrite Htl. simpl.
    exists ((locs ++ [b]) ++ [a]). split; [|split; [|split]]; simpl.
    + apply NoDup_app. split; [done|]. split; [|apply NoDup_singleton].
      intros x Hx Hxa. apply list_elem_of_singleton in Hxa. by subst x.
    + by apply chain_extend.
    + by rewrite last_snoc.
    + rewrite length_app. simpl. lia.
Qed.

Lemma repr_pop L ops :
  repr L ops ->
  match history_pop ops with
  | None => pop L = (None, L)
  | Some (o, ops') => exists L', pop L = (Some o, L') /\ repr L' ops'
  end.
Proof.
  intros (locs & Hnd & H & Htl & Hsz).
  destruct locs as [|t locs _] using rev_ind.
  - destruct ops; [|done]. simpl in *. unfold pop. by rewrite Htl.
  - destruct (chain_last _ _ _ _ _ _ H) as (ops' & o & -> & Ht).
    rewrite history_pop_snoc. rewrite last_snoc in Htl.
    unfold pop. rewrite Htl, Ht. simpl. eexists. split; [done|].
    rewrite length_app in Hsz. simpl in Hsz.
    destruct locs as [|t' locs _] using rev_ind.
    + simpl in Ht. simpl.
      pose proof (chain_length _ _ _ _ _ H) as Hlen.
      simpl in Hlen. rewrite length_app in Hlen. simpl in Hlen.
      destruct ops' as [|? ?]; [|simpl in Hlen; lia].
      exists []. split; [|split; [|split]]; simpl; [constructor|done|done|lia].
    + rewrite last_snoc. simpl.
      exists (locs ++ [t']). split; [|split; [|split]]; simpl.
      * by apply NoDup_app in Hnd as [? _].
      * by eapply chain_truncate.
      * by rewrite last_snoc.
      * lia.
Qed.

Lemma repr_inj L ops ops' : repr L ops -> repr L ops' -> ops = ops'.
Proof.
  intros H H'. apply repr_toArray in H, H'. congruence.
Qed.

End LinkedListRefinement.

(** X22. [push] on the linked list appends to the sequence the list stands
    for: if the list represents [ops] then after [push(o)] it represents
    [ops] followed by [o], [toArray] returns exactly that, and [size] has
    grown by one. *)
Theorem X22_push_appends
    (L : LinkedList.OperationLinkedList) (ops : list AllocationOperation)
    (o : AllocationOperation) :
  LinkedList.repr L ops ->
  LinkedList.repr (LinkedList.push o L) (history_push o ops)
  /\ LinkedList.toArray (LinkedList.push o L) = Some (ops ++ [o])
  /\ LinkedList.ll_size (LinkedList.push o L) = LinkedList.ll_size L + 1.
Proof.
  intros H. pose proof (repr_push _ _ o H) as H'. split; [done|]. split.
  - by apply repr_toArray.
  - unfold LinkedList.push. by destruct (LinkedList.ll_tail L).
Qed.

Lemma X22_push_appends_witness :
  LinkedList.repr (LinkedList.push LinkedList.op1 LinkedList.empty)
                  [LinkedList.op1]
  /\ LinkedList.toArray
       (LinkedList.push LinkedList.op2
          (LinkedList.push LinkedList.op1 LinkedList.empty))
     = Some [LinkedList.op1; LinkedList.op2].
Proof.
  assert (LinkedList.repr (LinkedList.push LinkedList.op1 LinkedList.empty)
                          [LinkedList.op1]) as H.
  { apply (repr_push _ [] LinkedList.op1 repr_empty). }
  split; [exact H|].
  exact (proj1 (proj2 (X22_push_appends _ _ LinkedList.op2 H))).
Defined.

(** X23. [pop] on the linked list takes the last element off the sequence:
    on a list that represents the empty sequence it returns null and changes
    nothing; on one that represents [ops] followed by [o] it returns [o],
    and the list then represents [ops], with [toArray] returning [ops] and
    [size] one less. *)
Theorem X23_pop_removes_last
    (L : LinkedList.OperationLinkedList) (ops : list AllocationOperation) :
  LinkedList.repr L ops ->
  match history_pop ops with
  | None => ops = [] /\ LinkedList.pop L = (None, L)
  | Some (o, ops') =>
      ops = ops' ++ [o]
      /\ exists L',
           LinkedList.pop L = (Some o, L')
           /\ LinkedList.repr L' ops'
           /\ LinkedList.toArray L' = Some ops'
           /\ LinkedList.ll_size L' = LinkedList.ll_size L - 1
  end.
Proof.
  intros H. pose proof (repr_pop _ _ H) as Hpop.
  destruct ops as [|o0 ops0 _] using rev_ind.
  - by simpl in *.
  - rewrite history_pop_snoc in *. split; [done|].
    destruct Hpop as (L' & Hp & HL'). exists L'. split; [done|].
    split; [done|]. split; [by apply repr_toArray|].
    destruct H as (_ & _ & _ & _ & Hsz). destruct HL' as (_ & _ & _ & _ & Hsz').
    rewrite Hsz, Hsz', length_app. simpl. lia.
Qed.

Lemma X23_pop_removes_last_witness :
  LinkedList.repr
    (LinkedList.push LinkedList.op2
       (LinkedList.push LinkedList.op1 LinkedList.empty))
    [LinkedList.op1; LinkedList.op2]
  /\ exists L',
       LinkedList.pop
         (LinkedList.push LinkedList.op2
            (LinkedList.push LinkedList.op1 LinkedList.empty))
       = (Some LinkedList.op2, L')
       /\ LinkedList.toArray L' = Some [LinkedList.op1].
Proof.
  assert (LinkedList.repr
            (LinkedList.push LinkedList.op2
               (LinkedList.push LinkedList.op1 LinkedList.empty))
            [LinkedList.op1; LinkedList.op2]) as H.
  { apply (repr_push _ [LinkedList.op1] LinkedList.op2).
    apply (repr_push _ [] LinkedList.op1 repr_empty). }
  split; [exact H|].
  destruct (X23_pop_removes_last _ _ H) as (_ & L' & Hp & _ & Ha & _).
  exists L'. split; [exact Hp | exact Ha].
Defined.

(** X24. Whatever pushes and pops are made on a new list, [toArray]
    terminates and returns the sequence that the same pushes and pops leave,
    and [size] is its length: the linked list of the engine may be read as
    that sequence. *)
Theorem X24_linked_list_is_a_sequence (cs : list LinkedList.ListOp) :
  LinkedList.toArray (LinkedList.runList cs) = Some (LinkedList.runSeq cs)
  /\ LinkedList.ll_size (LinkedList.runList cs)
     = Z.of_nat (length (LinkedList.runSeq cs)).
Proof.
  assert (LinkedList.repr (LinkedList.runList cs) (LinkedList.runSeq cs)) as H.
  { unfold LinkedList.runList, LinkedList.runSeq.
    induction cs as [|c cs IH] using rev_ind; [apply repr_empty|].
    rewrite !foldl_app. simpl.
    destruct c as [o|]; simpl; [by apply repr_push|].
    pose proof (repr_pop _ _ IH) as Hpop.
    destruct (history_pop _) as [[o h']|].
    - destruct Hpop as (L' & -> & HL'). done.
    - by rewrite Hpop. }
  split; [by apply repr_toArray|]. by destruct H as (_ & _ & _ & _ & Hsz).
Qed.
